(** * ForerunnerDB: the binary index tree and the file persistence codec

    A shallow embedding of [BinaryTree] (insert, remove, lookup, inOrder,
    startsWith, findRange, match and the default comparator) and of the
    [_encode] / [_decode] steps of [NodePersist], with the properties the
    specification states about them. *)

From Stdlib Require Import ZArith String Ascii List Lia Bool Permutation Sorted.
From Stdlib Require Import DecimalString.
From stdpp Require Import base option list.
Import ListNotations.

Set Warnings "-register-all".

Local Open Scope string_scope.
Local Open Scope list_scope.

(** ** JavaScript values *)

(** The values documents are made of.  Numbers are the integers, objects are
    property lists in which the first binding of a name is the one read. *)
Inductive jsval : Type :=
| JUndefined
| JNumber (n : Z)
| JString (s : string)
| JObject (props : list (string * jsval)).

(** A document is an object: its property list. *)
Definition doc : Type := list (string * jsval).

(** What a call can do: return a value or throw. *)
Inductive error : Type :=
| TypeError
| SyntaxError.

Inductive result (A : Type) : Type :=
| Ok (a : A)
| Throw (e : error).
Arguments Ok {A} a.
Arguments Throw {A} e.

Definition bind {A B} (r : result A) (k : A -> result B) : result B :=
  match r with
  | Ok a => k a
  | Throw e => Throw e
  end.

Notation "'do' x <- r ; k" := (bind r (fun x => k))
  (at level 10, x name, r at level 100, k at level 200).

(** [obj[name]]: property read on an object. *)
Fixpoint prop (obj : doc) (name : string) : jsval :=
  match obj with
  | [] => JUndefined
  | (k, v) :: rest => if String.eqb k name then v else prop rest name
  end.

(** [obj[pk]] where [pk] may be [undefined]: JavaScript turns the key into
    the property name ["undefined"]. *)
Definition propertyKey (pk : option string) : string :=
  match pk with
  | Some name => name
  | None => "undefined"
  end.

(** [a === b].  Objects are equal when they are the same reference, which
    this value model does not track: two object operands are taken to be
    different references. *)
Definition strict_eq (a b : jsval) : bool :=
  match a, b with
  | JUndefined, JUndefined => true
  | JNumber x, JNumber y => Z.eqb x y
  | JString s, JString t => String.eqb s t
  | _, _ => false
  end.

(** ** Strings *)

(** [s.substr(0, n)] *)
Definition substr0 (s : string) (n : nat) : string := String.substring 0 n s.

(** [s.split(sep)] for a non-empty separator: [skip] counts the characters
    of a separator occurrence still to be dropped, [cur] holds the current
    piece in reverse. *)
Fixpoint split_from (sep : string) (skip : nat) (cur : list ascii) (s : string)
  : list string :=
  match s with
  | EmptyString => [string_of_list_ascii (rev cur)]
  | String c s' =>
      match skip with
      | S k => split_from sep k cur s'
      | O =>
          if String.prefix sep s
          then string_of_list_ascii (rev cur)
                 :: split_from sep (String.length sep - 1) [] s'
          else split_from sep 0 (c :: cur) s'
      end
  end.

Definition split (sep s : string) : list string := split_from sep 0 [] s.

(** ** Path *)

Module Path.

(** One entry of a parsed key specification: [{path: ..., value: ...}]. *)
Record indexData : Type := mkIndexData { path : string; value : jsval }.

(** Modelled from the spec: [Path.prototype.parse] is not among the sources.
    "turns a key-specification object (mapping field path to 1/-1) into the
    ordered list consumed everywhere else. Must preserve the caller-supplied
    field order". *)
Definition parse (spec : doc) : list indexData :=
  map (fun kv => mkIndexData (fst kv) (snd kv)) spec.

(** Modelled from the spec: [Path.prototype.parseArr] is not among the
    sources.  "Parses ... the query's field spec into ordered path lists
    (the query list optionally filtered by a caller-supplied path-matching
    policy, e.g. to ignore operator-prefixed keys)". *)
Definition parseArr (spec : doc) (ignore : string -> bool) : list string :=
  List.filter (fun p => negb (ignore p)) (map fst spec).

Fixpoint walk (obj : jsval) (segments : list string) : jsval :=
  match segments with
  | [] => obj
  | seg :: rest =>
      match obj with
      | JObject props => walk (prop props seg) rest
      | _ => JUndefined
      end
  end.

(** Modelled from the spec: [Path.prototype.get] is not among the sources.
    "resolves a dotted/segmented path against a document; any missing
    intermediate segment yields undefined rather than failing. Never
    throws." *)
Definition get (obj : jsval) (p : string) : jsval := walk obj (split "." p).

End Path.

(** A node's payload as the value the path solver receives: a node without
    payload hands it [undefined]. *)
Definition payload (d : option doc) : jsval :=
  match d with
  | Some o => JObject o
  | None => JUndefined
  end.

(** ** Mixin.Sorting *)

Module Sorting.

Definition of_comparison (c : comparison) : Z :=
  match c with
  | Lt => (-1)%Z
  | Eq => 0%Z
  | Gt => 1%Z
  end.

(** Modelled from the spec: "natural ordering".  Numbers are ordered as
    numbers and strings lexicographically; two values that are not both
    numbers or both strings are neither greater nor less. *)
Definition natural (a b : jsval) : Z :=
  match a, b with
  | JNumber x, JNumber y => of_comparison (Z.compare x y)
  | JString s, JString t => of_comparison (String.compare s t)
  | _, _ => 0%Z
  end.

(** Modelled from the spec: [sortAscIgnoreUndefined] (Mixin.Sorting) is not
    among the sources.  "if both values are undefined, they are equal on
    this field; if exactly one is undefined, the defined value sorts greater
    than the undefined one regardless of direction (undefined always sorts
    lowest); otherwise compare by natural ordering". *)
Definition sortAscIgnoreUndefined (a b : jsval) : Z :=
  match a, b with
  | JUndefined, JUndefined => 0%Z
  | JUndefined, _ => (-1)%Z
  | _, JUndefined => 1%Z
  | _, _ => natural a b
  end.

(** Modelled from the spec: [sortDescIgnoreUndefined] (Mixin.Sorting) is not
    among the sources.  As the ascending one, "and negate the result if
    direction is Descending". *)
Definition sortDescIgnoreUndefined (a b : jsval) : Z :=
  match a, b with
  | JUndefined, JUndefined => 0%Z
  | JUndefined, _ => (-1)%Z
  | _, JUndefined => 1%Z
  | _, _ => (- natural a b)%Z
  end.

End Sorting.

(** ** The default comparator *)

Import Path Sorting.

(** The body of the loop of [_compareFunc] up to the test of [result]: the
    new value of [result] after the key [indexData]. *)
Definition compareKey (indexData : indexData) (result : Z) (a b : jsval) : Z :=
  if strict_eq (value indexData) (JNumber 1)
  then sortAscIgnoreUndefined (get a (path indexData)) (get b (path indexData))
  else if strict_eq (value indexData) (JNumber (-1))
       then sortDescIgnoreUndefined (get a (path indexData)) (get b (path indexData))
       else result.

(** The loop of [_compareFunc] from key [i] on, [result] being the variable
    of that name. *)
Fixpoint compareLoop (keys : list indexData) (result : Z) (a b : jsval) : Z :=
  match keys with
  | [] => result
  | indexData :: rest =>
      let result := compareKey indexData result a b in
      if negb (Z.eqb result 0) then result else compareLoop rest result a b
  end.

(** [BinaryTree.prototype._compareFunc] *)
Definition _compareFunc (keys : list indexData) (a b : jsval) : Z :=
  compareLoop keys 0%Z a b.

(** The comparison the loop makes on one key; [result] is 0 whenever the
    loop reaches a key. *)
Definition fieldCompare (k : indexData) (a b : jsval) : Z := compareKey k 0%Z a b.

(** ** The index tree as a value

    [insert] and the traversals never make two nodes share a child, so the
    nodes reachable from a node form a tree, given here as an inductive
    value: a child that is [None] is an [undefined] [_left] or [_right].
    That the node objects hold this value after [insert], and that [inOrder]
    and [lookup] read it, is [store_agrees_with_tree] below.
    [_parent] is written by [insert] and read nowhere; it is left out. *)

Module Tree.

Inductive tree : Type :=
| Node (_data : option doc) (_hash : jsval) (_store : list jsval)
       (_left _right : option tree) (_primaryKey : option string).

Definition _data (t : tree) : option doc := let 'Node d _ _ _ _ _ := t in d.
Definition _hash (t : tree) : jsval := let 'Node _ h _ _ _ _ := t in h.
Definition _store (t : tree) : list jsval := let 'Node _ _ s _ _ _ := t in s.
Definition _left (t : tree) : option tree := let 'Node _ _ _ l _ _ := t in l.
Definition _right (t : tree) : option tree := let 'Node _ _ _ _ r _ := t in r.
Definition _primaryKey (t : tree) : option string := let 'Node _ _ _ _ _ pk := t in pk.

(** The type argument of [inOrder] and [findRange]. *)
Inductive mode : Type :=
| hash
| data
| other.

(** What the traversals push for a node under each [type]. *)
Inductive entry : Type :=
| EHash (h : jsval)
| EData (d : option doc)
| EKeyArr (key : option doc) (arr : list jsval).

Definition pushed (type : mode) (this : tree) : entry :=
  match type with
  | hash => EHash (_hash this)
  | data => EData (_data this)
  | other => EKeyArr (_data this) (_store this)
  end.

Section WithIndex.

(** The index specification is not empty (data model): [_keys] is
    [k0 :: ks], so that [this._keys[0]] of [_hashFunc] is [k0]. *)
Variable k0 : indexData.
Variable ks : list indexData.

Definition _keys : list indexData := k0 :: ks.

(** [this._compareFunc(this._data, data)] with the default comparator. *)
Definition compareData (cur : option doc) (d : doc) : Z :=
  _compareFunc _keys (payload cur) (JObject d).

(** [BinaryTree.prototype._hashFunc] *)
Definition _hashFunc (obj : doc) : jsval := prop obj (path k0).

(** [this.data(val)] with a defined [val] *)
Definition setData (val : doc) (this : tree) : tree :=
  let 'Node _ _ s l r pk := this in
  Node (Some val) (_hashFunc val) s l r pk.

(** [new BinaryTree(data, index, primaryKey, compareFunc, hashFunc)] *)
Definition init (d : option doc) (primaryKey : option string) : tree :=
  let this := Node None JUndefined [] None None primaryKey in
  match d with
  | Some val => setData val this
  | None => this
  end.

(** [this._binaryTree], the field [insert] passes as the primary key of
    a new child: nothing ever assigns it. *)
Definition _binaryTree : option string := None.

(** [BinaryTree.prototype.insert] for one document.  The value of the
    recursive call is dropped, as in the source. *)
Fixpoint insert (d : doc) (this : tree) : tree * bool :=
  let 'Node cur h s l r pk := this in
  match cur with
  | None => (setData d this, true)
  | Some _ =>
      let result := compareData cur d in
      if Z.eqb result 0 then
        (Node cur h s
           (Some match l with
                 | Some lchild => fst (insert d lchild)
                 | None => init (Some d) _binaryTree
                 end) r pk, true)
      else if Z.eqb result (-1) then
        (Node cur h s l
           (Some match r with
                 | Some rchild => fst (insert d rchild)
                 | None => init (Some d) _binaryTree
                 end) pk, true)
      else if Z.eqb result 1 then
        (Node cur h s
           (Some match l with
                 | Some lchild => fst (insert d lchild)
                 | None => init (Some d) _binaryTree
                 end) r pk, true)
      else (this, false)
  end.

(** The array branch of [insert]: [{inserted: ..., failed: ...}]. *)
Record insertResult : Type :=
  mkInsertResult { inserted : list doc; failed : list doc }.

Fixpoint insertArrayLoop (ds : list doc) (this : tree) (acc : insertResult)
  : tree * insertResult :=
  match ds with
  | [] => (this, acc)
  | d :: rest =>
      let '(this, ok) := insert d this in
      insertArrayLoop rest this
        (if ok then mkInsertResult (inserted acc ++ [d]) (failed acc)
         else mkInsertResult (inserted acc) (failed acc ++ [d]))
  end.

Definition insertArray (ds : list doc) (this : tree) : tree * insertResult :=
  insertArrayLoop ds this (mkInsertResult [] []).

(** [BinaryTree.prototype.lookup]; the three tests of [result] follow one
    another as in the source. *)
Fixpoint lookup (d : doc) (this : tree) (resultArr : list (option doc))
  : list (option doc) :=
  let 'Node cur _ _ l r _ := this in
  let result := compareData cur d in
  let resultArr :=
    if Z.eqb result 0 then
      let resultArr := match l with
                       | Some lchild => lookup d lchild resultArr
                       | None => resultArr
                       end in
      let resultArr := resultArr ++ [cur] in
      match r with
      | Some rchild => lookup d rchild resultArr
      | None => resultArr
      end
    else resultArr in
  let resultArr :=
    if Z.eqb result (-1) then
      match r with
      | Some rchild => lookup d rchild resultArr
      | None => resultArr
      end
    else resultArr in
  let resultArr :=
    if Z.eqb result 1 then
      match l with
      | Some lchild => lookup d lchild resultArr
      | None => resultArr
      end
    else resultArr in
  resultArr.

(** [BinaryTree.prototype.inOrder] *)
Fixpoint inOrder (type : mode) (this : tree) (resultArr : list entry)
  : list entry :=
  let 'Node _ _ _ l r _ := this in
  let resultArr := match l with
                   | Some lchild => inOrder type lchild resultArr
                   | None => resultArr
                   end in
  let resultArr := resultArr ++ [pushed type this] in
  match r with
  | Some rchild => inOrder type rchild resultArr
  | None => resultArr
  end.

End WithIndex.

(** [BinaryTree.prototype.startsWith].  [thisDataPathVal.substr] is a call
    on the resolved value: it throws a TypeError unless that value is a
    string.  The counters [_visitedCount] and [_visitedNodes] that the
    source hangs on the result array are not elements of the result and are
    left out. *)
Fixpoint startsWith (path val : string) (this : tree)
  (resultArr : list (option doc)) : result (list (option doc)) :=
  let 'Node cur _ _ l r _ := this in
  match Path.get (payload cur) path with
  | JString thisDataPathVal =>
      let thisDataPathValSubStr := substr0 thisDataPathVal (String.length val) in
      let result :=
        sortAscIgnoreUndefined (JString thisDataPathValSubStr) (JString val) in
      let reTest := String.eqb thisDataPathValSubStr val in
      do resultArr <-
        (if Z.eqb result 0 then
           do resultArr <- match l with
                           | Some lchild => startsWith path val lchild resultArr
                           | None => Ok resultArr
                           end;
           let resultArr := if reTest then resultArr ++ [cur] else resultArr in
           match r with
           | Some rchild => startsWith path val rchild resultArr
           | None => Ok resultArr
           end
         else Ok resultArr);
      do resultArr <-
        (if Z.eqb result (-1) then
           let resultArr := if reTest then resultArr ++ [cur] else resultArr in
           match r with
           | Some rchild => startsWith path val rchild resultArr
           | None => Ok resultArr
           end
         else Ok resultArr);
      do resultArr <-
        (if Z.eqb result 1 then
           do resultArr <- match l with
                           | Some lchild => startsWith path val lchild resultArr
                           | None => Ok resultArr
                           end;
           Ok (if reTest then resultArr ++ [cur] else resultArr)
         else Ok resultArr);
      Ok resultArr
  | _ => Throw TypeError
  end.

(** Modelled from the spec: [Path.prototype.value] behind
    [pathResolver.value(this._data)] is not among the sources; it yields the
    "resolved fieldPath value" of the payload. *)
Definition pathVal (key : string) (this : tree) : jsval :=
  Path.get (payload (_data this)) key.

(** The test of [findRange] on a node. *)
Definition withinRange (key : string) (from to : jsval) (this : tree) : bool :=
  let fromResult := sortAscIgnoreUndefined (pathVal key this) from in
  let toResult := sortAscIgnoreUndefined (pathVal key this) to in
  (Z.eqb fromResult 0 || Z.eqb fromResult 1)
  && (Z.eqb toResult 0 || Z.eqb toResult (-1)).

(** [BinaryTree.prototype.findRange] *)
Fixpoint findRange (type : mode) (key : string) (from to : jsval)
  (this : tree) (resultArr : list entry) : list entry :=
  let 'Node _ _ _ l r _ := this in
  let resultArr := match l with
                   | Some lchild => findRange type key from to lchild resultArr
                   | None => resultArr
                   end in
  let resultArr :=
    if withinRange key from to this
    then resultArr ++ [pushed type this]
    else resultArr in
  match r with
  | Some rchild => findRange type key from to rchild resultArr
  | None => resultArr
  end.

(** The value [match] returns. *)
Record matchResult : Type :=
  mkMatchResult { matchedKeys : list string; totalKeyCount : nat; score : nat }.

(** The default path options of [match]: [{ignore: /\$/, verbose: true}],
    a key is ignored when it contains a dollar sign. *)
Fixpoint containsDollar (s : string) : bool :=
  match s with
  | EmptyString => false
  | String c s' => Ascii.eqb c "$"%char || containsDollar s'
  end.

(** One turn of the loop of [match]: [queryArr[i] === indexKeyArr[i]], an
    index past the end of an array reading [undefined]. *)
Definition matchStep (queryArr indexKeyArr : list string)
  (acc : list string * nat) (i : nat) : list string * nat :=
  match nth_error queryArr i, nth_error indexKeyArr i with
  | Some q, Some k =>
      if String.eqb q k then (fst acc ++ [q], S (snd acc)) else acc
  | _, _ => acc
  end.

(** [BinaryTree.prototype.match]: [_index] is the index specification of
    the tree, [pathOptions] the [ignore] policy of
    [matchOptions.pathOptions] when the caller gives one. *)
Definition match_ (_index query : doc) (pathOptions : option (string -> bool))
  : matchResult :=
  let indexKeyArr := parseArr _index (fun _ => false) in
  let queryArr :=
    parseArr query match pathOptions with
                   | Some ignore => ignore
                   | None => containsDollar
                   end in
  let '(matchedKeys, matchedKeyCount) :=
    fold_left (matchStep queryArr indexKeyArr)
      (seq 0 (List.length indexKeyArr)) ([], 0) in
  mkMatchResult matchedKeys (List.length queryArr) matchedKeyCount.

(** [BinaryTree.prototype.clear]; the cached hash is not among the fields it
    deletes. *)
Definition clear (this : tree) : tree :=
  let 'Node _ h _ _ _ pk := this in Node None h [] None None pk.

Section StoreArray.

(** The values a store holds and [===] on them.  The tree never looks into
    these values, so they are left open: whatever they are, objects are
    strictly equal by reference and NaN is not strictly equal to itself. *)
Variable V : Type.
Variable undefined : V.
Variable strictEq : V -> V -> bool.

(** [BinaryTree.prototype.push], on the array [this._store]: the array
    afterwards, and whether the node was returned ([false] otherwise). *)
Definition push (val : V) (_store : list V) : list V * bool :=
  if negb (strictEq val undefined) then (_store ++ [val], true)
  else (_store, false).

(** [arr.indexOf(val)]: the first index whose element is strictly equal to
    [val], [None] for -1. *)
Fixpoint indexOf (arr : list V) (val : V) : option nat :=
  match arr with
  | [] => None
  | x :: rest =>
      if strictEq x val then Some 0
      else match indexOf rest val with
           | Some i => Some (S i)
           | None => None
           end
  end.

(** [arr.splice(index, 1)] *)
Definition spliceOne (index : nat) (arr : list V) : list V :=
  firstn index arr ++ skipn (S index) arr.

(** [BinaryTree.prototype.pull], on the array [this._store]: the array
    afterwards, and whether the node was returned ([false] otherwise). *)
Definition pull (val : V) (_store : list V) : list V * bool :=
  if negb (strictEq val undefined) then
    match indexOf _store val with
    | Some index => (spliceOne index _store, true)
    | None => (_store, false)
    end
  else (_store, false).

End StoreArray.

(** [BinaryTree.prototype.leftMost] *)
Fixpoint leftMost (this : tree) : tree :=
  let 'Node _ _ _ l _ _ := this in
  match l with
  | None => this
  | Some lchild => leftMost lchild
  end.

(** [BinaryTree.prototype.rightMost] *)
Fixpoint rightMost (this : tree) : tree :=
  let 'Node _ _ _ _ r _ := this in
  match r with
  | None => this
  | Some rchild => rightMost rchild
  end.

End Tree.

(** ** The comparator, insert and startsWith over any Mixin.Sorting

    [this.sortAscIgnoreUndefined] and [this.sortDescIgnoreUndefined] come
    from Mixin.Sorting, which is not among the sources.  Here they are
    parameters of the functions that call them, so that what is proved holds
    for every pair of helpers with the properties assumed of them. *)

Module AnySorting.

Import Tree.

Section WithSorting.

Variable sortAscIgnoreUndefined sortDescIgnoreUndefined : jsval -> jsval -> Z.

(** The body of the loop of [_compareFunc] up to the test of [result]. *)
Definition compareKey (indexData : indexData) (result : Z) (a b : jsval) : Z :=
  if strict_eq (value indexData) (JNumber 1)
  then sortAscIgnoreUndefined (get a (path indexData)) (get b (path indexData))
  else if strict_eq (value indexData) (JNumber (-1))
       then sortDescIgnoreUndefined (get a (path indexData)) (get b (path indexData))
       else result.

(** The loop of [_compareFunc] from key [i] on. *)
Fixpoint compareLoop (keys : list indexData) (result : Z) (a b : jsval) : Z :=
  match keys with
  | [] => result
  | indexData :: rest =>
      let result := compareKey indexData result a b in
      if negb (Z.eqb result 0) then result else compareLoop rest result a b
  end.

(** [BinaryTree.prototype._compareFunc] *)
Definition _compareFunc (keys : list indexData) (a b : jsval) : Z :=
  compareLoop keys 0%Z a b.

Section WithIndex.

Variable k0 : indexData.
Variable ks : list indexData.

(** [BinaryTree.prototype.insert] for one document. *)
Fixpoint insert (d : doc) (this : tree) : tree * bool :=
  let 'Node cur h s l r pk := this in
  match cur with
  | None => (setData k0 d this, true)
  | Some _ =>
      let result := _compareFunc (k0 :: ks) (payload cur) (JObject d) in
      if Z.eqb result 0 then
        (Node cur h s
           (Some match l with
                 | Some lchild => fst (insert d lchild)
                 | None => init k0 (Some d) _binaryTree
                 end) r pk, true)
      else if Z.eqb result (-1) then
        (Node cur h s l
           (Some match r with
                 | Some rchild => fst (insert d rchild)
                 | None => init k0 (Some d) _binaryTree
                 end) pk, true)
      else if Z.eqb result 1 then
        (Node cur h s
           (Some match l with
                 | Some lchild => fst (insert d lchild)
                 | None => init k0 (Some d) _binaryTree
                 end) r pk, true)
      else (this, false)
  end.

End WithIndex.

(** [BinaryTree.prototype.startsWith] *)
Fixpoint startsWith (path val : string) (this : tree)
  (resultArr : list (option doc)) : result (list (option doc)) :=
  let 'Node cur _ _ l r _ := this in
  match Path.get (payload cur) path with
  | JString thisDataPathVal =>
      let thisDataPathValSubStr := substr0 thisDataPathVal (String.length val) in
      let result :=
        sortAscIgnoreUndefined (JString thisDataPathValSubStr) (JString val) in
      let reTest := String.eqb thisDataPathValSubStr val in
      do resultArr <-
        (if Z.eqb result 0 then
           do resultArr <- match l with
                           | Some lchild => startsWith path val lchild resultArr
                           | None => Ok resultArr
                           end;
           let resultArr := if reTest then resultArr ++ [cur] else resultArr in
           match r with
           | Some rchild => startsWith path val rchild resultArr
           | None => Ok resultArr
           end
         else Ok resultArr);
      do resultArr <-
        (if Z.eqb result (-1) then
           let resultArr := if reTest then resultArr ++ [cur] else resultArr in
           match r with
           | Some rchild => startsWith path val rchild resultArr
           | None => Ok resultArr
           end
         else Ok resultArr);
      do resultArr <-
        (if Z.eqb result 1 then
           do resultArr <- match l with
                           | Some lchild => startsWith path val lchild resultArr
                           | None => Ok resultArr
                           end;
           Ok (if reTest then resultArr ++ [cur] else resultArr)
         else Ok resultArr);
      Ok resultArr
  | _ => Throw TypeError
  end.

End WithSorting.

End AnySorting.

(** ** The index tree as objects in a store

    [remove] re-links nodes through references that are, for a moment, held
    by two objects, so it is modelled on a store of node objects: a
    reference is an index in the store, [new] appends.  The functions that
    follow references take fuel; [Stuck] is a run that used it up or met a
    reference outside the store. *)

Module Store.

Import Tree(mode, hash, data, other, entry, EHash, EData, EKeyArr).

(** A reference to a node object. *)
Abbreviation ref := nat (only parsing).

Record node : Type := mkNode {
  _data : option doc;
  _hash : jsval;
  _store : list jsval;
  _left : option ref;
  _right : option ref;
  _primaryKey : option string
}.

(** The store: the node objects made so far. *)
Abbreviation heap := (list node) (only parsing).

Inductive outcome (A : Type) : Type :=
| Returns (h : heap) (a : A)
| Throws (h : heap) (e : error)
| Stuck.
Arguments Returns {A} h a.
Arguments Throws {A} h e.
Arguments Stuck {A}.

Definition withLeft (l : option ref) (n : node) : node :=
  mkNode (_data n) (_hash n) (_store n) l (_right n) (_primaryKey n).

Definition withRight (r : option ref) (n : node) : node :=
  mkNode (_data n) (_hash n) (_store n) (_left n) r (_primaryKey n).

Definition pushed (type : mode) (n : node) : entry :=
  match type with
  | hash => EHash (_hash n)
  | data => EData (_data n)
  | other => EKeyArr (_data n) (_store n)
  end.

Section WithIndex.

Variable k0 : indexData.
Variable ks : list indexData.

Definition _keys : list indexData := k0 :: ks.

Definition compareData (cur : option doc) (d : doc) : Z :=
  _compareFunc _keys (payload cur) (JObject d).

Definition _hashFunc (obj : doc) : jsval := prop obj (path k0).

(** [this.data(val)] with a defined [val] *)
Definition setData (val : doc) (n : node) : node :=
  mkNode (Some val) (_hashFunc val) (_store n) (_left n) (_right n)
    (_primaryKey n).

(** [new BinaryTree(data, index, primaryKey, compareFunc, hashFunc)]:
    the store with the new object, and the reference to it. *)
Definition init (h : heap) (d : option doc) (primaryKey : option string)
  : heap * ref :=
  let this := mkNode None JUndefined [] None None primaryKey in
  (h ++ [match d with
         | Some val => setData val this
         | None => this
         end], List.length h).

(** [this._binaryTree]: nothing ever assigns it. *)
Definition _binaryTree : option string := None.

(** The two branches of [insert] under a test of [result]: go down the
    child, or make it.  [child] reads the branch of a node and
    [withChild] writes it. *)
Definition insertBelow
  (insert : heap -> ref -> doc -> outcome bool)
  (child : node -> option ref) (withChild : option ref -> node -> node)
  (h : heap) (this : ref) (n : node) (d : doc) : outcome bool :=
  match child n with
  | Some c =>
      match insert h c d with
      | Returns h' _ => Returns h' true
      | o => o
      end
  | None =>
      let '(h', c) := init h (Some d) _binaryTree in
      Returns (<[this := withChild (Some c) n]> h') true
  end.

(** [BinaryTree.prototype.insert] for one document *)
Fixpoint insert (fuel : nat) (h : heap) (this : ref) (d : doc)
  : outcome bool :=
  match fuel with
  | O => Stuck
  | S fuel =>
      match h !! this with
      | None => Stuck
      | Some n =>
          match _data n with
          | None => Returns (<[this := setData d n]> h) true
          | Some _ =>
              let result := compareData (_data n) d in
              if Z.eqb result 0 then
                insertBelow (insert fuel) _left withLeft h this n d
              else if Z.eqb result (-1) then
                insertBelow (insert fuel) _right withRight h this n d
              else if Z.eqb result 1 then
                insertBelow (insert fuel) _left withLeft h this n d
              else Returns h false
          end
      end
  end.

(** [BinaryTree.prototype.rightMost] *)
Fixpoint rightMost (fuel : nat) (h : heap) (this : ref) : option ref :=
  match fuel with
  | O => None
  | S fuel =>
      match h !! this with
      | None => None
      | Some n =>
          match _right n with
          | None => Some this
          | Some r => rightMost fuel h r
          end
      end
  end.

(** [BinaryTree.prototype.clear] *)
Definition clear (n : node) : node :=
  mkNode None (_hash n) [] None None (_primaryKey n).

(** [BinaryTree.prototype._remove], called on the node it is given.  The
    assignments are made in the order of the source: the fields of
    [this] are overwritten first, then [rightNode] is stored in the
    [_right] of the object [leftNode.rightMost()] returns. *)
Definition _remove (fuel : nat) (h : heap) (this : ref) : outcome bool :=
  match h !! this with
  | None => Stuck
  | Some n =>
      match _left n with
      | Some leftNode =>
          match h !! leftNode with
          | None => Stuck
          | Some ln =>
              let rightNode := _right n in
              let h := <[this := mkNode (_data ln) (_hash n) (_store ln)
                                   (_left ln) (_right ln) (_primaryKey n)]> h in
              match rightNode with
              | Some _ =>
                  match rightMost fuel h leftNode with
                  | None => Stuck
                  | Some rm =>
                      match h !! rm with
                      | None => Stuck
                      | Some rmn =>
                          Returns (<[rm := withRight rightNode rmn]> h) true
                      end
                  end
              | None => Returns h true
              end
          end
      | None =>
          match _right n with
          | Some rightNode =>
              match h !! rightNode with
              | None => Stuck
              | Some rn =>
                  Returns (<[this := mkNode (_data rn) (_hash n) (_store rn)
                                       (_left rn) (_right rn) (_primaryKey n)]> h)
                    true
              end
          | None => Returns (<[this := clear n]> h) true
          end
      end
  end.

(** [BinaryTree.prototype.remove] for one document.  [this._data[pk]]
    throws a TypeError on a node without payload. *)
Fixpoint remove (fuel : nat) (h : heap) (this : ref) (d : doc)
  : outcome bool :=
  match fuel with
  | O => Stuck
  | S fuel =>
      match h !! this with
      | None => Stuck
      | Some n =>
          let pk := _primaryKey n in
          match _data n with
          | None => Throws h TypeError
          | Some cur =>
              if strict_eq (prop cur (propertyKey pk)) (prop d (propertyKey pk))
              then _remove fuel h this
              else
                let result := compareData (_data n) d in
                match (if Z.eqb result (-1) then _right n else None) with
                | Some r => remove fuel h r d
                | None =>
                    match (if Z.eqb result 1 then _left n else None) with
                    | Some l => remove fuel h l d
                    | None => Returns h false
                    end
                end
          end
      end
  end.

(** The array branch of [insert]: [{inserted: ..., failed: ...}]. *)
Fixpoint insertArrayLoop (fuel : nat) (h : heap) (this : ref) (ds : list doc)
  (inserted failed : list doc) : outcome (list doc * list doc) :=
  match ds with
  | [] => Returns h (inserted, failed)
  | d :: rest =>
      match insert fuel h this d with
      | Returns h ok =>
          if ok then insertArrayLoop fuel h this rest (inserted ++ [d]) failed
          else insertArrayLoop fuel h this rest inserted (failed ++ [d])
      | Throws h e => Throws h e
      | Stuck => Stuck
      end
  end.

Definition insertArray (fuel : nat) (h : heap) (this : ref) (ds : list doc)
  : outcome (list doc * list doc) :=
  insertArrayLoop fuel h this ds [] [].

(** The array branch of [remove]: the documents whose removal returned
    true. *)
Fixpoint removeArrayLoop (fuel : nat) (h : heap) (this : ref) (ds : list doc)
  (removed : list doc) : outcome (list doc) :=
  match ds with
  | [] => Returns h removed
  | d :: rest =>
      match remove fuel h this d with
      | Returns h ok =>
          removeArrayLoop fuel h this rest (if ok then removed ++ [d] else removed)
      | Throws h e => Throws h e
      | Stuck => Stuck
      end
  end.

Definition removeArray (fuel : nat) (h : heap) (this : ref) (ds : list doc)
  : outcome (list doc) :=
  removeArrayLoop fuel h this ds [].

(** [BinaryTree.prototype.inOrder] *)
Fixpoint inOrder (fuel : nat) (h : heap) (type : mode) (this : ref)
  (resultArr : list entry) : option (list entry) :=
  match fuel with
  | O => None
  | S fuel =>
      n ← h !! this;
      resultArr ← match _left n with
                  | Some l => inOrder fuel h type l resultArr
                  | None => Some resultArr
                  end;
      let resultArr := resultArr ++ [pushed type n] in
      match _right n with
      | Some r => inOrder fuel h type r resultArr
      | None => Some resultArr
      end
  end.

(** [BinaryTree.prototype.lookup] *)
Fixpoint lookup (fuel : nat) (h : heap) (d : doc) (this : ref)
  (resultArr : list (option doc)) : option (list (option doc)) :=
  match fuel with
  | O => None
  | S fuel =>
      n ← h !! this;
      let result := compareData (_data n) d in
      resultArr ←
        (if Z.eqb result 0 then
           resultArr ← match _left n with
                       | Some l => lookup fuel h d l resultArr
                       | None => Some resultArr
                       end;
           let resultArr := resultArr ++ [_data n] in
           match _right n with
           | Some r => lookup fuel h d r resultArr
           | None => Some resultArr
           end
         else Some resultArr);
      resultArr ←
        (if Z.eqb result (-1) then
           match _right n with
           | Some r => lookup fuel h d r resultArr
           | None => Some resultArr
           end
         else Some resultArr);
      if Z.eqb result 1 then
        match _left n with
        | Some l => lookup fuel h d l resultArr
        | None => Some resultArr
        end
      else Some resultArr
  end.

End WithIndex.

End Store.

(** ** JSON text *)

Module JSON.

Definition dquote : ascii := "034"%char.
Definition backslash : ascii := "092"%char.

Fixpoint escape (s : string) : string :=
  match s with
  | EmptyString => EmptyString
  | String c rest =>
      if Ascii.eqb c dquote || Ascii.eqb c backslash
      then String backslash (String c (escape rest))
      else String c (escape rest)
  end.

Definition quote (s : string) : string :=
  String dquote (escape s ++ String dquote EmptyString)%string.

(** Modelled from the spec: [jStringify] (Mixin.Common) is not among the
    sources; it is taken to be the JSON serialisation, here for the values
    of [jsval]: no white space, members in the order of the object, a
    member whose value is [undefined] left out. *)
Fixpoint stringify (v : jsval) : string :=
  match v with
  | JUndefined => "null"
  | JNumber n => NilZero.string_of_int (Z.to_int n)
  | JString s => quote s
  | JObject props =>
      ("{" ++
       (fix members (ps : list (string * jsval)) (first : bool) : string :=
          match ps with
          | [] => ""
          | (_, JUndefined) :: rest => members rest first
          | (k, v) :: rest =>
              (if first then "" else ",") ++ quote k ++ ":" ++ stringify v
              ++ members rest false
          end) props true
       ++ "}")%string
  end.

(** The characters of a string literal after its opening quote, and what
    follows the closing one. *)
Fixpoint parseString (s : string) (acc : list ascii) : option (string * string) :=
  match s with
  | EmptyString => None
  | String c rest =>
      if Ascii.eqb c dquote then Some (string_of_list_ascii (rev acc), rest)
      else if Ascii.eqb c backslash then
        match rest with
        | String c' rest' => parseString rest' (c' :: acc)
        | EmptyString => None
        end
      else parseString rest (c :: acc)
  end.

Definition isNumberChar (c : ascii) : bool :=
  Ascii.eqb c "-"%char
  || (Nat.leb 48 (nat_of_ascii c) && Nat.leb (nat_of_ascii c) 57).

Fixpoint spanNumber (s : string) (acc : list ascii) : string * string :=
  match s with
  | EmptyString => (string_of_list_ascii (rev acc), EmptyString)
  | String c rest =>
      if isNumberChar c then spanNumber rest (c :: acc)
      else (string_of_list_ascii (rev acc), s)
  end.

Fixpoint parseValue (fuel : nat) (s : string) : option (jsval * string) :=
  match fuel with
  | O => None
  | S fuel =>
      match s with
      | EmptyString => None
      | String c rest =>
          if Ascii.eqb c dquote then
            match parseString rest [] with
            | Some (str, rest') => Some (JString str, rest')
            | None => None
            end
          else if Ascii.eqb c "{"%char then
            match rest with
            | String "}"%char rest' => Some (JObject [], rest')
            | _ =>
                match parseMembers fuel rest with
                | Some (ms, rest') => Some (JObject ms, rest')
                | None => None
                end
            end
          else
            let '(digits, rest') := spanNumber s [] in
            match NilZero.int_of_string digits with
            | Some i => Some (JNumber (Z.of_int i), rest')
            | None => None
            end
      end
  end
with parseMembers (fuel : nat) (s : string)
  : option (list (string * jsval) * string) :=
  match fuel with
  | O => None
  | S fuel =>
      match s with
      | String c rest =>
          if Ascii.eqb c dquote then
            match parseString rest [] with
            | Some (k, String ":"%char rest1) =>
                match parseValue fuel rest1 with
                | Some (v, String ","%char rest2) =>
                    match parseMembers fuel rest2 with
                    | Some (ms, rest3) => Some ((k, v) :: ms, rest3)
                    | None => None
                    end
                | Some (v, String "}"%char rest2) => Some ([(k, v)], rest2)
                | _ => None
                end
            | _ => None
            end
          else None
      | EmptyString => None
      end
  end.

(** Modelled from the spec: [jParse] (Mixin.Common) is not among the
    sources; it is taken to be JSON parsing, here of the texts [stringify]
    writes.  [None] is an [undefined] argument.  A text that is not JSON
    throws a SyntaxError. *)
Definition parse (text : option string) : result jsval :=
  match text with
  | None => Throw SyntaxError
  | Some s =>
      match parseValue (S (String.length s)) s with
      | Some (v, EmptyString) => Ok v
      | _ => Throw SyntaxError
      end
  end.

End JSON.

(** ** NodePersist: the encode and decode steps *)

Module NodePersist.

(** The [meta] object the steps fill in. *)
Record meta : Type := mkMeta { foundData : bool; rowCount : jsval }.

(** [if (data)] *)
Definition truthy (v : jsval) : bool :=
  match v with
  | JUndefined => false
  | JNumber n => negb (Z.eqb n 0)
  | JString s => negb (String.eqb s "")
  | JObject _ => true
  end.

(** [data.length] *)
Definition lengthOf (v : jsval) : jsval :=
  match v with
  | JString s => JNumber (Z.of_nat (String.length s))
  | JObject props => prop props "length"
  | _ => JUndefined
  end.

(** The string a value becomes under [+] with a string.  A number is
    printed in full decimal, as JavaScript does for the integers it counts
    exactly (up to 2^53 - 1 in absolute value); from 10^21 on JavaScript
    writes an exponent, which is not modelled. *)
Definition toString (v : jsval) : string :=
  match v with
  | JUndefined => "undefined"
  | JNumber n => NilZero.string_of_int (Z.to_int n)
  | JString s => s
  | JObject _ => "[object Object]"
  end.

Section Steps.

(** [this.jStringify] and [this.jParse] come from Mixin.Common, which is
    not among the sources: they are parameters of the steps. *)
Variable jStringify : jsval -> string.
Variable jParse : option string -> result jsval.

(** [data] is truthy: [foundData] and [rowCount] are set; otherwise
    [foundData] only. *)
Definition found (data : jsval) (m : meta) : meta :=
  if truthy data then mkMeta true (lengthOf data)
  else mkMeta false (rowCount m).

(** [NodePersist.prototype._encode]: the arguments [val] and [meta] that
    [finished] receives. *)
Definition _encode (val : jsval) (m : meta) : string * meta :=
  let data := val in
  let val :=
    match val with
    | JObject _ => ("json::fdb::" ++ jStringify val)%string
    | _ => ("raw::fdb::" ++ toString val)%string
    end in
  (val, found data m).

(** [NodePersist.prototype._decode] on a string: the arguments [data] and
    [meta] that [finished] receives. *)
Definition _decode (val : string) (m : meta) : result (jsval * meta) :=
  if truthy (JString val) then
    let parts := split "::fdb::" val in
    do data <-
      match nth_error parts 0 with
      | Some "json" => jParse (nth_error parts 1)
      | Some "raw" =>
          Ok match nth_error parts 1 with
             | Some s => JString s
             | None => JUndefined
             end
      | _ => Ok JUndefined
      end;
    Ok (data, found data m)
  else Ok (JString val, mkMeta false (JNumber 0)).

End Steps.

(** [arr.splice(start, 0, item)] for an integer [start]: a negative [start]
    counts from the end, and the position is clamped to the array. *)
Definition spliceInsert {A : Type} (start : Z) (item : A) (arr : list A)
  : list A :=
  let len := Z.of_nat (List.length arr) in
  let actualStart :=
    if Z.ltb start 0 then Z.max (len + start) 0 else Z.min start len in
  firstn (Z.to_nat actualStart) arr ++ item :: skipn (Z.to_nat actualStart) arr.

Section AddStep.

(** The encode and the decode functions of the steps. *)
Variable E D : Type.

(** [$main] of [NodePersist.prototype.addStep], on the arrays
    [this._encodeSteps] and [this._decodeSteps]; [index] is [None] when it
    is undefined, an integer otherwise. *)
Definition addStep (encode : E) (decode : D) (index : option Z)
  (_encodeSteps : list E) (_decodeSteps : list D) : list E * list D :=
  match index with
  | None | Some 0%Z => (_encodeSteps ++ [encode], decode :: _decodeSteps)
  | Some index =>
      (spliceInsert index encode _encodeSteps,
       spliceInsert (Z.of_nat (List.length _decodeSteps) - index) decode
         _decodeSteps)
  end.

End AddStep.

End NodePersist.

(** ** Notions the properties are stated with *)

(** "returns the first non-zero field comparison immediately and 0 if all
    fields compare equal" *)
Fixpoint firstNonZero (results : list Z) : Z :=
  match results with
  | [] => 0%Z
  | r :: rest => if Z.eqb r 0 then firstNonZero rest else r
  end.

(** The comparison of two resolved field values as the specification words
    it, for an ascending or a descending field. *)
Definition specFieldCompare (descending : bool) (va vb : jsval) : Z :=
  match va, vb with
  | JUndefined, JUndefined => 0%Z
  | JUndefined, _ => (-1)%Z
  | _, JUndefined => 1%Z
  | _, _ => if descending then (- natural va vb)%Z else natural va vb
  end.

Definition ascending (p : string) : indexData := mkIndexData p (JNumber 1).
Definition descending (p : string) : indexData := mkIndexData p (JNumber (-1)).

(** The keys of the query that equal the key of the index at the same
    position, at every position both have. *)
Fixpoint positionalMatches (queryArr indexKeyArr : list string) : list string :=
  match queryArr, indexKeyArr with
  | q :: queryArr', k :: indexKeyArr' =>
      if String.eqb q k
      then q :: positionalMatches queryArr' indexKeyArr'
      else positionalMatches queryArr' indexKeyArr'
  | _, _ => []
  end.

(** The keys of the query that equal the key of the index at the same
    position, up to the first position where they differ. *)
Fixpoint prefixMatches (queryArr indexKeyArr : list string) : list string :=
  match queryArr, indexKeyArr with
  | q :: queryArr', k :: indexKeyArr' =>
      if String.eqb q k then q :: prefixMatches queryArr' indexKeyArr' else []
  | _, _ => []
  end.

(** The [ignore] policy [match] applies to the query. *)
Definition ignorePolicy (pathOptions : option (string -> bool)) : string -> bool :=
  match pathOptions with
  | Some ignore => ignore
  | None => Tree.containsDollar
  end.

(** The nodes of a tree, left subtree first, then the node, then the right
    subtree. *)
Fixpoint nodes (t : Tree.tree) : list Tree.tree :=
  let 'Tree.Node _ _ _ l r _ := t in
  match l with
  | Some lchild => nodes lchild
  | None => []
  end ++ t :: match r with
              | Some rchild => nodes rchild
              | None => []
              end.

(** The documents a tree holds, in the same order. *)
Fixpoint elements (t : Tree.tree) : list doc :=
  let 'Tree.Node cur _ _ l r _ := t in
  match l with
  | Some lchild => elements lchild
  | None => []
  end ++ match cur with
         | Some d => [d]
         | None => []
         end ++ match r with
                | Some rchild => elements rchild
                | None => []
                end.

(** Every node holds a document. *)
Fixpoint populated (t : Tree.tree) : Prop :=
  let 'Tree.Node cur _ _ l r _ := t in
  cur <> None
  /\ match l with
     | Some lchild => populated lchild
     | None => True
     end
  /\ match r with
     | Some rchild => populated rchild
     | None => True
     end.

(** The tree that [new BinaryTree(undefined, index, primaryKey)] followed by
    [insert(docs)] makes. *)
Definition build (k0 : indexData) (ks : list indexData)
  (primaryKey : option string) (docs : list doc) : Tree.tree :=
  fst (Tree.insertArray k0 ks docs (Tree.init k0 None primaryKey)).

(** [x] is not after [y]: the comparator gives -1 or 0. *)
Definition notAfter (keys : list indexData) (x y : doc) : Prop :=
  _compareFunc keys (JObject x) (JObject y) = (-1)%Z
  \/ _compareFunc keys (JObject x) (JObject y) = 0%Z.

(** The invariant of [insert]: every node holds a document, the documents of
    its left subtree made the comparator answer 0 or 1 against it and the
    documents of its right subtree -1. *)
Fixpoint searchTree (keys : list indexData) (t : Tree.tree) : Prop :=
  let 'Tree.Node cur _ _ l r _ := t in
  cur <> None
  /\ match l with
     | Some lchild =>
         searchTree keys lchild
         /\ Forall (fun e => _compareFunc keys (payload cur) (JObject e) = 0%Z
                            \/ _compareFunc keys (payload cur) (JObject e) = 1%Z)
              (elements lchild)
     | None => True
     end
  /\ match r with
     | Some rchild =>
         searchTree keys rchild
         /\ Forall (fun e => _compareFunc keys (payload cur) (JObject e) = (-1)%Z)
              (elements rchild)
     | None => True
     end.

(** Two documents have the same compound key: every key path resolves to
    the same value in both. *)
Definition sameKey (keys : list indexData) (x y : doc) : Prop :=
  Forall (fun k => Path.get (JObject x) (path k) = Path.get (JObject y) (path k))
    keys.

(** [a <= b] on resolved values: undefined lowest, then the natural
    ordering. *)
Definition valueLe (a b : jsval) : bool :=
  Z.leb (sortAscIgnoreUndefined a b) 0.

(** "a brute-force linear filter": the documents whose resolved field value
    [v] satisfies [from <= v <= to]. *)
Definition bruteForceRange (key : string) (from to : jsval) (docs : list doc)
  : list doc :=
  List.filter
    (fun d => valueLe from (Path.get (JObject d) key)
              && valueLe (Path.get (JObject d) key) to) docs.

(** The resolved value of the document at [path] is a string that starts
    with [val]. *)
Definition hasPrefix (path val : string) (d : doc) : bool :=
  match Path.get (JObject d) path with
  | JString s => String.prefix val s
  | _ => false
  end.

(** The child [insert] leaves in a branch: the old child after the
    recursive call when there is one, a new node that holds the document when
    there is none. *)
Definition below (k0 : indexData) (ks : list indexData) (d : doc)
  (child : option Tree.tree) : Tree.tree :=
  match child with
  | Some c => fst (Tree.insert k0 ks d c)
  | None => Tree.init k0 (Some d) Tree._binaryTree
  end.

(** What [lookup] collects in a branch. *)
Definition lookupChild (k0 : indexData) (ks : list indexData) (d : doc)
  (c : option Tree.tree) : list (option doc) :=
  match c with
  | Some x => Tree.lookup k0 ks d x []
  | None => []
  end.

(** The document has a string at [path]. *)
Definition stringAt (path : string) (d : doc) : bool :=
  match Path.get (JObject d) path with
  | JString _ => true
  | _ => false
  end.

(** What [startsWith] does in a branch. *)
Definition startsWithChild (path val : string) (c : option Tree.tree)
  (resultArr : list (option doc)) : result (list (option doc)) :=
  match c with
  | Some x => Tree.startsWith path val x resultArr
  | None => Ok resultArr
  end.

(** The store after [new BinaryTree(undefined, index, primaryKey)], whose
    node is the reference 0, and [insert(docs)] on it. *)
Definition storeBuild (k0 : indexData) (ks : list indexData)
  (primaryKey : option string) (docs : list doc) (fuel : nat)
  : Store.outcome (list doc * list doc) :=
  Store.insertArray k0 ks fuel (fst (Store.init k0 [] None primaryKey)) 0 docs.

(** The heap a call left, when it returned. *)
Definition heapOf {A} (o : Store.outcome A) : Store.heap :=
  match o with
  | Store.Returns h _ => h
  | Store.Throws h _ => h
  | Store.Stuck => []
  end.

(** Every node but the root (reference 0) has no primary key and holds a
    document. *)
Definition childrenKeyless (h : Store.heap) : Prop :=
  forall q n,
    h !! q = Some n -> q <> 0 ->
    Store._primaryKey n = None /\ Store._data n <> None.

(** [sep] occurs in [s]. *)
Fixpoint occurs (sep s : string) : bool :=
  String.prefix sep s
  || match s with
     | EmptyString => false
     | String _ s' => occurs sep s'
     end.

(** The number of nodes on the longest branch. *)
Fixpoint height (t : Tree.tree) : nat :=
  let 'Tree.Node _ _ _ l r _ := t in
  S (Nat.max match l with
             | Some lchild => height lchild
             | None => 0
             end
             match r with
             | Some rchild => height rchild
             | None => 0
             end).

(** The store holds the tree [t] at the reference [p]: the node at [p] has
    the fields of the root of [t] and its children hold the subtrees.  [fp]
    lists the references of the nodes of [t], in order. *)
Fixpoint repr (h : Store.heap) (p : Store.ref) (t : Tree.tree)
  (fp : list Store.ref) {struct t} : Prop :=
  let 'Tree.Node d hs st l r pk := t in
  exists n lf rf,
    h !! p = Some n
    /\ Store._data n = d
    /\ Store._hash n = hs
    /\ Store._store n = st
    /\ Store._primaryKey n = pk
    /\ fp = lf ++ p :: rf
    /\ match l, Store._left n with
       | Some lchild, Some lp => repr h lp lchild lf
       | None, None => lf = []
       | _, _ => False
       end
    /\ match r, Store._right n with
       | Some rchild, Some rp => repr h rp rchild rf
       | None, None => rf = []
       | _, _ => False
       end.

(** The comparator is transitive on the documents of a list. *)
Definition transitiveOn (keys : list indexData) (docs : list doc) : Prop :=
  forall x y z,
    In x docs -> In y docs -> In z docs ->
    notAfter keys x y -> notAfter keys y z -> notAfter keys x z.

(** Every node holds a document, the cached hash is the first key field of
    that document and the store is empty: what [new BinaryTree] and [insert]
    leave in a node. *)
Fixpoint asInserted (k0 : indexData) (t : Tree.tree) : Prop :=
  let 'Tree.Node cur h s l r _ := t in
  (exists d, cur = Some d /\ h = prop d (path k0))
  /\ s = []
  /\ match l with
     | Some lchild => asInserted k0 lchild
     | None => True
     end
  /\ match r with
     | Some rchild => asInserted k0 rchild
     | None => True
     end.

(** The entry is a document that has the prefix. *)
Definition prefixed (path val : string) (e : option doc) : Prop :=
  exists d, e = Some d /\ hasPrefix path val d = true.

(** Every node holds a document with a string at [path]. *)
Fixpoint allStrings (path : string) (t : Tree.tree) : bool :=
  let 'Tree.Node cur _ _ l r _ := t in
  match cur with
  | Some d => stringAt path d
  | None => false
  end
  && match l with
     | Some lchild => allStrings path lchild
     | None => true
     end
  && match r with
     | Some rchild => allStrings path rchild
     | None => true
     end.

(** [rightNode] hung on the right of the right-most node of [t]. *)
Fixpoint attach (rightNode : Tree.tree) (t : Tree.tree) : Tree.tree :=
  let 'Tree.Node d h s l r pk := t in
  Tree.Node d h s l
    (Some match r with
          | Some rchild => attach rightNode rchild
          | None => rightNode
          end) pk.

(** The tree a node holds after [_remove] was called on it, as a value: the
    node takes the document, the store and the children of its left child
    when it has one, of its right child otherwise, and keeps its own hash and
    primary key.  With two children the right subtree goes under the
    right-most node of the left child's right subtree; when the left child
    has no right subtree it goes under the left child itself, an object the
    node does not refer to any more. *)
Definition spliced (t : Tree.tree) : Tree.tree :=
  let 'Tree.Node d h s l r pk := t in
  match l with
  | Some (Tree.Node dl _ sl ll rl _) =>
      Tree.Node dl h sl ll
        match r, rl with
        | Some rightNode, Some rlchild => Some (attach rightNode rlchild)
        | Some _, None => None
        | None, _ => rl
        end pk
  | None =>
      match r with
      | Some (Tree.Node dr _ sr lr rr _) => Tree.Node dr h sr lr rr pk
      | None => Tree.Node None h [] None None pk
      end
  end.

(** No character of the string is a colon. *)
Fixpoint noColon (s : string) : bool :=
  match s with
  | EmptyString => true
  | String c s' => negb (Ascii.eqb c ":"%char) && noColon s'
  end.

(** What the encode step writes after the separator. *)
Definition encodedText (jStringify : jsval -> string) (val : jsval) : string :=
  match val with
  | JObject _ => jStringify val
  | _ => NodePersist.toString val
  end.

(** What a value is expected to come back as: an object as itself, any other
    value as the string it was written as. *)
Definition decoded (val : jsval) : jsval :=
  match val with
  | JObject _ => val
  | _ => JString (NodePersist.toString val)
  end.

(** Each encode step with the decode step that undoes it, in the order the
    encode steps run: the decode steps run in the opposite order. *)
Definition pairing {E D : Type} (steps : list E * list D) : list (E * D) :=
  combine (fst steps) (rev (snd steps)).

(** [x] is before [y]: the comparator gives -1. *)
Definition before (keys : list indexData) (x y : doc) : Prop :=
  _compareFunc keys (JObject x) (JObject y) = (-1)%Z.

(** The helper answers -1, 0 or 1. *)
Definition triState (sort : jsval -> jsval -> Z) : Prop :=
  forall a b, sort a b = (-1)%Z \/ sort a b = 0%Z \/ sort a b = 1%Z.

(** The order the helper gives two strings is not reversed by cutting both
    to the same length: when it does not answer -1 for two strings it does
    not answer -1 for their truncations, and the same for 1. *)
Definition keptByTruncation (sort : jsval -> jsval -> Z) : Prop :=
  forall (s t : string) (n : nat),
    (sort (JString s) (JString t) <> (-1)%Z ->
     sort (JString (substr0 s n)) (JString (substr0 t n)) <> (-1)%Z)
    /\ (sort (JString s) (JString t) <> 1%Z ->
        sort (JString (substr0 s n)) (JString (substr0 t n)) <> 1%Z).

(** The invariant of [insert] for any comparator: every node holds a
    document, the documents of its left subtree made the comparator answer 0
    or 1 against it and the documents of its right subtree -1. *)
Fixpoint orderedBy (compare : jsval -> jsval -> Z) (t : Tree.tree) : Prop :=
  let 'Tree.Node cur _ _ l r _ := t in
  cur <> None
  /\ match l with
     | Some lchild =>
         orderedBy compare lchild
         /\ Forall (fun e => compare (payload cur) (JObject e) = 0%Z
                            \/ compare (payload cur) (JObject e) = 1%Z)
              (elements lchild)
     | None => True
     end
  /\ match r with
     | Some rchild =>
         orderedBy compare rchild
         /\ Forall (fun e => compare (payload cur) (JObject e) = (-1)%Z)
              (elements rchild)
     | None => True
     end.

(** The tree that [new BinaryTree(undefined, index, primaryKey)] followed by
    [insert] of each document in turn makes, over any sorting helpers. *)
Definition buildWith (sortAsc sortDesc : jsval -> jsval -> Z)
  (k0 : indexData) (ks : list indexData) (primaryKey : option string)
  (docs : list doc) : Tree.tree :=
  fold_left (fun t d => fst (AnySorting.insert sortAsc sortDesc k0 ks d t))
    docs (Tree.init k0 None primaryKey).

(** * Properties *)

(** ** The comparator *)

Lemma compareLoop_firstNonZero (keys : list indexData) (a b : jsval) :
  compareLoop keys 0%Z a b = firstNonZero (map (fun k => fieldCompare k a b) keys).
Proof.
  induction keys as [|k keys IH]; simpl; [reflexivity|].
  unfold fieldCompare.
  destruct (Z.eqb_spec (compareKey k 0%Z a b) 0) as [E|E]; simpl.
  - rewrite E. exact IH.
  - reflexivity.
Qed.

(** C6: the compound comparator goes through the keys in the order of the
    specification and returns the first field comparison that is not zero, 0
    when there is none; on a field, two undefined values are equal, a defined
    value is greater than an undefined one for both directions, and two
    defined values follow the natural ordering, negated on a descending
    field. *)
Theorem compareFunc_lexicographic (keys : list indexData) (a b : jsval) :
  _compareFunc keys a b = firstNonZero (map (fun k => fieldCompare k a b) keys)
  /\ (forall p,
        fieldCompare (ascending p) a b
        = specFieldCompare false (Path.get a p) (Path.get b p))
  /\ (forall p,
        fieldCompare (descending p) a b
        = specFieldCompare true (Path.get a p) (Path.get b p)).
Proof.
  split; [apply compareLoop_firstNonZero|].
  split; intros p; unfold fieldCompare, compareKey; simpl;
    destruct (Path.get a p), (Path.get b p); reflexivity.
Qed.

(** The index specification [{a: 1, b: -1}] parses to the keys [a] ascending,
    [b] descending. *)
Lemma parse_scenario_index :
  Path.parse [("a", JNumber 1); ("b", JNumber (-1))]
  = [ascending "a"; descending "b"].
Proof. reflexivity. Qed.

(** ** The usability scorer *)

Lemma nth_error_skipn_hd {A} (l : list A) (n : nat) :
  nth_error l n = List.head (skipn n l).
Proof.
  revert l; induction n as [|n IH]; intros [|x l]; simpl; auto.
Qed.

Lemma skipn_S_tail {A} (l : list A) (n : nat) :
  skipn (S n) l = List.tail (skipn n l).
Proof.
  revert l; induction n as [|n IH]; intros [|x l]; simpl; auto.
Qed.

Lemma matchLoop_positional (queryArr indexKeyArr : list string) :
  forall (m n : nat) (acc : list string * nat),
    m = List.length (skipn n indexKeyArr) ->
    fold_left (Tree.matchStep queryArr indexKeyArr) (seq n m) acc
    = (fst acc ++ positionalMatches (skipn n queryArr) (skipn n indexKeyArr),
       snd acc
       + List.length (positionalMatches (skipn n queryArr) (skipn n indexKeyArr))).
Proof.
  induction m as [|m IH]; intros n [keys count] Hm; simpl.
  - destruct (skipn n indexKeyArr); [|discriminate].
    destruct (skipn n queryArr); simpl; rewrite app_nil_r, Nat.add_0_r; reflexivity.
  - rewrite IH.
    2:{ rewrite skipn_S_tail. destruct (skipn n indexKeyArr); simpl in *; lia. }
    unfold Tree.matchStep. rewrite !nth_error_skipn_hd, !skipn_S_tail.
    destruct (skipn n indexKeyArr) as [|k ix]; [discriminate|].
    destruct (skipn n queryArr) as [|q qs]; simpl.
    + rewrite app_nil_r, Nat.add_0_r. destruct ix; reflexivity.
    + destruct (String.eqb q k); simpl.
      * rewrite <- app_assoc. simpl. f_equal. lia.
      * reflexivity.
Qed.

(** C5, as the code has it: [match] counts every position below the length
    of the index where the key of the query is the key of the index, a
    position after a mismatch included; [matchedKeys] are those keys, [score]
    their number, [totalKeyCount] the length of the parsed query.  For the
    index [a, b, c] a query on [a, b] scores 2 with [matchedKeys = [a, b]]
    and a query on [b, c] scores 0. *)
Theorem match_counts_positions
  (_index query : doc) (pathOptions : option (string -> bool)) :
  let queryArr := parseArr query (ignorePolicy pathOptions) in
  let indexKeyArr := parseArr _index (fun _ => false) in
  let r := Tree.match_ _index query pathOptions in
  Tree.matchedKeys r = positionalMatches queryArr indexKeyArr
  /\ Tree.score r = List.length (positionalMatches queryArr indexKeyArr)
  /\ Tree.totalKeyCount r = List.length queryArr
  /\ Tree.match_ [("a", JNumber 1); ("b", JNumber 1); ("c", JNumber 1)]
       [("a", JNumber 5); ("b", JString "x")] None
     = Tree.mkMatchResult ["a"; "b"] 2 2
  /\ Tree.score
       (Tree.match_ [("a", JNumber 1); ("b", JNumber 1); ("c", JNumber 1)]
          [("b", JNumber 5); ("c", JString "x")] None) = 0.
Proof.
  intros queryArr indexKeyArr r.
  assert (E : r = Tree.mkMatchResult (positionalMatches queryArr indexKeyArr)
                    (List.length queryArr)
                    (List.length (positionalMatches queryArr indexKeyArr))).
  { subst r. unfold Tree.match_. fold (ignorePolicy pathOptions).
    fold queryArr. fold indexKeyArr.
    rewrite (matchLoop_positional queryArr indexKeyArr
               (List.length indexKeyArr) 0 ([], 0) eq_refl).
    reflexivity. }
  rewrite E. simpl. repeat split; reflexivity.
Qed.

(** C5 as stated fails: with the index [a, b, c] and a query on [a, x, c]
    the keys matched are [a] and [c], not the common prefix [a], and the
    score is 2. *)
Lemma match_counts_past_mismatch :
  let r := Tree.match_ [("a", JNumber 1); ("b", JNumber 1); ("c", JNumber 1)]
             [("a", JNumber 5); ("x", JNumber 6); ("c", JNumber 7)] None in
  Tree.matchedKeys r = ["a"; "c"]
  /\ Tree.score r = 2
  /\ Tree.matchedKeys r <> prefixMatches ["a"; "x"; "c"] ["a"; "b"; "c"]
  /\ Tree.score r <> List.length (prefixMatches ["a"; "x"; "c"] ["a"; "b"; "c"]).
Proof.
  vm_compute. repeat split; discriminate.
Qed.

(** ** Trees *)

Lemma tree_induction (P : Tree.tree -> Prop) :
  (forall cur h s l r pk,
      (forall lchild, l = Some lchild -> P lchild) ->
      (forall rchild, r = Some rchild -> P rchild) ->
      P (Tree.Node cur h s l r pk)) ->
  forall t, P t.
Proof.
  intros step. fix IH 1. intros [cur h s l r pk]. apply step.
  - intros lchild E. destruct l as [x|]; [|discriminate].
    injection E as <-. apply IH.
  - intros rchild E. destruct r as [y|]; [|discriminate].
    injection E as <-. apply IH.
Qed.

Lemma inOrder_nodes (type : Tree.mode) (t : Tree.tree) :
  forall resultArr,
    Tree.inOrder type t resultArr = resultArr ++ map (Tree.pushed type) (nodes t).
Proof.
  induction t as [cur h s l r pk IHl IHr] using tree_induction.
  intros resultArr. simpl.
  rewrite map_app. simpl.
  destruct l as [x|], r as [y|]; simpl;
    rewrite ?(IHl _ eq_refl), ?(IHr _ eq_refl), <- ?app_assoc; simpl;
    rewrite ?app_nil_r; reflexivity.
Qed.

Lemma findRange_nodes (type : Tree.mode) (key : string) (from to : jsval)
  (t : Tree.tree) :
  forall resultArr,
    Tree.findRange type key from to t resultArr
    = resultArr
      ++ map (Tree.pushed type) (List.filter (Tree.withinRange key from to) (nodes t)).
Proof.
  induction t as [cur h s l r pk IHl IHr] using tree_induction.
  intros resultArr. simpl.
  rewrite List.filter_app, map_app. simpl.
  destruct (Tree.withinRange key from to (Tree.Node cur h s l r pk));
    destruct l as [x|], r as [y|]; simpl;
    rewrite ?(IHl _ eq_refl), ?(IHr _ eq_refl), <- ?app_assoc; simpl;
    rewrite ?app_nil_r; reflexivity.
Qed.

(** ** The comparator as an ordering *)

Lemma of_comparison_opp (c : comparison) :
  of_comparison (CompOpp c) = (- of_comparison c)%Z.
Proof. destruct c; reflexivity. Qed.

Lemma natural_antisym (a b : jsval) : natural a b = (- natural b a)%Z.
Proof.
  destruct a, b; simpl; try reflexivity.
  - rewrite Z.compare_antisym. apply of_comparison_opp.
  - rewrite String.compare_antisym. apply of_comparison_opp.
Qed.

Lemma natural_range (a b : jsval) :
  natural a b = (-1)%Z \/ natural a b = 0%Z \/ natural a b = 1%Z.
Proof.
  destruct a, b; simpl; auto;
    match goal with |- context [of_comparison ?c] => destruct c end; simpl; auto.
Qed.

Lemma sortAsc_antisym (a b : jsval) :
  sortAscIgnoreUndefined a b = (- sortAscIgnoreUndefined b a)%Z.
Proof.
  destruct a, b; try reflexivity; apply natural_antisym.
Qed.

Lemma sortDesc_antisym (a b : jsval) :
  sortDescIgnoreUndefined a b = (- sortDescIgnoreUndefined b a)%Z.
Proof.
  destruct a, b; try reflexivity; unfold sortDescIgnoreUndefined;
    match goal with |- (- natural ?x ?y)%Z = _ =>
      rewrite (natural_antisym x y) end; reflexivity.
Qed.

Lemma sortAsc_range (a b : jsval) :
  sortAscIgnoreUndefined a b = (-1)%Z \/ sortAscIgnoreUndefined a b = 0%Z
  \/ sortAscIgnoreUndefined a b = 1%Z.
Proof.
  destruct a, b; try (simpl; auto; fail); apply natural_range.
Qed.

Lemma sortDesc_range (a b : jsval) :
  sortDescIgnoreUndefined a b = (-1)%Z \/ sortDescIgnoreUndefined a b = 0%Z
  \/ sortDescIgnoreUndefined a b = 1%Z.
Proof.
  destruct a, b; try (simpl; auto; fail); unfold sortDescIgnoreUndefined;
    match goal with |- context [natural ?x ?y] =>
      destruct (natural_range x y) as [E|[E|E]]; rewrite E end; simpl; auto.
Qed.

Lemma fieldCompare_antisym (k : indexData) (a b : jsval) :
  fieldCompare k a b = (- fieldCompare k b a)%Z.
Proof.
  unfold fieldCompare, compareKey.
  destruct (strict_eq (value k) (JNumber 1)); [apply sortAsc_antisym|].
  destruct (strict_eq (value k) (JNumber (-1))); [apply sortDesc_antisym|].
  reflexivity.
Qed.

Lemma fieldCompare_range (k : indexData) (a b : jsval) :
  fieldCompare k a b = (-1)%Z \/ fieldCompare k a b = 0%Z
  \/ fieldCompare k a b = 1%Z.
Proof.
  unfold fieldCompare, compareKey.
  destruct (strict_eq (value k) (JNumber 1)); [apply sortAsc_range|].
  destruct (strict_eq (value k) (JNumber (-1))); [apply sortDesc_range|].
  auto.
Qed.

Lemma compareFunc_antisym (keys : list indexData) (a b : jsval) :
  _compareFunc keys a b = (- _compareFunc keys b a)%Z.
Proof.
  unfold _compareFunc. rewrite !compareLoop_firstNonZero.
  induction keys as [|k keys IH]; simpl; [reflexivity|].
  rewrite (fieldCompare_antisym k a b).
  destruct (Z.eqb_spec (fieldCompare k b a) 0) as [E|E].
  - rewrite E. simpl. exact IH.
  - destruct (Z.eqb_spec (- fieldCompare k b a) 0); [lia|reflexivity].
Qed.

Lemma compareFunc_range (keys : list indexData) (a b : jsval) :
  _compareFunc keys a b = (-1)%Z \/ _compareFunc keys a b = 0%Z
  \/ _compareFunc keys a b = 1%Z.
Proof.
  unfold _compareFunc. rewrite compareLoop_firstNonZero.
  induction keys as [|k keys IH]; simpl; auto.
  destruct (Z.eqb_spec (fieldCompare k a b) 0); [exact IH|].
  apply fieldCompare_range.
Qed.

Lemma compareFunc_refl (keys : list indexData) (a : jsval) :
  _compareFunc keys a a = 0%Z.
Proof.
  pose proof (compareFunc_antisym keys a a). lia.
Qed.

Lemma compareFunc_sameKey (keys : list indexData) (a : jsval) (x y : doc) :
  sameKey keys x y ->
  _compareFunc keys a (JObject x) = _compareFunc keys a (JObject y).
Proof.
  unfold _compareFunc, sameKey. rewrite !compareLoop_firstNonZero.
  induction 1 as [|k keys E _ IH]; simpl; [reflexivity|].
  assert (F : fieldCompare k a (JObject x) = fieldCompare k a (JObject y))
    by (unfold fieldCompare, compareKey; rewrite E; reflexivity).
  rewrite F, IH. reflexivity.
Qed.

Lemma sameKey_compare_zero (keys : list indexData) (x y : doc) :
  sameKey keys x y -> _compareFunc keys (JObject x) (JObject y) = 0%Z.
Proof.
  intros H. rewrite <- (compareFunc_sameKey keys (JObject x) x y H).
  apply compareFunc_refl.
Qed.

(** ** insert *)

Section Insert.

Variable k0 : indexData.
Variable ks : list indexData.

Let keys := k0 :: ks.

Lemma insert_node (d cur : doc) h s l r pk :
  Tree.insert k0 ks d (Tree.Node (Some cur) h s l r pk)
  = if Z.eqb (_compareFunc keys (JObject cur) (JObject d)) (-1)
    then (Tree.Node (Some cur) h s l (Some (below k0 ks d r)) pk, true)
    else (Tree.Node (Some cur) h s (Some (below k0 ks d l)) r pk, true).
Proof.
  simpl. unfold Tree.compareData, Tree._keys, below. simpl. fold keys.
  destruct (compareFunc_range keys (JObject cur) (JObject d)) as [E|[E|E]];
    rewrite E; reflexivity.
Qed.

Lemma insert_empty (d : doc) h s l r pk :
  Tree.insert k0 ks d (Tree.Node None h s l r pk)
  = (Tree.Node (Some d) (Tree._hashFunc k0 d) s l r pk, true).
Proof. reflexivity. Qed.

Lemma insert_true (d : doc) (t : Tree.tree) : snd (Tree.insert k0 ks d t) = true.
Proof.
  destruct t as [[cur|] h s l r pk]; [|reflexivity].
  rewrite insert_node. destruct (Z.eqb _ _); reflexivity.
Qed.

Lemma elements_below (d : doc) (c : option Tree.tree) :
  (forall x, c = Some x ->
     Permutation (elements (fst (Tree.insert k0 ks d x))) (d :: elements x)) ->
  Permutation (elements (below k0 ks d c))
    (d :: match c with Some x => elements x | None => [] end).
Proof.
  intros IH. destruct c as [x|]; simpl; [apply IH; reflexivity|].
  apply Permutation_refl.
Qed.

Lemma elements_insert (d : doc) (t : Tree.tree) :
  populated t ->
  Permutation (elements (fst (Tree.insert k0 ks d t))) (d :: elements t).
Proof.
  induction t as [cur h s l r pk IHl IHr] using tree_induction.
  intros (Hcur & Hl & Hr). destruct cur as [cur|]; [|congruence].
  rewrite insert_node.
  destruct (Z.eqb _ _); cbn [fst elements].
  - rewrite elements_below.
    2:{ intros y ->. apply IHr; auto. }
    rewrite !app_assoc. symmetry. apply Permutation_middle.
  - rewrite elements_below.
    2:{ intros x ->. apply IHl; auto. }
    reflexivity.
Qed.

Lemma populated_insert (d : doc) (t : Tree.tree) :
  populated t -> populated (fst (Tree.insert k0 ks d t)).
Proof.
  induction t as [cur h s l r pk IHl IHr] using tree_induction.
  intros (Hcur & Hl & Hr). destruct cur as [cur|]; [|congruence].
  rewrite insert_node.
  destruct (Z.eqb _ _); cbn [fst populated]; repeat split; auto.
  - destruct r as [y|]; simpl; [apply IHr; auto|]. repeat split; congruence.
  - destruct l as [x|]; simpl; [apply IHl; auto|]. repeat split; congruence.
Qed.

Lemma searchTree_populated (t : Tree.tree) : searchTree keys t -> populated t.
Proof.
  induction t as [cur h s l r pk IHl IHr] using tree_induction.
  intros (Hcur & Hl & Hr). repeat split; auto.
  - destruct l as [x|]; [apply IHl; tauto|exact I].
  - destruct r as [y|]; [apply IHr; tauto|exact I].
Qed.

Lemma searchTree_insert (d : doc) (t : Tree.tree) :
  searchTree keys t -> searchTree keys (fst (Tree.insert k0 ks d t)).
Proof.
  induction t as [cur h s l r pk IHl IHr] using tree_induction.
  intros (Hcur & Hl & Hr). destruct cur as [cur|]; [|congruence].
  rewrite insert_node.
  destruct (Z.eqb_spec (_compareFunc keys (JObject cur) (JObject d)) (-1))
    as [E|E]; cbn [fst searchTree]; repeat split; auto.
  - destruct r as [y|]; simpl; [apply IHr; tauto|]. repeat split; congruence.
  - eapply Permutation_Forall.
    { symmetry. apply elements_below. intros y ->.
      apply elements_insert, searchTree_populated. tauto. }
    constructor; [exact E|]. destruct r; [tauto|constructor].
  - destruct l as [x|]; simpl; [apply IHl; tauto|]. repeat split; congruence.
  - eapply Permutation_Forall.
    { symmetry. apply elements_below. intros x ->.
      apply elements_insert, searchTree_populated. tauto. }
    constructor.
    + simpl. destruct (compareFunc_range keys (JObject cur) (JObject d))
        as [F|[F|F]]; auto; contradiction.
    + destruct l; [tauto|constructor].
Qed.

End Insert.

(** ** Trees made by insert *)

Section Build.

Variable k0 : indexData.
Variable ks : list indexData.

Let keys := k0 :: ks.

Lemma insertArrayLoop_fold (ds : list doc) :
  forall (t : Tree.tree) (acc : Tree.insertResult),
    Tree.insertArrayLoop k0 ks ds t acc
    = (fold_left (fun t d => fst (Tree.insert k0 ks d t)) ds t,
       Tree.mkInsertResult (Tree.inserted acc ++ ds) (Tree.failed acc)).
Proof.
  induction ds as [|d ds IH]; intros t [ins fl]; simpl.
  - rewrite app_nil_r. reflexivity.
  - pose proof (insert_true k0 ks d t) as E.
    destruct (Tree.insert k0 ks d t) as [t' ok]. simpl in E. subst ok.
    rewrite IH. simpl. rewrite <- app_assoc. reflexivity.
Qed.

Lemma fold_insert_searchTree (ds : list doc) :
  forall t,
    searchTree keys t ->
    let t' := fold_left (fun t d => fst (Tree.insert k0 ks d t)) ds t in
    searchTree keys t' /\ Permutation (elements t') (elements t ++ ds).
Proof.
  induction ds as [|d ds IH]; intros t Ht; simpl.
  - rewrite app_nil_r. split; [exact Ht|reflexivity].
  - destruct (IH _ (searchTree_insert k0 ks d t Ht)) as [H1 H2].
    split; [exact H1|].
    rewrite H2, (elements_insert k0 ks d t (searchTree_populated k0 ks t Ht)).
    apply Permutation_middle.
Qed.

Lemma build_searchTree (pk : option string) (d : doc) (ds : list doc) :
  searchTree keys (build k0 ks pk (d :: ds))
  /\ Permutation (elements (build k0 ks pk (d :: ds))) (d :: ds).
Proof.
  unfold build, Tree.insertArray. rewrite insertArrayLoop_fold. simpl.
  apply (fold_insert_searchTree ds
           (Tree.Node (Some d) (Tree._hashFunc k0 d) [] None None pk)).
  simpl. repeat split; congruence.
Qed.

End Build.

Lemma nodes_data (t : Tree.tree) :
  populated t -> map Tree._data (nodes t) = map Some (elements t).
Proof.
  induction t as [cur h s l r pk IHl IHr] using tree_induction.
  intros (Hcur & Hl & Hr). destruct cur as [cur|]; [|congruence].
  simpl. rewrite !map_app. simpl.
  destruct l as [x|], r as [y|]; simpl;
    rewrite ?(IHl _ eq_refl Hl), ?(IHr _ eq_refl Hr); reflexivity.
Qed.

Lemma inOrder_data_elements (t : Tree.tree) :
  populated t ->
  Tree.inOrder Tree.data t [] = map (fun d => Tree.EData (Some d)) (elements t).
Proof.
  intros H. rewrite inOrder_nodes. simpl.
  change (map (Tree.pushed Tree.data) (nodes t))
    with (map (fun n => Tree.EData (Tree._data n)) (nodes t)).
  rewrite <- (map_map Tree._data Tree.EData), (nodes_data t H), map_map.
  reflexivity.
Qed.

(** ** Sortedness *)

Lemma Sorted_middle {A} (R : A -> A -> Prop) (l1 l2 : list A) (x : A) :
  Sorted R l1 -> Sorted R l2 ->
  Forall (fun y => R y x) l1 -> Forall (R x) l2 ->
  Sorted R (l1 ++ x :: l2).
Proof.
  intros S1 S2 F1 F2. induction l1 as [|a l1 IH]; simpl.
  - constructor; [exact S2|]. destruct l2; constructor.
    inversion F2; assumption.
  - inversion S1; subst. inversion F1; subst.
    constructor; [apply IH; assumption|].
    destruct l1 as [|b l1]; simpl; constructor; [assumption|].
    match goal with H : HdRel _ _ (_ :: _) |- _ => inversion H; assumption end.
Qed.

Lemma searchTree_sorted (keys : list indexData) (t : Tree.tree) :
  searchTree keys t -> Sorted (notAfter keys) (elements t).
Proof.
  induction t as [cur h s l r pk IHl IHr] using tree_induction.
  intros (Hcur & Hl & Hr). destruct cur as [cur|]; [|congruence].
  simpl. apply Sorted_middle.
  - destruct l as [x|]; [apply IHl; tauto|constructor].
  - destruct r as [y|]; [apply IHr; tauto|constructor].
  - destruct l as [x|]; [|constructor]. destruct Hl as [_ F].
    eapply List.Forall_impl; [|exact F]. intros e He. unfold notAfter.
    rewrite (compareFunc_antisym keys (JObject e) (JObject cur)).
    simpl in He. destruct He as [E|E]; rewrite E; auto.
  - destruct r as [y|]; [|constructor]. destruct Hr as [_ F].
    eapply List.Forall_impl; [|exact F]. intros e He. left. exact He.
Qed.

Lemma StronglySorted_middle {A} (R : A -> A -> Prop) (l1 l2 : list A) (x : A) :
  StronglySorted R l1 -> StronglySorted R l2 ->
  Forall (fun y => R y x) l1 -> Forall (R x) l2 ->
  (forall a b, In a l1 -> In b l2 -> R a b) ->
  StronglySorted R (l1 ++ x :: l2).
Proof.
  intros S1 S2 F1 F2 C. induction l1 as [|a l1 IH]; simpl.
  - constructor; assumption.
  - inversion S1; subst. inversion F1; subst. constructor.
    + apply IH; auto. intros a' b Ha Hb. apply C; [right|]; assumption.
    + apply Forall_app. split; [assumption|]. constructor; [assumption|].
      apply List.Forall_forall. intros b Hb. apply C; [left; reflexivity|exact Hb].
Qed.

Lemma searchTree_strongly_sorted (keys : list indexData) (t : Tree.tree) :
  transitiveOn keys (elements t) ->
  searchTree keys t ->
  StronglySorted (notAfter keys) (elements t).
Proof.
  induction t as [cur h s l r pk IHl IHr] using tree_induction.
  intros T (Hcur & Hl & Hr). destruct cur as [cur|]; [|congruence].
  cbn [elements] in T |- *.
  assert (Fl : Forall (fun e => notAfter keys e cur)
                 match l with Some x => elements x | None => [] end).
  { destruct l as [x|]; [|constructor]. destruct Hl as [_ F].
    eapply List.Forall_impl; [|exact F]. intros e He. unfold notAfter.
    rewrite (compareFunc_antisym keys (JObject e) (JObject cur)).
    simpl in He. destruct He as [E|E]; rewrite E; auto. }
  assert (Fr : Forall (notAfter keys cur)
                 match r with Some y => elements y | None => [] end).
  { destruct r as [y|]; [|constructor]. destruct Hr as [_ F].
    eapply List.Forall_impl; [|exact F]. intros e He. left. exact He. }
  apply StronglySorted_middle; auto.
  - destruct l as [x|]; [|constructor]. apply IHl; [reflexivity| |tauto].
    intros a b c Ha Hb Hc. apply T; apply in_or_app; left; assumption.
  - destruct r as [y|]; [|constructor]. apply IHr; [reflexivity| |tauto].
    intros a b c Ha Hb Hc. apply T; apply in_or_app; right; right; assumption.
  - intros a b Ha Hb. apply (T a cur b).
    + apply in_or_app. left. exact Ha.
    + apply in_or_app. right. left. reflexivity.
    + apply in_or_app. right. right. exact Hb.
    + exact (proj1 (List.Forall_forall _ _) Fl a Ha).
    + exact (proj1 (List.Forall_forall _ _) Fr b Hb).
Qed.

(** C2: after any sequence of documents is inserted into an empty tree,
    [inOrder('data')] returns those documents in non-decreasing order: the
    comparator answers -1 or 0 from each document to the next one, and, when
    it is transitive on the inserted documents, from each document to every
    later one.  With the index [{a: 1, b: -1}] the documents [{a:1,b:2}],
    [{a:1,b:1}], [{a:2,b:5}] come back in that order. *)
Theorem inOrder_sorted
  (k0 : indexData) (ks : list indexData) (pk : option string)
  (d : doc) (ds : list doc) :
  (exists sorted,
      Tree.inOrder Tree.data (build k0 ks pk (d :: ds)) []
      = map (fun x => Tree.EData (Some x)) sorted
      /\ Permutation sorted (d :: ds)
      /\ Sorted (notAfter (k0 :: ks)) sorted
      /\ (transitiveOn (k0 :: ks) (d :: ds) ->
          StronglySorted (notAfter (k0 :: ks)) sorted))
  /\ Tree.inOrder Tree.data
       (build (ascending "a") [descending "b"] pk
          [[("a", JNumber 1); ("b", JNumber 2)];
           [("a", JNumber 1); ("b", JNumber 1)];
           [("a", JNumber 2); ("b", JNumber 5)]]) []
     = [Tree.EData (Some [("a", JNumber 1); ("b", JNumber 2)]);
        Tree.EData (Some [("a", JNumber 1); ("b", JNumber 1)]);
        Tree.EData (Some [("a", JNumber 2); ("b", JNumber 5)])].
Proof.
  split; [|reflexivity].
  destruct (build_searchTree k0 ks pk d ds) as [H1 H2].
  exists (elements (build k0 ks pk (d :: ds))). repeat split.
  - apply inOrder_data_elements, (searchTree_populated k0 ks), H1.
  - exact H2.
  - apply searchTree_sorted, H1.
  - intros T. apply searchTree_strongly_sorted; [|exact H1].
    intros x y z Hx Hy Hz. apply T; eapply Permutation_in; eassumption.
Qed.

(** The documents of the scenario under the index [{a: 1, b: -1}], inserted
    in another order: the comparator is transitive on them. *)
Lemma inOrder_sorted_witness :
  let keys := [ascending "a"; descending "b"] in
  let d1 := [("a", JNumber 1); ("b", JNumber 2)] in
  let d2 := [("a", JNumber 1); ("b", JNumber 1)] in
  let d3 := [("a", JNumber 2); ("b", JNumber 5)] in
  exists sorted,
    Tree.inOrder Tree.data (build (ascending "a") [descending "b"] None [d3; d1; d2]) []
    = map (fun x => Tree.EData (Some x)) sorted
    /\ Permutation sorted [d3; d1; d2]
    /\ StronglySorted (notAfter keys) sorted.
Proof.
  intros keys d1 d2 d3.
  destruct (proj1 (inOrder_sorted (ascending "a") [descending "b"] None d3 [d1; d2]))
    as (sorted & E & P & _ & S).
  exists sorted. split; [exact E|]. split; [exact P|]. apply S.
  intros x y z Hx Hy Hz.
  destruct Hx as [<-|[<-|[<-|[]]]]; destruct Hy as [<-|[<-|[<-|[]]]];
    destruct Hz as [<-|[<-|[<-|[]]]]; unfold notAfter; vm_compute;
    intuition discriminate.
Defined.

(** Without transitivity the order holds between neighbours only: a number
    and a string are neither greater nor less, so with the index
    [{f: 1, g: 1}] the documents [{f:1,g:1}], [{f:"s",g:2}], [{f:0,g:3}] come
    back as third, first, second, each not after the next, while the
    comparator puts the third one after the second. *)
Lemma inOrder_neighbours_only_on_mixed_types :
  let keys := [ascending "f"; ascending "g"] in
  let a := [("f", JNumber 1); ("g", JNumber 1)] in
  let b := [("f", JString "s"); ("g", JNumber 2)] in
  let c := [("f", JNumber 0); ("g", JNumber 3)] in
  Tree.inOrder Tree.data (build (ascending "f") [ascending "g"] None [a; b; c]) []
  = [Tree.EData (Some c); Tree.EData (Some a); Tree.EData (Some b)]
  /\ _compareFunc keys (JObject c) (JObject a) = (-1)%Z
  /\ _compareFunc keys (JObject a) (JObject b) = (-1)%Z
  /\ _compareFunc keys (JObject c) (JObject b) = 1%Z.
Proof.
  repeat split; reflexivity.
Qed.

(** ** findRange *)

Lemma withinRange_valueLe (key : string) (from to : jsval) (d : doc) h s l r pk :
  Tree.withinRange key from to (Tree.Node (Some d) h s l r pk)
  = valueLe from (Path.get (JObject d) key)
    && valueLe (Path.get (JObject d) key) to.
Proof.
  unfold Tree.withinRange, Tree.pathVal, valueLe. simpl.
  rewrite (sortAsc_antisym from (Path.get (JObject d) key)).
  destruct (sortAsc_range (Path.get (JObject d) key) from) as [E|[E|E]];
    destruct (sortAsc_range (Path.get (JObject d) key) to) as [F|[F|F]];
    rewrite E, F; reflexivity.
Qed.

Lemma filter_nodes_elements (key : string) (from to : jsval) (t : Tree.tree) :
  populated t ->
  map Tree._data (List.filter (Tree.withinRange key from to) (nodes t))
  = map Some (bruteForceRange key from to (elements t)).
Proof.
  unfold bruteForceRange.
  induction t as [cur h s l r pk IHl IHr] using tree_induction.
  intros (Hcur & Hl & Hr). destruct cur as [cur|]; [|congruence].
  cbn [nodes elements]. rewrite !List.filter_app, !map_app.
  f_equal; [destruct l as [x|]; [apply IHl; auto|reflexivity]|].
  cbn [List.filter]. rewrite withinRange_valueLe.
  destruct (valueLe from _ && valueLe _ to); cbn [map app]; f_equal;
    (destruct r as [y|]; [apply IHr; auto|reflexivity]).
Qed.

Lemma Permutation_filter_bool {A} (f : A -> bool) (l l' : list A) :
  Permutation l l' -> Permutation (List.filter f l) (List.filter f l').
Proof.
  induction 1 as [|x l l' _ IH|x y l|l l' l'' _ IH1 _ IH2]; simpl.
  - constructor.
  - destruct (f x); [constructor|]; exact IH.
  - destruct (f x), (f y); try reflexivity. constructor.
  - etransitivity; eassumption.
Qed.

Lemma findRange_data_populated (key : string) (from to : jsval) (t : Tree.tree) :
  populated t ->
  Tree.findRange Tree.data key from to t []
  = map (fun d => Tree.EData (Some d)) (bruteForceRange key from to (elements t)).
Proof.
  intros Ht. rewrite findRange_nodes. simpl.
  change (Tree.pushed Tree.data) with (fun n => Tree.EData (Tree._data n)).
  rewrite <- (map_map Tree._data Tree.EData),
    (filter_nodes_elements key from to t Ht), map_map.
  reflexivity.
Qed.

(** C9: [findRange] goes through every node, left subtree, node, right
    subtree, whatever the shape of the tree, and keeps the nodes that pass the
    test on the resolved value; on a tree made by inserting documents it
    returns, for the type ['data'], exactly the documents a linear filter of
    the inserted documents by [from <= v <= to] returns. *)
Theorem findRange_is_linear_filter (key : string) (from to : jsval) :
  (forall (type : Tree.mode) (t : Tree.tree),
      Tree.findRange type key from to t []
      = map (Tree.pushed type)
          (List.filter (Tree.withinRange key from to) (nodes t)))
  /\ (forall k0 ks pk (d : doc) (ds : list doc),
        exists found,
          Tree.findRange Tree.data key from to (build k0 ks pk (d :: ds)) []
          = map (fun x => Tree.EData (Some x)) found
          /\ Permutation found (bruteForceRange key from to (d :: ds))).
Proof.
  split; [intros type t; apply findRange_nodes|].
  intros k0 ks pk d ds.
  destruct (build_searchTree k0 ks pk d ds) as [H1 H2].
  exists (bruteForceRange key from to (elements (build k0 ks pk (d :: ds)))).
  split.
  - apply findRange_data_populated, (searchTree_populated k0 ks), H1.
  - apply Permutation_filter_bool, H2.
Qed.

(** ** lookup *)

Section Lookup.

Variable k0 : indexData.
Variable ks : list indexData.

Let keys := k0 :: ks.

Lemma lookup_acc (d : doc) (t : Tree.tree) :
  forall resultArr,
    Tree.lookup k0 ks d t resultArr = resultArr ++ Tree.lookup k0 ks d t [].
Proof.
  induction t as [cur h s l r pk IHl IHr] using tree_induction.
  intros resultArr. simpl. unfold Tree.compareData, Tree._keys.
  destruct (compareFunc_range (k0 :: ks) (payload cur) (JObject d))
    as [E|[E|E]]; rewrite E; simpl; destruct l as [x|], r as [y|]; simpl;
    rewrite ?app_nil_r; try reflexivity;
    repeat first
      [ rewrite (IHl _ eq_refl (_ ++ _))
      | rewrite (IHr _ eq_refl (_ ++ _))
      | rewrite (IHr _ eq_refl (_ :: _))
      | rewrite (IHl _ eq_refl resultArr)
      | rewrite (IHr _ eq_refl resultArr) ];
    rewrite <- ?app_assoc; reflexivity.
Qed.

Lemma lookup_node (d : doc) cur h s l r pk :
  Tree.lookup k0 ks d (Tree.Node cur h s l r pk) []
  = match _compareFunc keys (payload cur) (JObject d) with
    | 0%Z => lookupChild k0 ks d l ++ cur :: lookupChild k0 ks d r
    | (-1)%Z => lookupChild k0 ks d r
    | 1%Z => lookupChild k0 ks d l
    | _ => []
    end.
Proof.
  simpl. unfold Tree.compareData, Tree._keys. fold keys.
  destruct (compareFunc_range keys (payload cur) (JObject d)) as [E|[E|E]];
    rewrite E; simpl; destruct l as [x|], r as [y|]; simpl;
    try reflexivity;
    first [ rewrite (lookup_acc d y (_ ++ _)), <- app_assoc
          | rewrite (lookup_acc d y (_ :: _)) ]; reflexivity.
Qed.

End Lookup.

Section Duplicates.

Variable k0 : indexData.
Variable ks : list indexData.

Let keys := k0 :: ks.

Lemma sameKey_sym (x y : doc) : sameKey keys x y -> sameKey keys y x.
Proof.
  unfold sameKey. intros H. eapply List.Forall_impl; [|exact H].
  intros k E. symmetry. exact E.
Qed.

Lemma sameKey_refl (x : doc) : sameKey keys x x.
Proof. unfold sameKey. apply Forall_forall. reflexivity. Qed.

Lemma lookup_below (d y : doc) (c : option Tree.tree) :
  sameKey keys d y ->
  (forall x, c = Some x ->
     Permutation (Tree.lookup k0 ks d (fst (Tree.insert k0 ks y x)) [])
       (Some y :: Tree.lookup k0 ks d x [])) ->
  Permutation (lookupChild k0 ks d (Some (below k0 ks y c)))
    (Some y :: lookupChild k0 ks d c).
Proof.
  intros Hk IH. destruct c as [x|]; [apply IH; reflexivity|].
  unfold lookupChild, below, Tree.init, Tree._binaryTree, Tree.setData.
  rewrite lookup_node. fold keys. cbn [payload].
  rewrite (sameKey_compare_zero keys y d (sameKey_sym d y Hk)).
  reflexivity.
Qed.

Lemma lookup_insert_sameKey (d y : doc) (t : Tree.tree) :
  populated t -> sameKey keys d y ->
  Permutation (Tree.lookup k0 ks d (fst (Tree.insert k0 ks y t)) [])
    (Some y :: Tree.lookup k0 ks d t []).
Proof.
  intros Ht Hk. induction t as [cur h s l r pk IHl IHr] using tree_induction.
  destruct Ht as (Hcur & Hl & Hr). destruct cur as [cur|]; [|congruence].
  rewrite insert_node. fold keys.
  pose proof (compareFunc_sameKey keys (JObject cur) d y Hk) as E.
  destruct (compareFunc_range keys (JObject cur) (JObject y)) as [F|[F|F]];
    rewrite F in *; cbn [Z.eqb Pos.eqb fst]; rewrite !lookup_node; fold keys;
    cbn [payload]; rewrite E.
  - apply lookup_below; [exact Hk|]. intros x ->. apply IHr; auto.
  - apply (Permutation_app_tail (l' := Some y :: lookupChild k0 ks d l)),
      lookup_below; [exact Hk|].
    intros x ->. apply IHl; auto.
  - apply lookup_below; [exact Hk|]. intros x ->. apply IHl; auto.
Qed.

End Duplicates.

(** C3: on a node that holds a document the comparator answers -1, 0 or 1;
    0 and 1 send the new document to the left branch and -1 to the right
    branch, into the child when there is one and into a new node otherwise.
    So two documents with the same compound key inserted one after the other
    are both kept: [lookup] on that key returns the two of them on top of what
    it returned before, and in a tree that was empty it returns exactly the
    two, the second one first. *)
Theorem insert_routes_and_chains (k0 : indexData) (ks : list indexData) :
  (forall (cur d : doc) h s l r pk,
      let result := _compareFunc (k0 :: ks) (JObject cur) (JObject d) in
      (result = (-1)%Z \/ result = 0%Z \/ result = 1%Z)
      /\ Tree.insert k0 ks d (Tree.Node (Some cur) h s l r pk)
         = match result with
           | 0%Z => (Tree.Node (Some cur) h s (Some (below k0 ks d l)) r pk, true)
           | 1%Z => (Tree.Node (Some cur) h s (Some (below k0 ks d l)) r pk, true)
           | (-1)%Z => (Tree.Node (Some cur) h s l (Some (below k0 ks d r)) pk, true)
           | _ => (Tree.Node (Some cur) h s l r pk, false)
           end)
  /\ (forall (t : Tree.tree) (d1 d2 : doc),
        populated t ->
        sameKey (k0 :: ks) d1 d2 ->
        Permutation
          (Tree.lookup k0 ks d1
             (fst (Tree.insert k0 ks d2 (fst (Tree.insert k0 ks d1 t)))) [])
          (Some d1 :: Some d2 :: Tree.lookup k0 ks d1 t []))
  /\ (forall pk (d1 d2 : doc),
        sameKey (k0 :: ks) d1 d2 ->
        Tree.lookup k0 ks d1 (build k0 ks pk [d1; d2]) [] = [Some d2; Some d1]).
Proof.
  split; [|split].
  - intros cur d h s l r pk result. split; [apply compareFunc_range|].
    rewrite insert_node. subst result.
    destruct (compareFunc_range (k0 :: ks) (JObject cur) (JObject d))
      as [E|[E|E]]; rewrite E; reflexivity.
  - intros t d1 d2 Ht Hk.
    rewrite (lookup_insert_sameKey k0 ks d1 d2 _
               (populated_insert k0 ks d1 t Ht) Hk).
    rewrite (lookup_insert_sameKey k0 ks d1 d1 t Ht (sameKey_refl k0 ks d1)).
    apply perm_swap.
  - intros pk d1 d2 Hk. unfold build, Tree.insertArray.
    rewrite insertArrayLoop_fold. cbn [fst fold_left Tree.init].
    rewrite insert_empty. cbn [fst]. rewrite insert_node.
    rewrite (sameKey_compare_zero (k0 :: ks) d1 d2 Hk). cbn [Z.eqb fst].
    rewrite lookup_node. cbn [payload].
    rewrite (compareFunc_refl (k0 :: ks) (JObject d1)).
    unfold lookupChild, below, Tree.init, Tree._binaryTree, Tree.setData.
    rewrite lookup_node. cbn [payload].
    rewrite (sameKey_compare_zero (k0 :: ks) d2 d1 (sameKey_sym k0 ks d1 d2 Hk)).
    reflexivity.
Qed.

(** Two documents with the key [k = 7] inserted into a tree that holds
    [k = 9]. *)
Lemma insert_routes_and_chains_witness :
  let k0 := ascending "k" in
  let d1 := [("k", JNumber 7); ("n", JString "first")] in
  let d2 := [("k", JNumber 7); ("n", JString "second")] in
  let t := build k0 [] None [[("k", JNumber 9)]] in
  Permutation
    (Tree.lookup k0 [] d1
       (fst (Tree.insert k0 [] d2 (fst (Tree.insert k0 [] d1 t)))) [])
    (Some d1 :: Some d2 :: Tree.lookup k0 [] d1 t []).
Proof.
  intros k0 d1 d2 t.
  apply (proj1 (proj2 (insert_routes_and_chains k0 [])) t d1 d2).
  - vm_compute. repeat split; discriminate.
  - repeat constructor.
Defined.

(** ** startsWith *)

Lemma substr0_prefix (val s : string) :
  String.eqb (substr0 s (String.length val)) val = String.prefix val s.
Proof.
  unfold substr0.
  destruct (String.prefix val s) eqn:E.
  - apply String.eqb_eq. apply prefix_correct in E. exact E.
  - apply String.eqb_neq. intros F. apply prefix_correct in F. congruence.
Qed.

Lemma string_compare_refl (s : string) : String.compare s s = Eq.
Proof.
  pose proof (String.compare_antisym s s) as H.
  destruct (String.compare s s); simpl in H; congruence.
Qed.

Lemma compare_substr0 (n : nat) :
  forall s t,
    String.compare s t <> Gt ->
    String.compare (substr0 s n) (substr0 t n) <> Gt.
Proof.
  unfold substr0.
  induction n as [|n IH]; intros [|c s] [|c' t] H;
    try (cbn; discriminate); cbn in *; [exact H|].
  destruct (Ascii.compare c c'); [apply IH, H|discriminate|exact H].
Qed.

Lemma compare_substr0_ge (n : nat) (s t : string) :
  String.compare s t <> Lt ->
  String.compare (substr0 s n) (substr0 t n) <> Lt.
Proof.
  intros H. rewrite String.compare_antisym.
  pose proof (compare_substr0 n t s) as M.
  rewrite (String.compare_antisym s t) in H.
  destruct (String.compare t s), (String.compare (substr0 t n) (substr0 s n));
    simpl in *; intuition congruence.
Qed.

Lemma startsWith_node (path val : string) (d : doc) (sv : string) h st l r pk :
  Path.get (JObject d) path = JString sv ->
  forall resultArr,
    Tree.startsWith path val (Tree.Node (Some d) h st l r pk) resultArr
    = match String.compare (substr0 sv (String.length val)) val with
      | Eq =>
          do resultArr <- startsWithChild path val l resultArr;
          startsWithChild path val r (resultArr ++ [Some d])
      | Lt => startsWithChild path val r resultArr
      | Gt => startsWithChild path val l resultArr
      end.
Proof.
  intros E resultArr. cbn [Tree.startsWith payload]. rewrite E.
  cbn [sortAscIgnoreUndefined natural].
  destruct (String.compare (substr0 sv (String.length val)) val) eqn:C;
    cbn [of_comparison Z.eqb Pos.eqb].
  - apply String.compare_eq_iff in C. rewrite C, String.eqb_refl.
    unfold startsWithChild.
    destruct l as [x|]; cbn [bind].
    + destruct (Tree.startsWith path val x resultArr) as [a|e]; cbn [bind];
        [|reflexivity].
      destruct r as [y|]; [destruct (Tree.startsWith path val y _)|];
        reflexivity.
    + destruct r as [y|]; [destruct (Tree.startsWith path val y _)|];
        reflexivity.
  - assert (N : String.eqb (substr0 sv (String.length val)) val = false).
    { apply String.eqb_neq. intros F. rewrite F in C.
      rewrite string_compare_refl in C. discriminate. }
    rewrite N. unfold startsWithChild. cbn [bind].
    destruct r as [y|]; [destruct (Tree.startsWith path val y _)|]; reflexivity.
  - assert (N : String.eqb (substr0 sv (String.length val)) val = false).
    { apply String.eqb_neq. intros F. rewrite F in C.
      rewrite string_compare_refl in C. discriminate. }
    rewrite N. unfold startsWithChild. cbn [bind].
    destruct l as [x|]; [destruct (Tree.startsWith path val x _)|]; reflexivity.
Qed.

Lemma filter_none {A} (f : A -> bool) (l : list A) :
  Forall (fun x => f x = false) l -> List.filter f l = [].
Proof.
  induction 1 as [|x l E _ IH]; simpl; [reflexivity|]. rewrite E. exact IH.
Qed.

Section AnySortingFacts.

Variable sortAsc sortDesc : jsval -> jsval -> Z.
Hypothesis ascTriState : triState sortAsc.
Hypothesis descTriState : triState sortDesc.

Let compare (keys : list indexData) : jsval -> jsval -> Z :=
  AnySorting._compareFunc sortAsc sortDesc keys.

Lemma any_compareLoop_range (keys : list indexData) (a b : jsval) :
  forall result,
    result = (-1)%Z \/ result = 0%Z \/ result = 1%Z ->
    let r := AnySorting.compareLoop sortAsc sortDesc keys result a b in
    r = (-1)%Z \/ r = 0%Z \/ r = 1%Z.
Proof.
  induction keys as [|k keys IH]; intros result Hr; cbn; [exact Hr|].
  assert (K : let x := AnySorting.compareKey sortAsc sortDesc k result a b in
              x = (-1)%Z \/ x = 0%Z \/ x = 1%Z).
  { unfold AnySorting.compareKey.
    destruct (strict_eq (value k) (JNumber 1)); [apply ascTriState|].
    destruct (strict_eq (value k) (JNumber (-1))); [apply descTriState|exact Hr]. }
  cbn in K.
  destruct (Z.eqb (AnySorting.compareKey sortAsc sortDesc k result a b) 0);
    cbn [negb]; [apply IH, K|exact K].
Qed.

Lemma any_compare_range (keys : list indexData) (a b : jsval) :
  compare keys a b = (-1)%Z \/ compare keys a b = 0%Z \/ compare keys a b = 1%Z.
Proof. apply any_compareLoop_range. auto. Qed.

(** With an ascending first key the comparator answers what the helper
    answers on the values at that key, unless that is 0. *)
Lemma any_compare_first_key (p : string) (ks : list indexData) (a b : jsval) :
  (compare (ascending p :: ks) a b = 0%Z \/ compare (ascending p :: ks) a b = 1%Z ->
   sortAsc (get a p) (get b p) <> (-1)%Z)
  /\ (compare (ascending p :: ks) a b = (-1)%Z ->
      sortAsc (get a p) (get b p) <> 1%Z).
Proof.
  unfold compare, AnySorting._compareFunc.
  cbn [AnySorting.compareLoop AnySorting.compareKey ascending value path
         strict_eq Z.eqb Pos.eqb].
  destruct (Z.eqb_spec (sortAsc (get a p) (get b p)) 0) as [E|E]; cbn [negb].
  - rewrite E. split; intros _; discriminate.
  - split; [intros [H|H]|intros H]; rewrite H; discriminate.
Qed.

Section AnyInsert.

Variable k0 : indexData.
Variable ks : list indexData.

Let keys := k0 :: ks.
Let insert := AnySorting.insert sortAsc sortDesc k0 ks.
Let belowAny (d : doc) (c : option Tree.tree) : Tree.tree :=
  match c with
  | Some x => fst (insert d x)
  | None => Tree.init k0 (Some d) Tree._binaryTree
  end.

Lemma any_insert_node (d cur : doc) h s l r pk :
  insert d (Tree.Node (Some cur) h s l r pk)
  = if Z.eqb (compare keys (JObject cur) (JObject d)) (-1)
    then (Tree.Node (Some cur) h s l (Some (belowAny d r)) pk, true)
    else (Tree.Node (Some cur) h s (Some (belowAny d l)) r pk, true).
Proof.
  unfold insert, belowAny, compare, keys. cbn [AnySorting.insert payload].
  destruct (any_compare_range (k0 :: ks) (JObject cur) (JObject d))
    as [E|[E|E]]; unfold compare in E; rewrite E; reflexivity.
Qed.

Lemma any_elements_below (d : doc) (c : option Tree.tree) :
  (forall x, c = Some x ->
     Permutation (elements (fst (insert d x))) (d :: elements x)) ->
  Permutation (elements (belowAny d c))
    (d :: match c with Some x => elements x | None => [] end).
Proof.
  intros IH. destruct c as [x|]; simpl; [apply IH; reflexivity|].
  apply Permutation_refl.
Qed.

Lemma any_elements_insert (d : doc) (t : Tree.tree) :
  populated t ->
  Permutation (elements (fst (insert d t))) (d :: elements t).
Proof.
  induction t as [cur h s l r pk IHl IHr] using tree_induction.
  intros (Hcur & Hl & Hr). destruct cur as [cur|]; [|congruence].
  rewrite any_insert_node.
  destruct (Z.eqb _ _); cbn [fst elements].
  - rewrite any_elements_below.
    2:{ intros y ->. apply IHr; auto. }
    rewrite !app_assoc. symmetry. apply Permutation_middle.
  - rewrite any_elements_below.
    2:{ intros x ->. apply IHl; auto. }
    reflexivity.
Qed.

Lemma orderedBy_populated (t : Tree.tree) :
  orderedBy (compare keys) t -> populated t.
Proof.
  induction t as [cur h s l r pk IHl IHr] using tree_induction.
  intros (Hcur & Hl & Hr). repeat split; auto.
  - destruct l as [x|]; [apply IHl; tauto|exact I].
  - destruct r as [y|]; [apply IHr; tauto|exact I].
Qed.

Lemma orderedBy_insert (d : doc) (t : Tree.tree) :
  orderedBy (compare keys) t -> orderedBy (compare keys) (fst (insert d t)).
Proof.
  induction t as [cur h s l r pk IHl IHr] using tree_induction.
  intros (Hcur & Hl & Hr). destruct cur as [cur|]; [|congruence].
  rewrite any_insert_node.
  destruct (Z.eqb_spec (compare keys (JObject cur) (JObject d)) (-1))
    as [E|E]; cbn [fst orderedBy]; repeat split; auto.
  - destruct r as [y|]; simpl; [apply IHr; tauto|]. repeat split; congruence.
  - eapply Permutation_Forall.
    { symmetry. apply any_elements_below. intros y ->.
      apply any_elements_insert, orderedBy_populated. tauto. }
    constructor; [exact E|]. destruct r; [tauto|constructor].
  - destruct l as [x|]; simpl; [apply IHl; tauto|]. repeat split; congruence.
  - eapply Permutation_Forall.
    { symmetry. apply any_elements_below. intros x ->.
      apply any_elements_insert, orderedBy_populated. tauto. }
    constructor.
    + simpl. destruct (any_compare_range keys (JObject cur) (JObject d))
        as [F|[F|F]]; auto; contradiction.
    + destruct l; [tauto|constructor].
Qed.

Lemma any_fold_insert (ds : list doc) :
  forall t,
    orderedBy (compare keys) t ->
    let t' := fold_left (fun t d => fst (insert d t)) ds t in
    orderedBy (compare keys) t' /\ Permutation (elements t') (elements t ++ ds).
Proof.
  induction ds as [|d ds IH]; intros t Ht; simpl.
  - rewrite app_nil_r. split; [exact Ht|reflexivity].
  - destruct (IH _ (orderedBy_insert d t Ht)) as [H1 H2].
    split; [exact H1|].
    rewrite H2, (any_elements_insert d t (orderedBy_populated t Ht)).
    apply Permutation_middle.
Qed.

Lemma buildWith_ordered (pk : option string) (d : doc) (ds : list doc) :
  orderedBy (compare keys) (buildWith sortAsc sortDesc k0 ks pk (d :: ds))
  /\ Permutation (elements (buildWith sortAsc sortDesc k0 ks pk (d :: ds)))
       (d :: ds).
Proof.
  unfold buildWith. cbn [fold_left Tree.init AnySorting.insert fst].
  apply (any_fold_insert ds). simpl. repeat split; congruence.
Qed.

End AnyInsert.

Section AnyStartsWith.

Variable path val : string.
Variable ks : list indexData.
Hypothesis ascKept : keptByTruncation sortAsc.

Let keys := ascending path :: ks.
Let startsWith := AnySorting.startsWith sortAsc path val.
Let kept (l : list doc) : list (option doc) :=
  map Some (List.filter (hasPrefix path val) l).
Let child (c : option Tree.tree) (resultArr : list (option doc))
  : result (list (option doc)) :=
  match c with
  | Some x => startsWith x resultArr
  | None => Ok resultArr
  end.

Lemma any_child_kept (c : option Tree.tree) :
  (forall x, c = Some x ->
     forall resultArr,
       startsWith x resultArr = Ok (resultArr ++ kept (elements x))) ->
  forall resultArr,
    child c resultArr
    = Ok (resultArr ++ kept match c with Some x => elements x | None => [] end).
Proof.
  intros IH resultArr. destruct c as [x|]; simpl; [apply IH; reflexivity|].
  rewrite app_nil_r. reflexivity.
Qed.

(** No document on the side the search leaves out starts with [val]. *)
Lemma any_side_empty (d : doc) (sv : string) (side : list doc) (away : Z) :
  away = (-1)%Z \/ away = 1%Z ->
  get (JObject d) path = JString sv ->
  sortAsc (JString (substr0 sv (String.length val))) (JString val) = away ->
  Forall (fun e => stringAt path e = true) side ->
  Forall (fun e => sortAsc (get (JObject d) path) (get (JObject e) path) <> away)
    side ->
  kept side = [].
Proof.
  intros Ha Ed C Hs Hc. unfold kept. rewrite filter_none; [reflexivity|].
  apply List.Forall_forall. intros e He.
  pose proof (proj1 (List.Forall_forall _ _) Hs e He) as Hse.
  pose proof (proj1 (List.Forall_forall _ _) Hc e He) as Hce.
  unfold stringAt in Hse. unfold hasPrefix.
  destruct (get (JObject e) path) as [| |se|] eqn:Ee; try discriminate.
  destruct (String.prefix val se) eqn:P; [|reflexivity]. exfalso.
  rewrite <- substr0_prefix in P. apply String.eqb_eq in P.
  cbn beta in Hce. rewrite Ed, Ee in Hce.
  destruct (ascKept sv se (String.length val)) as [K1 K2].
  rewrite P in K1, K2.
  destruct Ha as [-> | ->]; [apply (K1 Hce C)|apply (K2 Hce C)].
Qed.

Lemma any_startsWith_ordered (t : Tree.tree) :
  orderedBy (compare keys) t ->
  Forall (fun d => stringAt path d = true) (elements t) ->
  forall resultArr,
    startsWith t resultArr = Ok (resultArr ++ kept (elements t)).
Proof.
  induction t as [cur h s l r pk IHl IHr] using tree_induction.
  intros (Hcur & Hl & Hr) Hs resultArr.
  destruct cur as [d|]; [|congruence].
  cbn [elements] in Hs |- *.
  apply Forall_app in Hs as [Hsl Hs]. apply Forall_app in Hs as [Hsd Hsr].
  apply Forall_inv in Hsd. unfold stringAt in Hsd.
  destruct (get (JObject d) path) as [| |sv|] eqn:Ed; try discriminate.
  assert (Kl : forall resultArr,
             child l resultArr
             = Ok (resultArr ++ kept match l with Some x => elements x | None => [] end)).
  { apply any_child_kept. intros x ->. apply IHl; tauto. }
  assert (Kr : forall resultArr,
             child r resultArr
             = Ok (resultArr ++ kept match r with Some x => elements x | None => [] end)).
  { apply any_child_kept. intros y ->. apply IHr; tauto. }
  assert (Fl : Forall (fun e => sortAsc (get (JObject d) path) (get (JObject e) path)
                                <> (-1)%Z)
                 match l with Some x => elements x | None => [] end).
  { destruct l as [x|]; [|constructor]. destruct Hl as [_ Hl].
    eapply List.Forall_impl; [|exact Hl]. intros e He.
    apply (proj1 (any_compare_first_key path ks (JObject d) (JObject e))), He. }
  assert (Fr : Forall (fun e => sortAsc (get (JObject d) path) (get (JObject e) path)
                                <> 1%Z)
                 match r with Some x => elements x | None => [] end).
  { destruct r as [y|]; [|constructor]. destruct Hr as [_ Hr].
    eapply List.Forall_impl; [|exact Hr]. intros e He.
    apply (proj2 (any_compare_first_key path ks (JObject d) (JObject e))), He. }
  unfold kept at 1. rewrite !List.filter_app, !map_app. cbn [List.filter].
  fold (kept match l with Some x => elements x | None => [] end).
  fold (kept match r with Some x => elements x | None => [] end).
  unfold hasPrefix at 1. rewrite Ed, <- substr0_prefix.
  unfold startsWith. cbn [AnySorting.startsWith payload]. rewrite Ed.
  fold startsWith. unfold child in Kl, Kr.
  set (reTest := String.eqb (substr0 sv (String.length val)) val).
  destruct (ascTriState (JString (substr0 sv (String.length val))) (JString val))
    as [C|[C|C]]; rewrite C; cbn [Z.eqb Pos.eqb bind].
  - rewrite (any_side_empty d sv _ (-1) (or_introl eq_refl) Ed C Hsl Fl).
    destruct reTest; rewrite Kr; cbn [bind map app];
      rewrite <- ?app_assoc; reflexivity.
  - rewrite Kl. cbn [bind].
    destruct reTest; rewrite Kr; cbn [bind map app];
      rewrite <- ?app_assoc; reflexivity.
  - rewrite (any_side_empty d sv _ 1 (or_intror eq_refl) Ed C Hsr Fr).
    rewrite Kl. cbn [bind map app].
    destruct reTest; cbn [map app]; rewrite <- ?app_assoc, ?app_nil_r;
      reflexivity.
Qed.

End AnyStartsWith.

End AnySortingFacts.

(** The byte-wise order of the strings, which the sorting helpers of this
    development use, is not reversed by truncation. *)
Lemma sortAsc_keptByTruncation : keptByTruncation sortAscIgnoreUndefined.
Proof.
  intros s t n. cbn [sortAscIgnoreUndefined natural]. split; intros H E.
  - apply (compare_substr0_ge n s t).
    + intros F. apply H. rewrite F. reflexivity.
    + destruct (String.compare (substr0 s n) (substr0 t n));
        try discriminate E. reflexivity.
  - apply (compare_substr0 n s t).
    + intros F. apply H. rewrite F. reflexivity.
    + destruct (String.compare (substr0 s n) (substr0 t n));
        try discriminate E. reflexivity.
Qed.

(** An order that puts "bob" after "Bill" and "b" before "B" is reversed by
    truncation. *)
Lemma reversed_by_truncation (sort : jsval -> jsval -> Z) :
  sort (JString "bob") (JString "Bill") = 1%Z ->
  sort (JString "b") (JString "B") = (-1)%Z ->
  ~ keptByTruncation sort.
Proof.
  intros H1 H2 K. destruct (K "bob" "Bill" 1) as [K1 _]. cbn in K1.
  apply K1; [rewrite H1; discriminate|exact H2].
Qed.

(** With the helpers of this development the functions over any helpers are
    the comparator, [insert] and [startsWith] modelled above. *)
Lemma any_sorting_instance :
  (forall keys a b,
      AnySorting._compareFunc sortAscIgnoreUndefined sortDescIgnoreUndefined
        keys a b
      = _compareFunc keys a b)
  /\ (forall k0 ks d t,
        AnySorting.insert sortAscIgnoreUndefined sortDescIgnoreUndefined
          k0 ks d t
        = Tree.insert k0 ks d t)
  /\ (forall path val t resultArr,
        AnySorting.startsWith sortAscIgnoreUndefined path val t resultArr
        = Tree.startsWith path val t resultArr).
Proof. repeat split; reflexivity. Qed.

(** C8, as the code has it: whatever the two sorting helpers are, provided
    they answer -1, 0 or 1 and the order the ascending helper gives two
    strings is not reversed by cutting both to the same length: when the
    first key of the index is [path], ascending, and every inserted document
    has a string at [path], [startsWith(path, val)] returns exactly the
    inserted documents whose string at [path] starts with [val]. *)
Theorem startsWith_on_ascending_first_key
  (sortAsc sortDesc : jsval -> jsval -> Z)
  (path val : string) (ks : list indexData) (pk : option string)
  (d : doc) (ds : list doc) :
  triState sortAsc ->
  triState sortDesc ->
  keptByTruncation sortAsc ->
  Forall (fun x => stringAt path x = true) (d :: ds) ->
  exists found,
    AnySorting.startsWith sortAsc path val
      (buildWith sortAsc sortDesc (ascending path) ks pk (d :: ds)) []
    = Ok (map Some found)
    /\ Permutation found (List.filter (hasPrefix path val) (d :: ds)).
Proof.
  intros Ra Rd K Hs.
  destruct (buildWith_ordered sortAsc sortDesc Ra Rd (ascending path) ks pk d ds)
    as [H1 H2].
  exists (List.filter (hasPrefix path val)
            (elements (buildWith sortAsc sortDesc (ascending path) ks pk (d :: ds)))).
  split.
  - apply (any_startsWith_ordered sortAsc sortDesc Ra path val ks K _ H1).
    eapply Permutation_Forall; [symmetry; exact H2|exact Hs].
  - apply Permutation_filter_bool, H2.
Qed.

(** Three names under the index [{name: 1, age: -1}], prefix ["Jo"], with
    the helpers of this development, under which the functions over any
    helpers are [insert] and [startsWith] as modelled above. *)
Lemma startsWith_on_ascending_first_key_witness :
  let docs := [[("name", JString "Joe"); ("age", JNumber 30)];
               [("name", JString "Al"); ("age", JNumber 41)];
               [("name", JString "John"); ("age", JNumber 25)]] in
  buildWith sortAscIgnoreUndefined sortDescIgnoreUndefined
    (ascending "name") [descending "age"] None docs
  = build (ascending "name") [descending "age"] None docs
  /\ exists found,
       Tree.startsWith "name" "Jo"
         (build (ascending "name") [descending "age"] None docs) []
       = Ok (map Some found)
       /\ Permutation found (List.filter (hasPrefix "name" "Jo") docs).
Proof.
  intros docs. split; [reflexivity|].
  exact (startsWith_on_ascending_first_key
           sortAscIgnoreUndefined sortDescIgnoreUndefined
           "name" "Jo" [descending "age"] None
           [("name", JString "Joe"); ("age", JNumber 30)]
           [[("name", JString "Al"); ("age", JNumber 41)];
            [("name", JString "John"); ("age", JNumber 25)]]
           sortAsc_range sortDesc_range sortAsc_keptByTruncation
           ltac:(repeat constructor)).
Defined.

(** C8 as stated fails.  Under the descending index [{n: -1}] the documents
    [{n: "b"}] and [{n: "a"}] are stored, the second has the prefix ["a"], and
    [startsWith("n", "a")] returns nothing: at the root ["b"] is greater than
    ["a"] and only the left branch is searched.  Under the index [{a: 1}] the
    documents [{a: 2, b: "b"}] and [{a: 3, b: "a"}] are stored and
    [startsWith("b", "a")] returns nothing either: the tree is not ordered by
    [b]. *)
Lemma startsWith_misses_on_other_orders :
  (Tree.startsWith "n" "a"
     (build (descending "n") [] None [[("n", JString "b")]; [("n", JString "a")]])
     [] = Ok []
   /\ Tree.inOrder Tree.data
        (build (descending "n") [] None [[("n", JString "b")]; [("n", JString "a")]])
        []
      = [Tree.EData (Some [("n", JString "b")]);
         Tree.EData (Some [("n", JString "a")])]
   /\ hasPrefix "n" "a" [("n", JString "a")] = true)
  /\ (Tree.startsWith "b" "a"
        (build (ascending "a") [] None
           [[("a", JNumber 2); ("b", JString "b")];
            [("a", JNumber 3); ("b", JString "a")]])
        [] = Ok []
      /\ Tree.inOrder Tree.data
           (build (ascending "a") [] None
              [[("a", JNumber 2); ("b", JString "b")];
               [("a", JNumber 3); ("b", JString "a")]])
           []
         = [Tree.EData (Some [("a", JNumber 2); ("b", JString "b")]);
            Tree.EData (Some [("a", JNumber 3); ("b", JString "a")])]
      /\ hasPrefix "b" "a" [("a", JNumber 3); ("b", JString "a")] = true).
Proof.
  vm_compute. repeat split; reflexivity.
Qed.

(** ** The store: insert and the primary key of the children *)

Section StoreInsert.

Variable k0 : indexData.
Variable ks : list indexData.

Lemma insertBelow_childrenKeyless
  (ins : Store.heap -> Store.ref -> doc -> Store.outcome bool)
  (child : Store.node -> option Store.ref)
  (withChild : option Store.ref -> Store.node -> Store.node)
  (h : Store.heap) (this : Store.ref) (n : Store.node) (d : doc)
  (h' : Store.heap) (b : bool) :
  (forall h c h' b,
      childrenKeyless h -> ins h c d = Store.Returns h' b -> childrenKeyless h') ->
  (forall c m, Store._primaryKey (withChild c m) = Store._primaryKey m
               /\ Store._data (withChild c m) = Store._data m) ->
  childrenKeyless h ->
  h !! this = Some n ->
  Store._data n <> None ->
  Store.insertBelow k0 ins child withChild h this n d = Store.Returns h' b ->
  childrenKeyless h'.
Proof.
  intros IH Hw J Hn Hd. unfold Store.insertBelow.
  destruct (child n) as [c|].
  - destruct (ins h c d) as [h1 b1| |] eqn:E; try discriminate.
    intros [= <- <-]. eapply IH; eassumption.
  - unfold Store.init. intros [= <- <-]. intros q m Hq Hne.
    apply list_lookup_insert_Some in Hq as [(-> & <- & _)|(Hneq & Hq)].
    + destruct (Hw (Some (List.length h)) n) as [E1 E2].
      destruct (J _ _ Hn Hne) as [P1 P2]. split.
      * etransitivity; [exact E1|exact P1].
      * intros F. apply P2. rewrite <- F. symmetry. exact E2.
    + apply lookup_app_Some in Hq as [Hq|(_ & Hq)].
      * exact (J _ _ Hq Hne).
      * apply list_lookup_singleton_Some in Hq as [_ <-].
        split; [reflexivity|discriminate].
Qed.

Lemma insert_childrenKeyless (fuel : nat) :
  forall (h : Store.heap) (this : Store.ref) (d : doc) (h' : Store.heap) (b : bool),
    childrenKeyless h ->
    Store.insert k0 ks fuel h this d = Store.Returns h' b ->
    childrenKeyless h'.
Proof.
  induction fuel as [|fuel IH]; intros h this d h' b J; [discriminate|].
  cbn [Store.insert].
  destruct (h !! this) as [n|] eqn:Hn; [|discriminate].
  destruct (Store._data n) as [cur|] eqn:Hd.
  - assert (Hd' : Store._data n <> None) by congruence.
    rewrite <- Hd.
    destruct (Z.eqb _ 0);
      [|destruct (Z.eqb _ (-1)); [|destruct (Z.eqb _ 1)]];
      try (apply insertBelow_childrenKeyless; auto;
           intros h1 c h2 b2; apply IH);
      try (intros c m; split; reflexivity).
    intros [= <- <-]. exact J.
  - intros [= <- <-]. intros q m Hq Hne.
    apply list_lookup_insert_Some in Hq as [(-> & <- & _)|(Hneq & Hq)].
    + destruct (J _ _ Hn Hne) as [Hp _]. split; [exact Hp|discriminate].
    + exact (J _ _ Hq Hne).
Qed.

Lemma insertArrayLoop_childrenKeyless (fuel : nat) (this : Store.ref)
  (ds : list doc) :
  forall h ins fl h' res,
    childrenKeyless h ->
    Store.insertArrayLoop k0 ks fuel h this ds ins fl = Store.Returns h' res ->
    childrenKeyless h'.
Proof.
  induction ds as [|d ds IH]; intros h ins fl h' res J; cbn [Store.insertArrayLoop].
  - intros [= <- <-]. exact J.
  - destruct (Store.insert k0 ks fuel h this d) as [h1 ok| |] eqn:E;
      try discriminate.
    pose proof (insert_childrenKeyless fuel h this d h1 ok J E) as J1.
    destruct ok; apply IH; exact J1.
Qed.

Lemma storeBuild_childrenKeyless (pk : option string) (docs : list doc)
  (fuel : nat) (h : Store.heap) (res : list doc * list doc) :
  storeBuild k0 ks pk docs fuel = Store.Returns h res -> childrenKeyless h.
Proof.
  unfold storeBuild, Store.insertArray.
  apply insertArrayLoop_childrenKeyless.
  intros q n Hq Hne. cbn in Hq.
  destruct q as [|q]; [contradiction|]. cbn in Hq. discriminate.
Qed.

End StoreInsert.

(** ** The store and the tree value agree *)

Lemma repr_frame (t : Tree.tree) :
  forall h h' p fp,
    repr h p t fp ->
    (forall q, In q fp -> h' !! q = h !! q) ->
    repr h' p t fp.
Proof.
  induction t as [d hs st l r pk IHl IHr] using tree_induction.
  intros h h' p fp (n & lf & rf & Hn & Hd & Hh & Hs & Hp & -> & Hl & Hr) F.
  exists n, lf, rf. repeat split; auto.
  - rewrite F; [exact Hn|]. apply in_or_app. right. left. reflexivity.
  - destruct l as [lt|], (Store._left n) as [lp|]; auto.
    apply (IHl lt eq_refl h); [exact Hl|].
    intros q Hq. apply F, in_or_app. left. exact Hq.
  - destruct r as [rt|], (Store._right n) as [rp|]; auto.
    apply (IHr rt eq_refl h); [exact Hr|].
    intros q Hq. apply F, in_or_app. right. right. exact Hq.
Qed.

Lemma repr_in_store (t : Tree.tree) :
  forall h p fp q, repr h p t fp -> In q fp -> q < List.length h.
Proof.
  induction t as [d hs st l r pk IHl IHr] using tree_induction.
  intros h p fp q (n & lf & rf & Hn & _ & _ & _ & _ & -> & Hl & Hr) Hq.
  apply in_app_or in Hq as [Hq|[<-|Hq]].
  - destruct l as [lt|], (Store._left n) as [lp|]; try contradiction.
    + exact (IHl lt eq_refl h lp lf q Hl Hq).
    + subst lf. contradiction.
  - eapply lookup_lt_Some, Hn.
  - destruct r as [rt|], (Store._right n) as [rp|]; try contradiction.
    + exact (IHr rt eq_refl h rp rf q Hr Hq).
    + subst rf. contradiction.
Qed.

Lemma store_inOrder_repr (type : Tree.mode) (t : Tree.tree) :
  forall h p fp fuel resultArr,
    repr h p t fp ->
    height t <= fuel ->
    Store.inOrder fuel h type p resultArr = Some (Tree.inOrder type t resultArr).
Proof.
  induction t as [d hs st l r pk IHl IHr] using tree_induction.
  intros h p fp fuel resultArr
    (n & lf & rf & Hn & Hd & Hh & Hs & Hp & -> & Hl & Hr) Hf.
  destruct fuel as [|fuel]; [cbn in Hf; lia|].
  cbn [height] in Hf. cbn [Store.inOrder Tree.inOrder]. rewrite Hn. cbn.
  assert (E : Store.pushed type n = Tree.pushed type (Tree.Node d hs st l r pk)).
  { destruct type; cbn; congruence. }
  rewrite E.
  destruct l as [lt|], (Store._left n) as [lp|]; try contradiction;
    destruct r as [rt|], (Store._right n) as [rp|]; try contradiction.
  - rewrite (IHl lt eq_refl h lp lf fuel resultArr Hl) by lia. cbn.
    apply (IHr rt eq_refl h rp rf); [exact Hr|lia].
  - rewrite (IHl lt eq_refl h lp lf fuel resultArr Hl) by lia. reflexivity.
  - cbn. apply (IHr rt eq_refl h rp rf); [exact Hr|lia].
  - reflexivity.
Qed.

Lemma NoDup_middle_inv (lf rf : list nat) (p : nat) :
  NoDup (lf ++ p :: rf) ->
  NoDup lf /\ NoDup rf /\ ~ In p lf /\ ~ In p rf
  /\ (forall q, In q lf -> ~ In q rf).
Proof.
  intros H. apply NoDup_app in H as (H1 & H2 & H3).
  apply NoDup_cons in H3 as [H3 H4].
  repeat split; auto.
  - intros F. apply (H2 p); [apply list_elem_of_In, F|left].
  - intros F. apply H3, list_elem_of_In, F.
  - intros q Hq F. apply (H2 q); [apply list_elem_of_In, Hq|].
    right. apply list_elem_of_In, F.
Qed.

Lemma NoDup_middle_intro (lf rf : list nat) (p : nat) :
  NoDup lf -> NoDup rf -> ~ In p lf -> ~ In p rf ->
  (forall q, In q lf -> ~ In q rf) ->
  NoDup (lf ++ p :: rf).
Proof.
  intros H1 H2 H3 H4 H5. apply NoDup_app. split; [exact H1|]. split.
  - intros q Hq F. apply list_elem_of_In in Hq.
    apply elem_of_cons in F as [->|F]; [contradiction|].
    apply (H5 q Hq), list_elem_of_In, F.
  - apply NoDup_cons. split; [|exact H2].
    intros F. apply H4, list_elem_of_In, F.
Qed.

Section StoreRefinesTree.

Variable k0 : indexData.
Variable ks : list indexData.

Lemma height_positive (t : Tree.tree) : 0 < height t.
Proof. destruct t. cbn. lia. Qed.

Lemma store_insert_repr (d : doc) (t : Tree.tree) :
  forall h p fp fuel,
    repr h p t fp ->
    NoDup fp ->
    height t <= fuel ->
    exists h' fp',
      Store.insert k0 ks fuel h p d
      = Store.Returns h' (snd (Tree.insert k0 ks d t))
      /\ repr h' p (fst (Tree.insert k0 ks d t)) fp'
      /\ NoDup fp'
      /\ (forall q, In q fp' -> In q fp \/ List.length h <= q)
      /\ (forall q, q < List.length h -> ~ In q fp -> h' !! q = h !! q)
      /\ List.length h <= List.length h'
      /\ (forall q,
            In q fp \/ (List.length h <= q /\ q < List.length h') -> In q fp').
Proof.
  induction t as [cur hs st l r pk IHl IHr] using tree_induction.
  intros h p fp fuel (n & lf & rf & Hn & Hd & Hh & Hs & Hp & -> & Hl & Hr) Hnd Hf.
  destruct fuel as [|fuel]; [cbn in Hf; lia|]. cbn [height] in Hf.
  destruct (NoDup_middle_inv lf rf p Hnd) as (Nl & Nr & Npl & Npr & Nlr).
  pose proof (lookup_lt_Some _ _ _ Hn) as Hlt.
  cbn [Store.insert]. rewrite Hn, Hd.
  destruct cur as [cur|].
  - assert (LB : exists h' fp',
               Store.insertBelow k0 (Store.insert k0 ks fuel)
                 Store._left Store.withLeft h p n d = Store.Returns h' true
               /\ repr h' p
                    (Tree.Node (Some cur) hs st (Some (below k0 ks d l)) r pk) fp'
               /\ NoDup fp'
               /\ (forall q, In q fp' -> In q (lf ++ p :: rf) \/ List.length h <= q)
               /\ (forall q, q < List.length h -> ~ In q (lf ++ p :: rf) ->
                             h' !! q = h !! q)
               /\ List.length h <= List.length h'
               /\ (forall q,
                     In q (lf ++ p :: rf)
                     \/ (List.length h <= q /\ q < List.length h') -> In q fp')).
    { unfold Store.insertBelow.
      destruct l as [lt|], (Store._left n) as [lp|] eqn:El; try contradiction.
      - destruct (IHl lt eq_refl h lp lf fuel Hl Nl ltac:(lia))
          as (h1 & lf1 & E1 & R1 & N1 & S1 & F1 & L1 & C1).
        rewrite E1. exists h1, (lf1 ++ p :: rf).
        assert (Fp : h1 !! p = h !! p) by (apply F1; assumption).
        assert (Frf : forall q, In q rf -> h1 !! q = h !! q).
        { intros q Hq. apply F1.
          - destruct r as [rt|], (Store._right n) as [rp|]; try contradiction.
            + eapply repr_in_store; eassumption.
            + subst rf. contradiction.
          - intros F. exact (Nlr q F Hq). }
        split; [reflexivity|]. split; [|split; [|split; [|split; [|split]]]].
        + exists n, lf1, rf. rewrite Fp, El. cbn [below].
          repeat split; auto.
          destruct r as [rt|], (Store._right n) as [rp|]; auto.
          eapply repr_frame; [exact Hr|exact Frf].
        + apply NoDup_middle_intro; auto.
          * intros F. destruct (S1 p F); [contradiction|lia].
          * intros q Hq F. destruct (S1 q Hq) as [G|G]; [exact (Nlr q G F)|].
            assert (q < List.length h); [|lia].
            destruct r as [rt|], (Store._right n) as [rp|]; try contradiction.
            -- eapply repr_in_store; eassumption.
            -- subst rf. contradiction.
        + intros q Hq. apply in_app_or in Hq as [Hq|Hq].
          * destruct (S1 q Hq); [left; apply in_or_app; auto|auto].
          * left. apply in_or_app. auto.
        + intros q Hq Hni. apply F1; [exact Hq|].
          intros F. apply Hni, in_or_app. auto.
        + exact L1.
        + intros q [Hq|Hq].
          * apply in_app_or in Hq as [Hq|Hq]; apply in_or_app; auto.
          * apply in_or_app. auto.
      - subst lf. cbn [Store.init fst snd].
        set (new := Store.setData k0 d
                      (Store.mkNode None JUndefined [] None None Store._binaryTree)).
        exists (<[p := Store.withLeft (Some (List.length h)) n]> (h ++ [new])),
          ([List.length h] ++ p :: rf).
        assert (Fq : forall q, q < List.length h -> q <> p ->
                  <[p := Store.withLeft (Some (List.length h)) n]> (h ++ [new]) !! q
                  = h !! q).
        { intros q Hq Hne. rewrite list_lookup_insert_ne by congruence.
          apply lookup_app_l. exact Hq. }
        assert (Hrf : forall q, In q rf -> q < List.length h).
        { intros q Hq.
          destruct r as [rt|], (Store._right n) as [rp|]; try contradiction.
          - eapply repr_in_store; eassumption.
          - subst rf. contradiction. }
        split; [reflexivity|]. split; [|split; [|split; [|split; [|split]]]].
        + exists (Store.withLeft (Some (List.length h)) n), [List.length h], rf.
          rewrite list_lookup_insert_eq by (rewrite length_app; cbn; lia).
          cbn [Store.withLeft Store._data Store._hash Store._store Store._left
                 Store._right Store._primaryKey below].
          repeat split; auto.
          * exists new, [], [].
            rewrite list_lookup_insert_ne by lia.
            rewrite list_lookup_middle by reflexivity.
            repeat split; reflexivity.
          * destruct r as [rt|], (Store._right n) as [rp|]; auto.
            eapply repr_frame; [exact Hr|].
            intros q Hq. apply Fq; [auto|]. intros ->. contradiction.
        + apply NoDup_middle_intro; auto.
          * apply NoDup_singleton.
          * intros [F|[]]. lia.
          * intros q [<-|[]] F. specialize (Hrf _ F). lia.
        + intros q [<-|Hq]; [right; lia|]. left. exact Hq.
        + intros q Hq Hni. apply Fq; [exact Hq|]. intros ->.
          apply Hni. left. reflexivity.
        + rewrite length_insert, length_app. lia.
        + rewrite length_insert, length_app. cbn [List.length app].
          intros q [Hq|Hq]; [right; exact Hq|left; lia]. }
    assert (RB : exists h' fp',
               Store.insertBelow k0 (Store.insert k0 ks fuel)
                 Store._right Store.withRight h p n d = Store.Returns h' true
               /\ repr h' p
                    (Tree.Node (Some cur) hs st l (Some (below k0 ks d r)) pk) fp'
               /\ NoDup fp'
               /\ (forall q, In q fp' -> In q (lf ++ p :: rf) \/ List.length h <= q)
               /\ (forall q, q < List.length h -> ~ In q (lf ++ p :: rf) ->
                             h' !! q = h !! q)
               /\ List.length h <= List.length h'
               /\ (forall q,
                     In q (lf ++ p :: rf)
                     \/ (List.length h <= q /\ q < List.length h') -> In q fp')).
    { unfold Store.insertBelow.
      assert (Hlf : forall q, In q lf -> q < List.length h).
      { intros q Hq.
        destruct l as [lt|], (Store._left n) as [lp|]; try contradiction.
        - eapply repr_in_store; eassumption.
        - subst lf. contradiction. }
      destruct r as [rt|], (Store._right n) as [rp|] eqn:Er; try contradiction.
      - destruct (IHr rt eq_refl h rp rf fuel Hr Nr ltac:(lia))
          as (h1 & rf1 & E1 & R1 & N1 & S1 & F1 & L1 & C1).
        rewrite E1. exists h1, (lf ++ p :: rf1).
        assert (Fp : h1 !! p = h !! p) by (apply F1; assumption).
        assert (Flf : forall q, In q lf -> h1 !! q = h !! q).
        { intros q Hq. apply F1; [auto|]. exact (Nlr q Hq). }
        split; [reflexivity|]. split; [|split; [|split; [|split; [|split]]]].
        + exists n, lf, rf1. rewrite Fp, Er. cbn [below].
          repeat split; auto.
          destruct l as [lt|], (Store._left n) as [lp|]; auto.
          eapply repr_frame; [exact Hl|exact Flf].
        + apply NoDup_middle_intro; auto.
          * intros F. destruct (S1 p F); [contradiction|lia].
          * intros q Hq F. destruct (S1 q F) as [G|G]; [exact (Nlr q Hq G)|].
            specialize (Hlf q Hq). lia.
        + intros q Hq. apply in_app_or in Hq as [Hq|[<-|Hq]].
          * left. apply in_or_app. auto.
          * left. apply in_or_app. right. left. reflexivity.
          * destruct (S1 q Hq); [left; apply in_or_app; right; right; auto|auto].
        + intros q Hq Hni. apply F1; [exact Hq|].
          intros F. apply Hni, in_or_app. right. right. exact F.
        + exact L1.
        + intros q [Hq|Hq].
          * apply in_app_or in Hq as [Hq|[<-|Hq]]; apply in_or_app; auto.
            -- right. left. reflexivity.
            -- right. right. auto.
          * apply in_or_app. right. right. auto.
      - subst rf. cbn [Store.init fst snd].
        set (new := Store.setData k0 d
                      (Store.mkNode None JUndefined [] None None Store._binaryTree)).
        exists (<[p := Store.withRight (Some (List.length h)) n]> (h ++ [new])),
          (lf ++ p :: [List.length h]).
        assert (Fq : forall q, q < List.length h -> q <> p ->
                  <[p := Store.withRight (Some (List.length h)) n]> (h ++ [new]) !! q
                  = h !! q).
        { intros q Hq Hne. rewrite list_lookup_insert_ne by congruence.
          apply lookup_app_l. exact Hq. }
        split; [reflexivity|]. split; [|split; [|split; [|split; [|split]]]].
        + exists (Store.withRight (Some (List.length h)) n), lf, [List.length h].
          rewrite list_lookup_insert_eq by (rewrite length_app; cbn; lia).
          cbn [Store.withRight Store._data Store._hash Store._store Store._left
                 Store._right Store._primaryKey below].
          repeat split; auto.
          * destruct l as [lt|], (Store._left n) as [lp|]; auto.
            eapply repr_frame; [exact Hl|].
            intros q Hq. apply Fq; [auto|]. intros ->. contradiction.
          * exists new, [], [].
            rewrite list_lookup_insert_ne by lia.
            rewrite list_lookup_middle by reflexivity.
            repeat split; reflexivity.
        + apply NoDup_middle_intro; auto.
          * apply NoDup_singleton.
          * intros [F|[]]. lia.
          * intros q Hq [<-|[]]. specialize (Hlf _ Hq). lia.
        + intros q Hq. apply in_app_or in Hq as [Hq|[<-|[<-|[]]]].
          * left. apply in_or_app. auto.
          * left. apply in_or_app. right. left. reflexivity.
          * right. lia.
        + intros q Hq Hni. apply Fq; [exact Hq|]. intros ->.
          apply Hni, in_or_app. right. left. reflexivity.
        + rewrite length_insert, length_app. lia.
        + rewrite length_insert, length_app. cbn [List.length].
          intros q [Hq|Hq]; apply in_or_app.
          * apply in_app_or in Hq as [Hq|[<-|[]]]; [left; exact Hq|].
            right. left. reflexivity.
          * right. right. left. lia. }
    rewrite insert_node. unfold Store.compareData, Store._keys. cbn [payload].
    destruct (compareFunc_range (k0 :: ks) (JObject cur) (JObject d))
      as [E|[E|E]]; rewrite E; cbn [Z.eqb Pos.eqb fst snd].
    + exact RB.
    + exact LB.
    + exact LB.
  - rewrite insert_empty. cbn [fst snd].
    exists (<[p := Store.setData k0 d n]> h), (lf ++ p :: rf).
    split; [reflexivity|].
    split; [|split; [exact Hnd|split; [auto|split; [|split]]]].
    + exists (Store.setData k0 d n), lf, rf.
      rewrite list_lookup_insert_eq by exact Hlt.
      cbn [Store.setData Store._data Store._hash Store._store Store._left
             Store._right Store._primaryKey].
      repeat split; auto.
      * destruct l as [lt|], (Store._left n) as [lp|]; auto.
        eapply repr_frame; [exact Hl|].
        intros q Hq. apply list_lookup_insert_ne. intros ->. contradiction.
      * destruct r as [rt|], (Store._right n) as [rp|]; auto.
        eapply repr_frame; [exact Hr|].
        intros q Hq. apply list_lookup_insert_ne. intros ->. contradiction.
    + intros q _ Hq. apply list_lookup_insert_ne. intros ->.
      apply Hq, in_or_app. right. left. reflexivity.
    + rewrite length_insert. lia.
    + rewrite length_insert. intros q [Hq|Hq]; [exact Hq|lia].
Qed.

Lemma height_below (d : doc) (c : option Tree.tree) :
  (forall x, c = Some x ->
     height (fst (Tree.insert k0 ks d x)) <= S (height x)) ->
  height (below k0 ks d c)
  <= S match c with Some x => height x | None => 0 end.
Proof.
  intros IH. destruct c as [x|]; [apply IH; reflexivity|]. cbn. lia.
Qed.

Lemma height_insert (d : doc) (t : Tree.tree) :
  height (fst (Tree.insert k0 ks d t)) <= S (height t).
Proof.
  induction t as [cur hs st l r pk IHl IHr] using tree_induction.
  destruct cur as [cur|].
  - rewrite insert_node.
    pose proof (height_below d l IHl). pose proof (height_below d r IHr).
    destruct (Z.eqb _ _); cbn [fst height]; lia.
  - rewrite insert_empty. cbn [fst height]. lia.
Qed.

Lemma store_insertArrayLoop_repr (ds : list doc) :
  forall h t fp fuel ins fl,
    repr h 0 t fp ->
    NoDup fp ->
    (forall q, q < List.length h -> In q fp) ->
    height t + List.length ds <= fuel ->
    exists h' fp',
      Store.insertArrayLoop k0 ks fuel h 0 ds ins fl
      = Store.Returns h' (ins ++ ds, fl)
      /\ repr h' 0 (fold_left (fun t d => fst (Tree.insert k0 ks d t)) ds t) fp'
      /\ NoDup fp'
      /\ (forall q, q < List.length h' -> In q fp').
Proof.
  induction ds as [|d ds IH]; intros h t fp fuel ins fl R N C F;
    cbn [Store.insertArrayLoop fold_left].
  - exists h, fp. rewrite app_nil_r. auto.
  - cbn [List.length] in F.
    destruct (store_insert_repr d t h 0 fp fuel R N ltac:(lia))
      as (h1 & fp1 & E1 & R1 & N1 & _ & _ & L1 & C1).
    rewrite E1, insert_true.
    pose proof (height_insert d t).
    destruct (IH h1 _ fp1 fuel (ins ++ [d]) fl R1 N1) as (h2 & fp2 & E2 & R2 & N2 & C2).
    { intros q Hq. apply C1.
      destruct (Nat.lt_ge_cases q (List.length h)); [left; auto|right; lia]. }
    { lia. }
    exists h2, fp2. rewrite E2, <- app_assoc. auto.
Qed.

Lemma store_lookup_repr (d : doc) (t : Tree.tree) :
  forall h p fp fuel resultArr,
    repr h p t fp ->
    height t <= fuel ->
    Store.lookup k0 ks fuel h d p resultArr
    = Some (Tree.lookup k0 ks d t resultArr).
Proof.
  induction t as [cur hs st l r pk IHl IHr] using tree_induction.
  intros h p fp fuel resultArr
    (n & lf & rf & Hn & Hd & Hh & Hs & Hp & -> & Hl & Hr) Hf.
  destruct fuel as [|fuel]; [cbn in Hf; lia|].
  cbn [height] in Hf. cbn [Store.lookup Tree.lookup]. rewrite Hn.
  cbn [mbind option_bind]. rewrite Hd.
  unfold Store.compareData, Tree.compareData, Store._keys, Tree._keys.
  assert (L : forall acc,
             match Store._left n with
             | Some lp => Store.lookup k0 ks fuel h d lp acc
             | None => Some acc
             end
             = Some match l with
                    | Some lt => Tree.lookup k0 ks d lt acc
                    | None => acc
                    end).
  { intros acc. destruct l as [lt|], (Store._left n) as [lp|]; try contradiction.
    - apply (IHl lt eq_refl h lp lf); [exact Hl|lia].
    - reflexivity. }
  assert (R : forall acc,
             match Store._right n with
             | Some rp => Store.lookup k0 ks fuel h d rp acc
             | None => Some acc
             end
             = Some match r with
                    | Some rt => Tree.lookup k0 ks d rt acc
                    | None => acc
                    end).
  { intros acc. destruct r as [rt|], (Store._right n) as [rp|]; try contradiction.
    - apply (IHr rt eq_refl h rp rf); [exact Hr|lia].
    - reflexivity. }
  destruct (compareFunc_range (k0 :: ks) (payload cur) (JObject d))
    as [E|[E|E]]; rewrite E; cbn [Z.eqb Pos.eqb mbind option_bind].
  - rewrite R. reflexivity.
  - rewrite L. cbn [mbind option_bind]. rewrite R. reflexivity.
  - rewrite L. reflexivity.
Qed.

(** The store that [new BinaryTree] and [insert(docs)] make holds the tree
    value [build] gives, in nodes that are all part of it, and [inOrder] and
    [lookup] on the store return what they return on the tree value. *)
Theorem store_agrees_with_tree (pk : option string) (docs : list doc) (fuel : nat) :
  List.length docs < fuel ->
  exists h fp,
    storeBuild k0 ks pk docs fuel = Store.Returns h (docs, [])
    /\ repr h 0 (build k0 ks pk docs) fp
    /\ NoDup fp
    /\ (forall q, q < List.length h -> In q fp)
    /\ height (build k0 ks pk docs) <= fuel
    /\ (forall type,
          Store.inOrder fuel h type 0 []
          = Some (Tree.inOrder type (build k0 ks pk docs) []))
    /\ (forall d,
          Store.lookup k0 ks fuel h d 0 []
          = Some (Tree.lookup k0 ks d (build k0 ks pk docs) [])).
Proof.
  intros F. unfold storeBuild, Store.insertArray, build, Tree.insertArray.
  rewrite insertArrayLoop_fold. cbn [fst Store.init Tree.init app].
  destruct (store_insertArrayLoop_repr docs
              [Store.mkNode None JUndefined [] None None pk]
              (Tree.Node None JUndefined [] None None pk) [0] fuel [] [])
    as (h & fp & E & R & N & C).
  { exists (Store.mkNode None JUndefined [] None None pk), [], [].
    repeat split; reflexivity. }
  { apply NoDup_singleton. }
  { cbn. intros q Hq. left. lia. }
  { cbn. lia. }
  exists h, fp. split; [exact E|]. split; [exact R|]. split; [exact N|].
  split; [exact C|].
  assert (H : height (fold_left (fun t d => fst (Tree.insert k0 ks d t)) docs
                        (Tree.Node None JUndefined [] None None pk)) <= fuel).
  { assert (G : forall ds t,
               height (fold_left (fun t d => fst (Tree.insert k0 ks d t)) ds t)
               <= height t + List.length ds).
    { induction ds as [|d ds IH]; intros t; cbn [fold_left List.length]; [lia|].
      pose proof (IH (fst (Tree.insert k0 ks d t))).
      pose proof (height_insert d t). lia. }
    pose proof (G docs (Tree.Node None JUndefined [] None None pk)) as G'.
    cbn [height] in G'. cbn in G'. lia. }
  split; [exact H|]. split.
  - intros type. eapply store_inOrder_repr; eassumption.
  - intros d. eapply store_lookup_repr; eassumption.
Qed.

End StoreRefinesTree.

(** ** remove *)

Lemma repr_subtree (t : Tree.tree) :
  forall h p fp c,
    repr h p t fp ->
    NoDup fp ->
    In c fp ->
    exists tc fpc,
      repr h c tc fpc /\ NoDup fpc /\ height tc <= height t.
Proof.
  induction t as [d hs st l r pk IHl IHr] using tree_induction.
  intros h p fp c R N Hc.
  pose proof R as (n & lf & rf & Hn & _ & _ & _ & _ & -> & Hl & Hr).
  destruct (NoDup_middle_inv lf rf p N) as (Nl & Nr & _).
  apply in_app_or in Hc as [Hc|[<-|Hc]].
  - destruct l as [lt|], (Store._left n) as [lp|]; try contradiction.
    + destruct (IHl lt eq_refl h lp lf c Hl Nl Hc) as (tc & fpc & R1 & N1 & H1).
      exists tc, fpc. repeat split; auto. cbn [height]. lia.
    + subst lf. contradiction.
  - exists (Tree.Node d hs st l r pk), (lf ++ p :: rf). auto.
  - destruct r as [rt|], (Store._right n) as [rp|]; try contradiction.
    + destruct (IHr rt eq_refl h rp rf c Hr Nr Hc) as (tc & fpc & R1 & N1 & H1).
      exists tc, fpc. repeat split; auto. cbn [height]. lia.
    + subst rf. contradiction.
Qed.

Lemma rightMost_repr (t : Tree.tree) :
  forall h p fp fuel,
    repr h p t fp ->
    height t <= fuel ->
    exists q, Store.rightMost fuel h p = Some q /\ In q fp.
Proof.
  induction t as [d hs st l r pk IHl IHr] using tree_induction.
  intros h p fp fuel (n & lf & rf & Hn & _ & _ & _ & _ & -> & Hl & Hr) Hf.
  destruct fuel as [|fuel]; [cbn in Hf; lia|]. cbn [height] in Hf.
  cbn [Store.rightMost]. rewrite Hn.
  destruct r as [rt|], (Store._right n) as [rp|]; try contradiction.
  - destruct (IHr rt eq_refl h rp rf fuel Hr ltac:(lia)) as (q & E & Hq).
    exists q. split; [exact E|]. apply in_or_app. right. right. exact Hq.
  - exists p. split; [reflexivity|]. apply in_or_app. right. left. reflexivity.
Qed.

Lemma repr_lookup (t : Tree.tree) (h : list Store.node) (p : nat) (fp : list nat) :
  repr h p t fp -> exists n, h !! p = Some n.
Proof.
  destruct t. intros (n & _ & _ & Hn & _). exists n. exact Hn.
Qed.

Lemma _remove_returns (t : Tree.tree) (h : list Store.node) (c : nat)
  (fp : list nat) (fuel : nat) :
  repr h c t fp ->
  NoDup fp ->
  height t <= fuel ->
  exists h', Store._remove fuel h c = Store.Returns h' true.
Proof.
  destruct t as [d hs st l r pk].
  intros (n & lf & rf & Hn & _ & _ & _ & _ & -> & Hl & Hr) N Hf.
  destruct (NoDup_middle_inv lf rf c N) as (Nl & Nr & Ncl & Ncr & Nlr).
  cbn [height] in Hf. unfold Store._remove. rewrite Hn.
  destruct l as [lt|], (Store._left n) as [lp|]; try contradiction.
  - destruct (repr_lookup lt h lp lf Hl) as [ln Hln]. rewrite Hln.
    destruct (Store._right n) as [rp|]; [|eexists; reflexivity].
    set (h1 := <[c := _]> h).
    assert (R1 : repr h1 lp lt lf).
    { eapply repr_frame; [exact Hl|]. intros q Hq.
      apply list_lookup_insert_ne. intros ->. contradiction. }
    destruct (rightMost_repr lt h1 lp lf fuel R1 ltac:(lia)) as (rm & E & Hrm).
    rewrite E.
    destruct (lookup_lt_is_Some_2 h1 rm (repr_in_store lt h1 lp lf rm R1 Hrm))
      as [rmn Hrmn].
    rewrite Hrmn. eexists; reflexivity.
  - destruct r as [rt|], (Store._right n) as [rp|]; try contradiction.
    + destruct (repr_lookup rt h rp rf Hr) as [rn Hrn]. rewrite Hrn.
      eexists; reflexivity.
    + eexists; reflexivity.
Qed.


(** C4, as the code has it: in a tree made by [new BinaryTree] and inserts,
    every node but the root was made with an undefined primary key; when
    [remove] is called on such a node the check reads the property named
    ["undefined"] of both documents, and when these two values are strictly
    equal (as they are when neither document has such a property) the node is
    spliced and the call returns true, whatever document was passed. *)
Theorem remove_splices_keyless_child
  (k0 : indexData) (ks : list indexData) (pk : option string)
  (docs : list doc) (fuel : nat) (h : list Store.node)
  (res : list doc * list doc)
  (c : nat) (n : Store.node) (cur x : doc) :
  List.length docs < fuel ->
  storeBuild k0 ks pk docs fuel = Store.Returns h res ->
  h !! c = Some n ->
  c <> 0 ->
  Store._data n = Some cur ->
  strict_eq (prop cur "undefined") (prop x "undefined") = true ->
  Store._primaryKey n = None
  /\ Store.remove k0 ks (S fuel) h c x = Store._remove fuel h c
  /\ exists h', Store.remove k0 ks (S fuel) h c x = Store.Returns h' true.
Proof.
  intros Hf Hb Hn Hc Hd Hu.
  destruct (storeBuild_childrenKeyless k0 ks pk docs fuel h res Hb c n Hn Hc)
    as [Hp _].
  assert (E : Store.remove k0 ks (S fuel) h c x = Store._remove fuel h c).
  { cbn [Store.remove]. rewrite Hn, Hd, Hp. cbn [propertyKey]. rewrite Hu.
    reflexivity. }
  split; [exact Hp|]. split; [exact E|]. rewrite E.
  destruct (store_agrees_with_tree k0 ks pk docs fuel Hf)
    as (h0 & fp & Eb & R & N & C & Hh & _).
  rewrite Hb in Eb. injection Eb as <- _.
  destruct (repr_subtree _ h 0 fp c R N (C c (lookup_lt_Some _ _ _ Hn)))
    as (tc & fpc & Rc & Nc & Hc').
  apply (_remove_returns tc h c fpc fuel Rc Nc). lia.
Qed.

(** The documents 1, 2 and 3 chained to the left under the primary key
    [id]; [remove] of the third one is called on the node of the second. *)
Lemma remove_splices_keyless_child_witness :
  let k0 := ascending "k" in
  let docs := [[("id", JNumber 1); ("k", JNumber 5)];
               [("id", JNumber 2); ("k", JNumber 3)];
               [("id", JNumber 3); ("k", JNumber 1)]] in
  let h := heapOf (storeBuild k0 [] (Some "id") docs 5) in
  Store.remove k0 [] 6 h 1 [("id", JNumber 3); ("k", JNumber 1)]
  = Store._remove 5 h 1
  /\ exists h',
       Store.remove k0 [] 6 h 1 [("id", JNumber 3); ("k", JNumber 1)]
       = Store.Returns h' true.
Proof.
  intros k0 docs h.
  refine (proj2 (remove_splices_keyless_child k0 [] (Some "id") docs 5 h
                   (docs, [])
                   1 (Store.mkNode (Some [("id", JNumber 2); ("k", JNumber 3)])
                        (JNumber 3) [] (Some 2) None None)
                   [("id", JNumber 2); ("k", JNumber 3)]
                   [("id", JNumber 3); ("k", JNumber 1)] _ _ _ _ _ _)).
  - cbn. lia.
  - reflexivity.
  - reflexivity.
  - discriminate.
  - reflexivity.
  - reflexivity.
Defined.

(** C4 as stated fails: the child below holds a document with a property
    named ["undefined"], [remove] is called on that child with a document
    whose property of that name differs, and the child is not spliced: the
    call returns false and leaves the store as it was. *)
Lemma remove_keeps_child_with_undefined_property :
  let k0 := ascending "k" in
  let docs := [[("id", JNumber 1); ("k", JNumber 5)];
               [("id", JNumber 2); ("k", JNumber 3); ("undefined", JNumber 7)]] in
  let x := [("id", JNumber 9); ("k", JNumber 3); ("undefined", JNumber 8)] in
  exists h,
    storeBuild k0 [] (Some "id") docs 5 = Store.Returns h (docs, [])
    /\ (exists n, h !! 1 = Some n /\ Store._primaryKey n = None)
    /\ Store.remove k0 [] 5 h 1 x = Store.Returns h false
    /\ Store.remove k0 [] 5 h 0 x = Store.Returns h false.
Proof.
  eexists. split; [reflexivity|]. split; [eexists; split; reflexivity|].
  split; reflexivity.
Qed.

(** C1 fails on the code.  With the index [{k: 1}] and the primary key [k],
    the documents 2, 1, 3 are inserted: 2 is the root, 1 its left child and 3
    its right child.  [remove({k: 2})] returns true, and afterwards [inOrder]
    and [lookup] no longer find [{k: 3}]: the left child has no right child,
    so [leftNode.rightMost()] is [leftNode] itself, the object the root no
    longer refers to, and the right subtree is attached there.
    With the primary key [id] and the documents 1, 2, 3 chained to the left,
    [remove] of the third one returns true, the third one is still found and
    the second one is gone: the node of the second document has an undefined
    primary key and is spliced without a look at its document. *)
Lemma remove_loses_documents :
  let k0 := ascending "k" in
  (exists h h',
      storeBuild k0 [] (Some "k")
        [[("k", JNumber 2)]; [("k", JNumber 1)]; [("k", JNumber 3)]] 5
      = Store.Returns h
          ([[("k", JNumber 2)]; [("k", JNumber 1)]; [("k", JNumber 3)]], [])
      /\ Store.inOrder 5 h Tree.data 0 []
         = Some [Tree.EData (Some [("k", JNumber 1)]);
                 Tree.EData (Some [("k", JNumber 2)]);
                 Tree.EData (Some [("k", JNumber 3)])]
      /\ Store.remove k0 [] 5 h 0 [("k", JNumber 2)] = Store.Returns h' true
      /\ Store.inOrder 5 h' Tree.data 0 [] = Some [Tree.EData (Some [("k", JNumber 1)])]
      /\ Store.lookup k0 [] 5 h' [("k", JNumber 3)] 0 [] = Some [])
  /\ (exists h h',
        storeBuild k0 [] (Some "id")
          [[("id", JNumber 1); ("k", JNumber 5)];
           [("id", JNumber 2); ("k", JNumber 3)];
           [("id", JNumber 3); ("k", JNumber 1)]] 5
        = Store.Returns h
            ([[("id", JNumber 1); ("k", JNumber 5)];
              [("id", JNumber 2); ("k", JNumber 3)];
              [("id", JNumber 3); ("k", JNumber 1)]], [])
        /\ Store.remove k0 [] 5 h 0 [("id", JNumber 3); ("k", JNumber 1)]
           = Store.Returns h' true
        /\ Store.lookup k0 [] 5 h' [("id", JNumber 3); ("k", JNumber 1)] 0 []
           = Some [Some [("id", JNumber 3); ("k", JNumber 1)]]
        /\ Store.lookup k0 [] 5 h' [("id", JNumber 2); ("k", JNumber 3)] 0 []
           = Some []
        /\ Store.inOrder 5 h' Tree.data 0 []
           = Some [Tree.EData (Some [("id", JNumber 3); ("k", JNumber 1)]);
                   Tree.EData (Some [("id", JNumber 1); ("k", JNumber 5)])]).
Proof.
  split.
  - eexists. eexists. split; [reflexivity|]. split; [reflexivity|].
    split; [reflexivity|]. split; reflexivity.
  - eexists. eexists. split; [reflexivity|]. split; [reflexivity|].
    split; [reflexivity|]. split; reflexivity.
Qed.

(** C7 fails on the code.  Under the index [{name: 1}] the documents
    [{name: "Joe"}] and [{age: 3}] are inserted; the comparator takes the
    missing name as undefined, and [startsWith("name", "Jo")] throws a
    TypeError at the node of the second document, where [substr] is called on
    undefined.  [remove] throws a TypeError on a node whose document was
    removed before: it reads a property of the undefined [_data]. *)
Lemma startsWith_and_remove_throw :
  let k0 := ascending "name" in
  let joe := [("name", JString "Joe")] in
  let anon := [("age", JNumber 3)] in
  _compareFunc [k0] (JObject joe) (JObject anon) = 1%Z
  /\ Tree.inOrder Tree.data (build k0 [] None [joe; anon]) []
     = [Tree.EData (Some anon); Tree.EData (Some joe)]
  /\ Tree.startsWith "name" "Jo" (build k0 [] None [joe; anon]) []
     = Throw TypeError
  /\ (exists h h',
        storeBuild k0 [] None [joe] 5 = Store.Returns h ([joe], [])
        /\ Store.remove k0 [] 5 h 0 joe = Store.Returns h' true
        /\ Store.remove k0 [] 5 h' 0 joe = Store.Throws h' TypeError).
Proof.
  split; [reflexivity|]. split; [reflexivity|]. split; [reflexivity|].
  eexists. eexists. split; [reflexivity|]. split; reflexivity.
Qed.

(** ** The encode and decode steps *)

Lemma string_of_list_ascii_snoc (l : list ascii) (c : ascii) (s : string) :
  (string_of_list_ascii (l ++ [c]) ++ s)%string
  = (string_of_list_ascii l ++ String c s)%string.
Proof.
  induction l as [|a l IH]; simpl; [reflexivity|]. rewrite IH. reflexivity.
Qed.

Lemma append_empty_r (s : string) : (s ++ "")%string = s.
Proof.
  induction s as [|c s IH]; simpl; [reflexivity|]. rewrite IH. reflexivity.
Qed.

Lemma split_from_absent (sep : string) (s : string) :
  forall cur,
    occurs sep s = false ->
    split_from sep 0 cur s = [(string_of_list_ascii (rev cur) ++ s)%string].
Proof.
  induction s as [|c s IH]; intros cur H.
  - simpl. rewrite append_empty_r. reflexivity.
  - cbn [occurs] in H. apply orb_false_iff in H as [H1 H2].
    cbn [split_from]. rewrite H1, (IH (c :: cur) H2). cbn [rev].
    rewrite string_of_list_ascii_snoc. reflexivity.
Qed.

Lemma split_json_absent (s : string) :
  occurs "::fdb::" s = false ->
  split "::fdb::" ("json::fdb::" ++ s)%string = ["json"; s].
Proof.
  intros H. unfold split. cbn.
  assert (P : String.prefix "" s = true) by (destruct s; reflexivity).
  rewrite P, (split_from_absent "::fdb::" s [] H). reflexivity.
Qed.

(** When the separator does not occur in the serialisation, the two steps
    are inverse to each other. *)
Lemma decode_encode_without_separator
  (jStringify : jsval -> string) (jParse : option string -> result jsval)
  (props : doc) (m m' : NodePersist.meta) :
  occurs "::fdb::" (jStringify (JObject props)) = false ->
  jParse (Some (jStringify (JObject props))) = Ok (JObject props) ->
  NodePersist._decode jParse
    (fst (NodePersist._encode jStringify (JObject props) m)) m'
  = Ok (JObject props, NodePersist.mkMeta true (prop props "length")).
Proof.
  intros Ho Hp. unfold NodePersist._encode, NodePersist._decode. cbn [fst].
  rewrite (split_json_absent _ Ho). cbn. rewrite Hp. reflexivity.
Qed.

(** C10 fails on the code.  The encode step does write ['json::fdb::'] and
    the serialisation, but for the object [{a: "::fdb::"}] the decode step
    cuts the text at the separator inside the string and hands [jParse] the
    text up to there, which is not JSON: decoding throws a SyntaxError instead
    of returning the object.  An object without the separator comes back. *)
Lemma decode_encode_breaks_on_separator :
  let val := JObject [("a", JString "::fdb::")] in
  let m := NodePersist.mkMeta false JUndefined in
  (forall jStringify props,
      NodePersist._encode jStringify (JObject props) m
      = (("json::fdb::" ++ jStringify (JObject props))%string,
         NodePersist.mkMeta true (prop props "length")))
  /\ split "::fdb::" (fst (NodePersist._encode JSON.stringify val m))
     = ["json";
        ("{" ++ JSON.quote "a" ++ ":" ++ String JSON.dquote "")%string;
        (String JSON.dquote "}")]
  /\ (forall jParse,
        NodePersist._decode jParse (fst (NodePersist._encode JSON.stringify val m)) m
        = do data <- jParse
                       (Some ("{" ++ JSON.quote "a" ++ ":"
                              ++ String JSON.dquote "")%string);
          Ok (data, NodePersist.found data m))
  /\ NodePersist._decode JSON.parse
       (fst (NodePersist._encode JSON.stringify val m)) m
     = Throw SyntaxError
  /\ NodePersist._decode JSON.parse
       (fst (NodePersist._encode JSON.stringify
               (JObject [("a", JString "x"); ("n", JNumber 12)]) m)) m
     = Ok (JObject [("a", JString "x"); ("n", JNumber 12)],
           NodePersist.mkMeta true JUndefined).
Proof.
  intros val m. split; [reflexivity|]. split; [reflexivity|].
  split; [intros jParse; reflexivity|]. split; reflexivity.
Qed.

(** * Further properties of the code *)

(** ** The comparator as a contract *)

(** X1: the default comparator answers -1, 0 or 1, answers the opposite when
    its arguments are exchanged, answers 0 on a value against itself, and
    reads nothing of a document but the values at the key paths. *)
Theorem compareFunc_contract (keys : list indexData) (a b : jsval) :
  (_compareFunc keys a b = (-1)%Z \/ _compareFunc keys a b = 0%Z
   \/ _compareFunc keys a b = 1%Z)
  /\ _compareFunc keys a b = (- _compareFunc keys b a)%Z
  /\ _compareFunc keys a a = 0%Z
  /\ (forall x y : doc,
        sameKey keys x y ->
        _compareFunc keys a (JObject x) = _compareFunc keys a (JObject y)
        /\ _compareFunc keys (JObject x) a = _compareFunc keys (JObject y) a).
Proof.
  split; [apply compareFunc_range|]. split; [apply compareFunc_antisym|].
  split; [apply compareFunc_refl|].
  intros x y H. split; [apply compareFunc_sameKey, H|].
  rewrite (compareFunc_antisym keys (JObject x) a),
    (compareFunc_antisym keys (JObject y) a).
  f_equal. apply compareFunc_sameKey, H.
Qed.

(** ** insert *)

(** X2: with the default comparator [insert] never answers false: the array
    form reports every document under [inserted], in the order given, and
    nothing under [failed], whatever the tree holds. *)
Theorem insertArray_never_fails
  (k0 : indexData) (ks : list indexData) (docs : list doc) (t : Tree.tree) :
  snd (Tree.insertArray k0 ks docs t) = Tree.mkInsertResult docs []
  /\ fst (Tree.insertArray k0 ks docs t)
     = fold_left (fun t d => fst (Tree.insert k0 ks d t)) docs t
  /\ (forall d, snd (Tree.insert k0 ks d t) = true).
Proof.
  unfold Tree.insertArray. rewrite insertArrayLoop_fold. cbn [fst snd app].
  repeat split. intros d. apply insert_true.
Qed.

(** X3: [insert] keeps the order invariant of the tree and the documents it
    holds: afterwards the tree holds the old documents and the new one, and
    [inOrder('data')] lists them with the comparator answering -1 or 0 from
    each to the next. *)
Theorem insert_keeps_search_tree
  (k0 : indexData) (ks : list indexData) (d : doc) (t : Tree.tree) :
  searchTree (k0 :: ks) t ->
  let t' := fst (Tree.insert k0 ks d t) in
  searchTree (k0 :: ks) t'
  /\ Permutation (elements t') (d :: elements t)
  /\ Tree.inOrder Tree.data t' [] = map (fun x => Tree.EData (Some x)) (elements t')
  /\ Sorted (notAfter (k0 :: ks)) (elements t').
Proof.
  intros H t'. pose proof (searchTree_insert k0 ks d t H) as H'.
  split; [exact H'|]. split.
  - apply elements_insert, (searchTree_populated k0 ks), H.
  - split.
    + apply inOrder_data_elements, (searchTree_populated k0 ks), H'.
    + apply searchTree_sorted, H'.
Qed.

(** The tree of 5 with 3 to its left, and the document 4. *)
Lemma insert_keeps_search_tree_witness :
  let k0 := ascending "k" in
  let t := build k0 [] None [[("k", JNumber 5)]; [("k", JNumber 3)]] in
  let t' := fst (Tree.insert k0 [] [("k", JNumber 4)] t) in
  searchTree [k0] t'
  /\ Permutation (elements t') ([("k", JNumber 4)] :: elements t)
  /\ Tree.inOrder Tree.data t' [] = map (fun x => Tree.EData (Some x)) (elements t')
  /\ Sorted (notAfter [k0]) (elements t').
Proof.
  intros k0 t t'.
  apply (insert_keeps_search_tree k0 [] [("k", JNumber 4)] t).
  cbn. split; [discriminate|]. split; [|exact I].
  split; [repeat split; discriminate|].
  constructor; [right; reflexivity|constructor].
Defined.

(** ** lookup *)

Lemma lookup_zero_only (k0 : indexData) (ks : list indexData) (d : doc)
  (t : Tree.tree) :
  Forall (fun e => _compareFunc (k0 :: ks) (payload e) (JObject d) = 0%Z)
    (Tree.lookup k0 ks d t []).
Proof.
  induction t as [cur h s l r pk IHl IHr] using tree_induction.
  rewrite lookup_node.
  assert (L : Forall (fun e => _compareFunc (k0 :: ks) (payload e) (JObject d) = 0%Z)
                (lookupChild k0 ks d l)).
  { destruct l as [x|]; [apply IHl; reflexivity|constructor]. }
  assert (R : Forall (fun e => _compareFunc (k0 :: ks) (payload e) (JObject d) = 0%Z)
                (lookupChild k0 ks d r)).
  { destruct r as [y|]; [apply IHr; reflexivity|constructor]. }
  destruct (compareFunc_range (k0 :: ks) (payload cur) (JObject d))
    as [E|[E|E]]; rewrite E; auto.
  apply Forall_app. split; [exact L|]. constructor; [exact E|exact R].
Qed.

Lemma lookup_sublist (k0 : indexData) (ks : list indexData) (d : doc)
  (t : Tree.tree) :
  sublist (Tree.lookup k0 ks d t []) (map Tree._data (nodes t)).
Proof.
  induction t as [cur h s l r pk IHl IHr] using tree_induction.
  rewrite lookup_node. cbn [nodes]. rewrite map_app. cbn [map Tree._data].
  assert (L : sublist (lookupChild k0 ks d l)
                (map Tree._data match l with Some x => nodes x | None => [] end)).
  { destruct l as [x|]; [apply IHl; reflexivity|constructor]. }
  assert (R : sublist (lookupChild k0 ks d r)
                (map Tree._data match r with Some x => nodes x | None => [] end)).
  { destruct r as [x|]; [apply IHr; reflexivity|constructor]. }
  destruct (compareFunc_range (k0 :: ks) (payload cur) (JObject d))
    as [E|[E|E]]; rewrite E.
  - apply sublist_inserts_l, sublist_cons, R.
  - apply sublist_app; [exact L|]. apply sublist_skip, R.
  - apply sublist_inserts_r, L.
Qed.

(** X4: [lookup] returns nothing but payloads of nodes of the tree, each node
    at most once and in the order [inOrder] visits them, and only payloads
    the comparator answers 0 for against the document looked up, either way
    round; this holds in every tree. *)
Theorem lookup_returns_equal_keys_only
  (k0 : indexData) (ks : list indexData) (d : doc) (t : Tree.tree) :
  Forall (fun e => _compareFunc (k0 :: ks) (payload e) (JObject d) = 0%Z
                   /\ _compareFunc (k0 :: ks) (JObject d) (payload e) = 0%Z)
    (Tree.lookup k0 ks d t [])
  /\ sublist (Tree.lookup k0 ks d t []) (map Tree._data (nodes t))
  /\ Tree.inOrder Tree.data t [] = map Tree.EData (map Tree._data (nodes t)).
Proof.
  split; [|split; [apply lookup_sublist|]].
  - eapply List.Forall_impl; [|apply lookup_zero_only].
    intros e E. split; [exact E|]. rewrite compareFunc_antisym, E. reflexivity.
  - rewrite inOrder_nodes, map_map. reflexivity.
Qed.

Section LookupGrows.

Variable k0 : indexData.
Variable ks : list indexData.

Lemma lookupChild_below (d y : doc) (c : option Tree.tree) (e : option doc) :
  (forall x, c = Some x ->
     In e (Tree.lookup k0 ks d x []) ->
     In e (Tree.lookup k0 ks d (fst (Tree.insert k0 ks y x)) [])) ->
  In e (lookupChild k0 ks d c) ->
  In e (lookupChild k0 ks d (Some (below k0 ks y c))).
Proof.
  intros IH H. destruct c as [x|]; [|contradiction].
  apply IH; [reflexivity|exact H].
Qed.

Lemma lookup_insert_incl (d y : doc) (t : Tree.tree) (e : option doc) :
  populated t ->
  In e (Tree.lookup k0 ks d t []) ->
  In e (Tree.lookup k0 ks d (fst (Tree.insert k0 ks y t)) []).
Proof.
  induction t as [cur h s l r pk IHl IHr] using tree_induction.
  intros (Hcur & Hl & Hr). destruct cur as [cur|]; [|congruence].
  rewrite insert_node.
  assert (L : In e (lookupChild k0 ks d l) ->
              In e (lookupChild k0 ks d (Some (below k0 ks y l)))).
  { apply lookupChild_below. intros x ->. apply IHl; auto. }
  assert (R : In e (lookupChild k0 ks d r) ->
              In e (lookupChild k0 ks d (Some (below k0 ks y r)))).
  { apply lookupChild_below. intros x ->. apply IHr; auto. }
  destruct (Z.eqb _ (-1)); cbn [fst]; rewrite !lookup_node;
    destruct (compareFunc_range (k0 :: ks) (payload (Some cur)) (JObject d))
      as [E|[E|E]]; rewrite E; auto; intros H;
    apply in_app_or in H as [H|[H|H]]; apply in_or_app; auto;
    right; solve [left; auto | right; auto].
Qed.

Lemma lookup_fold_insert (d e : doc) (ds : list doc) :
  sameKey (k0 :: ks) d e ->
  forall t,
    populated t ->
    In (Some e) (Tree.lookup k0 ks d t []) \/ In e ds ->
    In (Some e)
      (Tree.lookup k0 ks d
         (fold_left (fun t x => fst (Tree.insert k0 ks x t)) ds t) []).
Proof.
  intros K. induction ds as [|y ds IH]; intros t Ht H; cbn [fold_left].
  - destruct H as [H|[]]. exact H.
  - apply IH; [apply populated_insert, Ht|].
    destruct H as [H|[<-|H]]; auto.
    + left. apply lookup_insert_incl; assumption.
    + left.
      eapply Permutation_in;
        [symmetry; apply (lookup_insert_sameKey k0 ks d y t Ht K)|].
      left. reflexivity.
Qed.

End LookupGrows.

(** X5: [lookup] finds what was inserted: in a tree made by inserting
    documents, [lookup] of a document returns every inserted document that
    has the same values at all the key paths, whatever was inserted before
    and after it; so every inserted document is found by a lookup of
    itself. *)
Theorem lookup_finds_inserted
  (k0 : indexData) (ks : list indexData) (pk : option string)
  (docs : list doc) (d e : doc) :
  In e docs ->
  sameKey (k0 :: ks) d e ->
  In (Some e) (Tree.lookup k0 ks d (build k0 ks pk docs) []).
Proof.
  intros H K. unfold build, Tree.insertArray. rewrite insertArrayLoop_fold.
  cbn [fst]. destruct docs as [|d0 ds]; [contradiction|].
  cbn [fold_left Tree.init]. rewrite insert_empty. cbn [fst].
  apply lookup_fold_insert; [exact K| |].
  - repeat split; congruence.
  - destruct H as [->|H]; [left|right; exact H].
    rewrite lookup_node. cbn [payload].
    rewrite (sameKey_compare_zero (k0 :: ks) e d (sameKey_sym k0 ks d e K)).
    left. reflexivity.
Qed.

(** The second of three documents under the index [{k: 1}], looked up by a
    document that has its key alone. *)
Lemma lookup_finds_inserted_witness :
  In (Some [("k", JNumber 1); ("name", JString "one")])
    (Tree.lookup (ascending "k") [] [("k", JNumber 1)]
       (build (ascending "k") [] None
          [[("k", JNumber 2)]; [("k", JNumber 1); ("name", JString "one")];
           [("k", JNumber 3)]]) []).
Proof.
  apply (lookup_finds_inserted (ascending "k") [] None
           [[("k", JNumber 2)]; [("k", JNumber 1); ("name", JString "one")];
            [("k", JNumber 3)]]
           [("k", JNumber 1)] [("k", JNumber 1); ("name", JString "one")]).
  - simpl. right. left. reflexivity.
  - constructor; [reflexivity|constructor].
Defined.

(** ** What inOrder pushes for an inserted tree *)

Section Inserted.

Variable k0 : indexData.
Variable ks : list indexData.

Lemma asInserted_populated (t : Tree.tree) : asInserted k0 t -> populated t.
Proof.
  induction t as [cur h s l r pk IHl IHr] using tree_induction.
  intros ((d & -> & _) & _ & Hl & Hr). split; [discriminate|].
  split; [destruct l as [x|]|destruct r as [y|]]; auto.
Qed.

Lemma asInserted_below (d : doc) (c : option Tree.tree) :
  (forall x, c = Some x -> asInserted k0 x ->
     asInserted k0 (fst (Tree.insert k0 ks d x))) ->
  match c with Some x => asInserted k0 x | None => True end ->
  asInserted k0 (below k0 ks d c).
Proof.
  intros IH H. destruct c as [x|]; cbn [below].
  - apply IH; [reflexivity|exact H].
  - cbn. repeat split; auto. exists d. split; reflexivity.
Qed.

Lemma asInserted_insert (d : doc) (t : Tree.tree) :
  asInserted k0 t -> asInserted k0 (fst (Tree.insert k0 ks d t)).
Proof.
  induction t as [cur h s l r pk IHl IHr] using tree_induction.
  intros ((c & -> & Hh) & Hs & Hl & Hr). rewrite insert_node.
  destruct (Z.eqb _ (-1)); cbn [fst asInserted];
    (split; [exists c; split; [reflexivity|exact Hh]|]);
    (split; [exact Hs|]); split; auto.
  - apply asInserted_below; [|exact Hr]. intros x ->. apply IHr. reflexivity.
  - apply asInserted_below; [|exact Hl]. intros x ->. apply IHl. reflexivity.
Qed.

Lemma asInserted_fold (ds : list doc) :
  forall t,
    asInserted k0 t ->
    asInserted k0 (fold_left (fun t d => fst (Tree.insert k0 ks d t)) ds t).
Proof.
  induction ds as [|d ds IH]; intros t Ht; cbn [fold_left]; [exact Ht|].
  apply IH, asInserted_insert, Ht.
Qed.

Lemma asInserted_build (pk : option string) (d : doc) (ds : list doc) :
  asInserted k0 (build k0 ks pk (d :: ds)).
Proof.
  unfold build, Tree.insertArray. rewrite insertArrayLoop_fold. cbn [fst].
  cbn [fold_left Tree.init]. rewrite insert_empty. cbn [fst].
  apply asInserted_fold. cbn. repeat split; auto. exists d. split; reflexivity.
Qed.

Lemma asInserted_nodes (t : Tree.tree) :
  asInserted k0 t ->
  map Tree._hash (nodes t) = map (fun d => prop d (path k0)) (elements t)
  /\ map Tree._store (nodes t) = map (fun _ => []) (elements t).
Proof.
  induction t as [cur h s l r pk IHl IHr] using tree_induction.
  intros ((d & -> & ->) & -> & Hl & Hr). cbn [nodes elements].
  rewrite !map_app. cbn [map app Tree._hash Tree._store].
  assert (L : map Tree._hash match l with Some x => nodes x | None => [] end
              = map (fun d => prop d (path k0))
                  match l with Some x => elements x | None => [] end
              /\ map Tree._store match l with Some x => nodes x | None => [] end
                 = map (fun _ => [])
                     match l with Some x => elements x | None => [] end).
  { destruct l as [x|]; [apply IHl; auto|split; reflexivity]. }
  assert (R : map Tree._hash match r with Some x => nodes x | None => [] end
              = map (fun d => prop d (path k0))
                  match r with Some x => elements x | None => [] end
              /\ map Tree._store match r with Some x => nodes x | None => [] end
                 = map (fun _ => [])
                     match r with Some x => elements x | None => [] end).
  { destruct r as [x|]; [apply IHr; auto|split; reflexivity]. }
  destruct L as [-> ->], R as [-> ->]. split; reflexivity.
Qed.

End Inserted.

(** X6: in a tree made by inserting documents, [inOrder('hash')] lists for
    each document, in the order [inOrder('data')] lists the documents, its
    property named by the first key path (read as one property name, dots
    and all), and the default [inOrder()] pairs each document with an empty
    [arr]: [insert] never pushes to a node's store. *)
Theorem inOrder_modes_of_inserted_tree
  (k0 : indexData) (ks : list indexData) (pk : option string)
  (d : doc) (ds : list doc) :
  let t := build k0 ks pk (d :: ds) in
  Tree.inOrder Tree.data t [] = map (fun x => Tree.EData (Some x)) (elements t)
  /\ Tree.inOrder Tree.hash t []
     = map (fun x => Tree.EHash (prop x (path k0))) (elements t)
  /\ Tree.inOrder Tree.other t []
     = map (fun x => Tree.EKeyArr (Some x) []) (elements t)
  /\ Permutation (elements t) (d :: ds).
Proof.
  intros t. pose proof (asInserted_build k0 ks pk d ds) as A. fold t in A.
  pose proof (asInserted_populated k0 t A) as P.
  destruct (asInserted_nodes k0 t A) as [Hh Hs].
  pose proof (nodes_data t P) as Hd.
  split; [apply inOrder_data_elements, P|].
  rewrite !inOrder_nodes. cbn [app].
  split; [|split; [|apply (build_searchTree k0 ks pk d ds)]].
  - change (Tree.pushed Tree.hash) with (fun n => Tree.EHash (Tree._hash n)).
    rewrite <- (map_map Tree._hash Tree.EHash), Hh, map_map. reflexivity.
  - clear Hh. revert Hd Hs. generalize (nodes t) (elements t).
    induction l as [|n ns IH]; intros [|e es] Hd Hs; try discriminate;
      [reflexivity|].
    cbn [map] in *. injection Hd as Hd1 Hd2. injection Hs as Hs1 Hs2.
    cbn [Tree.pushed]. rewrite Hd1, Hs1. f_equal. apply IH; assumption.
Qed.

(** ** leftMost and rightMost *)

Lemma leftMost_first_node (t : Tree.tree) :
  exists rest, nodes t = Tree.leftMost t :: rest.
Proof.
  induction t as [cur h s l r pk IHl IHr] using tree_induction.
  cbn [nodes Tree.leftMost]. destruct l as [x|].
  - destruct (IHl x eq_refl) as [rest ->]. eexists. reflexivity.
  - eexists. reflexivity.
Qed.

Lemma rightMost_last_node (t : Tree.tree) :
  exists front, nodes t = front ++ [Tree.rightMost t].
Proof.
  induction t as [cur h s l r pk IHl IHr] using tree_induction.
  cbn [nodes Tree.rightMost]. destruct r as [y|].
  - destruct (IHr y eq_refl) as [front ->].
    exists (match l with Some lchild => nodes lchild | None => [] end
            ++ Tree.Node cur h s l (Some y) pk :: front).
    rewrite <- app_assoc. reflexivity.
  - eexists. reflexivity.
Qed.

(** X7: [leftMost] is the node [inOrder] visits first and [rightMost] the
    node it visits last, whatever [type] is asked for; neither has a child
    on its own side. *)
Theorem leftMost_rightMost_are_the_ends (type : Tree.mode) (t : Tree.tree) :
  (exists rest,
     Tree.inOrder type t [] = Tree.pushed type (Tree.leftMost t) :: rest)
  /\ (exists front,
        Tree.inOrder type t [] = front ++ [Tree.pushed type (Tree.rightMost t)])
  /\ Tree._left (Tree.leftMost t) = None
  /\ Tree._right (Tree.rightMost t) = None.
Proof.
  rewrite inOrder_nodes. cbn [app].
  destruct (leftMost_first_node t) as [rest Hl].
  destruct (rightMost_last_node t) as [front Hr].
  split; [exists (map (Tree.pushed type) rest); rewrite Hl; reflexivity|].
  split; [exists (map (Tree.pushed type) front); rewrite Hr, map_app; reflexivity|].
  clear. split.
  - induction t as [cur h s l r pk IHl IHr] using tree_induction.
    cbn [Tree.leftMost]. destruct l as [x|]; [apply IHl|]; reflexivity.
  - induction t as [cur h s l r pk IHl IHr] using tree_induction.
    cbn [Tree.rightMost]. destruct r as [x|]; [apply IHr|]; reflexivity.
Qed.

(** ** startsWith on any tree *)

Lemma get_undefined (p : string) : Path.get JUndefined p = JUndefined.
Proof. unfold Path.get. destruct (split "." p); reflexivity. Qed.

Lemma startsWith_throws (path val : string) (cur : option doc) h s l r pk :
  match cur with Some d => stringAt path d | None => false end = false ->
  forall resultArr,
    Tree.startsWith path val (Tree.Node cur h s l r pk) resultArr
    = Throw TypeError.
Proof.
  intros H resultArr. cbn [Tree.startsWith].
  destruct cur as [d|]; cbn [payload].
  - unfold stringAt in H. destruct (Path.get (JObject d) path);
      try reflexivity. discriminate.
  - rewrite get_undefined. reflexivity.
Qed.

Lemma startsWith_sound (path val : string) (t : Tree.tree) :
  forall resultArr res,
    Tree.startsWith path val t resultArr = Ok res ->
    exists more,
      res = resultArr ++ more
      /\ Forall (prefixed path val) more
      /\ sublist more (map Some (elements t)).
Proof.
  induction t as [cur h s l r pk IHl IHr] using tree_induction.
  intros resultArr res H.
  assert (L : forall resultArr res,
             startsWithChild path val l resultArr = Ok res ->
             exists more,
               res = resultArr ++ more
               /\ Forall (prefixed path val) more
               /\ sublist more
                    (map Some match l with Some x => elements x | None => [] end)).
  { destruct l as [x|]; cbn [startsWithChild]; [apply IHl; reflexivity|].
    intros a b [= <-]. exists []. rewrite app_nil_r.
    repeat split; constructor. }
  assert (R : forall resultArr res,
             startsWithChild path val r resultArr = Ok res ->
             exists more,
               res = resultArr ++ more
               /\ Forall (prefixed path val) more
               /\ sublist more
                    (map Some match r with Some x => elements x | None => [] end)).
  { destruct r as [x|]; cbn [startsWithChild]; [apply IHr; reflexivity|].
    intros a b [= <-]. exists []. rewrite app_nil_r.
    repeat split; constructor. }
  destruct (match cur with Some d => stringAt path d | None => false end) eqn:S;
    [|rewrite (startsWith_throws path val cur h s l r pk S) in H; discriminate].
  destruct cur as [d|]; [|discriminate]. unfold stringAt in S.
  destruct (Path.get (JObject d) path) as [| |sv|] eqn:Ed; try discriminate.
  rewrite (startsWith_node path val d sv h s l r pk Ed) in H.
  cbn [elements]. rewrite !map_app. cbn [map app].
  destruct (String.compare (substr0 sv (String.length val)) val) eqn:C.
  - destruct (startsWithChild path val l resultArr) as [r1|e] eqn:E1;
      cbn [bind] in H; [|discriminate].
    destruct (L _ _ E1) as (m1 & -> & F1 & S1).
    destruct (R _ _ H) as (m2 & -> & F2 & S2).
    exists (m1 ++ Some d :: m2). split; [rewrite <- !app_assoc; reflexivity|].
    split.
    + apply Forall_app. split; [exact F1|]. constructor; [|exact F2].
      exists d. split; [reflexivity|]. unfold hasPrefix. rewrite Ed.
      rewrite <- substr0_prefix. apply String.eqb_eq.
      apply String.compare_eq_iff. exact C.
    + apply sublist_app; [exact S1|]. apply sublist_skip. exact S2.
  - destruct (R _ _ H) as (m2 & -> & F2 & S2). exists m2.
    split; [reflexivity|]. split; [exact F2|].
    apply sublist_inserts_l. apply sublist_cons. exact S2.
  - destruct (L _ _ H) as (m1 & -> & F1 & S1). exists m1.
    split; [reflexivity|]. split; [exact F1|].
    apply sublist_inserts_r. exact S1.
Qed.

(** X8: whatever the shape of the tree and the order of its index, a
    [startsWith] that returns gives back only documents of the tree whose
    string at [path] starts with [val], each at most once and in the order
    [inOrder] lists them. *)
Theorem startsWith_returns_prefixed_only
  (path val : string) (t : Tree.tree) (res : list (option doc)) :
  Tree.startsWith path val t [] = Ok res ->
  Forall (prefixed path val) res /\ sublist res (map Some (elements t)).
Proof.
  intros H. destruct (startsWith_sound path val t [] res H) as (m & -> & F & S).
  split; assumption.
Qed.

(** A tree inserted in descending order of the name: the search returns one
    of the two documents that start with "a". *)
Lemma startsWith_returns_prefixed_only_witness :
  let t := build (descending "n") [] None
             [[("n", JString "ab")]; [("n", JString "0")]; [("n", JString "aa")]] in
  let res := [Some [("n", JString "ab")]] in
  Tree.startsWith "n" "a" t [] = Ok res
  /\ Forall (prefixed "n" "a") res /\ sublist res (map Some (elements t)).
Proof.
  intros t res. split; [reflexivity|].
  apply (startsWith_returns_prefixed_only "n" "a" t res). reflexivity.
Defined.

(** X9: with the empty prefix [startsWith] walks the whole tree: it returns
    every document, in [inOrder] order, when every node holds a document
    with a string at [path], and throws a TypeError otherwise, whatever the
    index is. *)
Theorem startsWith_empty_prefix (path : string) (t : Tree.tree) :
  forall resultArr,
    Tree.startsWith path "" t resultArr
    = if allStrings path t
      then Ok (resultArr ++ map Some (elements t))
      else Throw TypeError.
Proof.
  induction t as [cur h s l r pk IHl IHr] using tree_induction.
  intros resultArr. cbn [allStrings].
  destruct (match cur with Some d => stringAt path d | None => false end) eqn:S;
    [|rewrite (startsWith_throws path "" cur h s l r pk S); reflexivity].
  destruct cur as [d|]; [|discriminate]. unfold stringAt in S.
  destruct (Path.get (JObject d) path) as [| |sv|] eqn:Ed; try discriminate.
  rewrite (startsWith_node path "" d sv h s l r pk Ed).
  assert (E : substr0 sv (String.length "") = "") by (destruct sv; reflexivity).
  rewrite E. cbn [String.compare andb elements].
  assert (L : forall resultArr,
             startsWithChild path "" l resultArr
             = if match l with Some x => allStrings path x | None => true end
               then Ok (resultArr
                        ++ map Some match l with Some x => elements x | None => [] end)
               else Throw TypeError).
  { intros a. destruct l as [x|]; cbn [startsWithChild]; [apply IHl; reflexivity|].
    cbn [map]. rewrite app_nil_r. reflexivity. }
  assert (R : forall resultArr,
             startsWithChild path "" r resultArr
             = if match r with Some x => allStrings path x | None => true end
               then Ok (resultArr
                        ++ map Some match r with Some x => elements x | None => [] end)
               else Throw TypeError).
  { intros a. destruct r as [x|]; cbn [startsWithChild]; [apply IHr; reflexivity|].
    cbn [map]. rewrite app_nil_r. reflexivity. }
  rewrite L. destruct (match l with Some x => allStrings path x | None => true end);
    cbn [bind andb]; [|reflexivity].
  rewrite R. destruct (match r with Some x => allStrings path x | None => true end);
    [|reflexivity].
  rewrite !map_app. cbn [map app]. rewrite <- !app_assoc. reflexivity.
Qed.

(** ** The score of match *)

Lemma positionalMatches_length (q k : list string) :
  List.length (positionalMatches q k) <= List.length q
  /\ List.length (positionalMatches q k) <= List.length k.
Proof.
  revert k. induction q as [|x q IH]; intros [|y k]; cbn; try lia.
  destruct (IH k). destruct (String.eqb x y); cbn; lia.
Qed.

Lemma positionalMatches_full (q k : list string) :
  List.length (positionalMatches q k) = List.length q
  <-> exists rest, k = q ++ rest.
Proof.
  revert k. induction q as [|x q IH]; intros k.
  - cbn. split; [exists k; reflexivity|reflexivity].
  - destruct k as [|y k]; cbn [positionalMatches List.length].
    + split; [discriminate|]. intros [rest H]. discriminate H.
    + destruct (String.eqb x y) eqn:E.
      * apply String.eqb_eq in E. subst y. cbn [List.length].
        split.
        -- intros H. injection H as H1. apply IH in H1 as [rest ->].
           exists rest. reflexivity.
        -- intros [rest H]. injection H as H1. f_equal. apply IH.
           exists rest. exact H1.
      * pose proof (positionalMatches_length q k) as B. split; [lia|].
        intros [rest H]. injection H as H1 _. subst y.
        rewrite String.eqb_refl in E. discriminate.
Qed.

Lemma positionalMatches_sublist (q k : list string) :
  sublist (positionalMatches q k) q /\ sublist (positionalMatches q k) k.
Proof.
  revert k. induction q as [|x q IH]; intros [|y k]; cbn;
    try (split; apply sublist_nil_l).
  destruct (IH k) as [H1 H2]. destruct (String.eqb x y) eqn:E.
  - apply String.eqb_eq in E. subst y. split; apply sublist_skip; assumption.
  - split; apply sublist_cons; assumption.
Qed.

(** X10: the score [match] gives is the number of matched keys; it exceeds
    neither the number of keys of the query nor that of the index, the
    matched keys are keys of both in their order, and the score reaches the
    number of keys of the query exactly when the paths of the query are the
    leading paths of the index, in the same order. *)
Theorem match_score_bounds
  (_index query : doc) (pathOptions : option (string -> bool)) :
  let queryArr := parseArr query (ignorePolicy pathOptions) in
  let indexKeyArr := parseArr _index (fun _ => false) in
  let r := Tree.match_ _index query pathOptions in
  Tree.score r = List.length (Tree.matchedKeys r)
  /\ Tree.score r <= Tree.totalKeyCount r
  /\ Tree.score r <= List.length _index
  /\ sublist (Tree.matchedKeys r) queryArr
  /\ sublist (Tree.matchedKeys r) indexKeyArr
  /\ (Tree.score r = Tree.totalKeyCount r
      <-> exists rest, indexKeyArr = queryArr ++ rest).
Proof.
  intros queryArr indexKeyArr r.
  assert (E : r = Tree.mkMatchResult (positionalMatches queryArr indexKeyArr)
                    (List.length queryArr)
                    (List.length (positionalMatches queryArr indexKeyArr))).
  { subst r. unfold Tree.match_. fold (ignorePolicy pathOptions).
    fold queryArr. fold indexKeyArr.
    rewrite (matchLoop_positional queryArr indexKeyArr
               (List.length indexKeyArr) 0 ([], 0) eq_refl).
    reflexivity. }
  rewrite E. cbn [Tree.score Tree.matchedKeys Tree.totalKeyCount].
  destruct (positionalMatches_length queryArr indexKeyArr) as [L1 L2].
  destruct (positionalMatches_sublist queryArr indexKeyArr) as [S1 S2].
  split; [reflexivity|]. split; [exact L1|]. split.
  - etransitivity; [exact L2|]. subst indexKeyArr. unfold parseArr.
    etransitivity; [apply List.filter_length_le|]. rewrite length_map. lia.
  - split; [exact S1|]. split; [exact S2|]. apply positionalMatches_full.
Qed.

(** ** push and pull *)

Section PushPull.

Variable V : Type.
Variable undefined : V.
Variable strictEq : V -> V -> bool.

Lemma indexOf_found (arr : list V) (val : V) (i : nat) :
  Tree.indexOf V strictEq arr val = Some i ->
  i < List.length arr
  /\ (exists x, nth_error arr i = Some x /\ strictEq x val = true)
  /\ Forall (fun x => strictEq x val = false) (firstn i arr).
Proof.
  revert i. induction arr as [|x arr IH]; intros i; cbn [Tree.indexOf];
    [discriminate|].
  destruct (strictEq x val) eqn:E.
  - intros [= <-]. cbn. split; [lia|]. split; [exists x; auto|constructor].
  - destruct (Tree.indexOf V strictEq arr val) as [j|]; [|discriminate].
    intros [= <-]. destruct (IH j eq_refl) as (H1 & H2 & H3).
    cbn. split; [lia|]. split; [exact H2|]. constructor; assumption.
Qed.

Lemma indexOf_absent (arr : list V) (val : V) :
  Tree.indexOf V strictEq arr val = None ->
  Forall (fun x => strictEq x val = false) arr.
Proof.
  induction arr as [|x arr IH]; cbn [Tree.indexOf]; [constructor|].
  destruct (strictEq x val) eqn:E; [discriminate|].
  destruct (Tree.indexOf V strictEq arr val); [discriminate|].
  intros _. constructor; [exact E|apply IH; reflexivity].
Qed.

Lemma indexOf_app_absent (arr : list V) (val : V) :
  Tree.indexOf V strictEq arr val = None ->
  strictEq val val = true ->
  Tree.indexOf V strictEq (arr ++ [val]) val = Some (List.length arr).
Proof.
  intros H E. induction arr as [|x arr IH]; cbn [Tree.indexOf app List.length].
  - rewrite E. reflexivity.
  - cbn [Tree.indexOf] in H. destruct (strictEq x val); [discriminate|].
    destruct (Tree.indexOf V strictEq arr val); [discriminate|].
    rewrite (IH eq_refl). reflexivity.
Qed.

Lemma indexOf_app_present (arr more : list V) (val : V) (i : nat) :
  Tree.indexOf V strictEq arr val = Some i ->
  Tree.indexOf V strictEq (arr ++ more) val = Some i.
Proof.
  revert i. induction arr as [|x arr IH]; intros i; cbn [Tree.indexOf app];
    [discriminate|].
  destruct (strictEq x val); [auto|].
  destruct (Tree.indexOf V strictEq arr val) as [j|]; [|discriminate].
  intros [= <-]. rewrite (IH j eq_refl). reflexivity.
Qed.

Lemma spliceOne_length (i : nat) (arr : list V) :
  i < List.length arr ->
  List.length (Tree.spliceOne V i arr) = List.length arr - 1.
Proof.
  intros H. unfold Tree.spliceOne.
  rewrite length_app, length_firstn, length_skipn. lia.
Qed.

End PushPull.

(** X11: whatever the stored values are and whatever [===] answers on them,
    [pull] of a value other than undefined takes out the first element of
    the store that is strictly equal to it and nothing else, and returns
    false without touching the store when there is none.  After [push] of a
    value that is strictly equal to itself (every value but NaN), [pull] of
    it succeeds and leaves a store of the old length, which is the old store
    itself when the value was not in it. *)
Theorem pull_after_push
  (V : Type) (undefined : V) (strictEq : V -> V -> bool)
  (val : V) (_store : list V) :
  strictEq val undefined = false ->
  let push := Tree.push V undefined strictEq in
  let pull := Tree.pull V undefined strictEq in
  (snd (pull val _store) = true ->
   exists i x,
     nth_error _store i = Some x
     /\ strictEq x val = true
     /\ Forall (fun y => strictEq y val = false) (firstn i _store)
     /\ fst (pull val _store) = firstn i _store ++ skipn (S i) _store)
  /\ (snd (pull val _store) = false ->
      fst (pull val _store) = _store
      /\ Forall (fun y => strictEq y val = false) _store)
  /\ push val _store = (_store ++ [val], true)
  /\ (strictEq val val = true ->
      snd (pull val (_store ++ [val])) = true
      /\ List.length (fst (pull val (_store ++ [val]))) = List.length _store
      /\ (snd (pull val _store) = false ->
          fst (pull val (_store ++ [val])) = _store)).
Proof.
  intros U push pull. subst push pull. unfold Tree.push, Tree.pull.
  rewrite U. cbn [negb].
  split; [|split; [|split; [reflexivity|]]].
  - destruct (Tree.indexOf V strictEq _store val) as [i|] eqn:I;
      [|discriminate]. intros _.
    destruct (indexOf_found V strictEq _store val i I) as (_ & (x & Hx & Ex) & F).
    exists i, x. repeat split; assumption.
  - destruct (Tree.indexOf V strictEq _store val) as [i|] eqn:I;
      [discriminate|]. intros _.
    split; [reflexivity|]. apply indexOf_absent, I.
  - intros E. destruct (Tree.indexOf V strictEq _store val) as [i|] eqn:I.
    + rewrite (indexOf_app_present V strictEq _store [val] val i I).
      cbn [fst snd].
      destruct (indexOf_found V strictEq _store val i I) as (B & _).
      split; [reflexivity|]. split; [|discriminate].
      rewrite spliceOne_length; rewrite length_app; cbn; lia.
    + rewrite (indexOf_app_absent V strictEq _store val I E). cbn [fst snd].
      split; [reflexivity|]. split.
      * rewrite spliceOne_length; rewrite length_app; cbn; lia.
      * intros _. unfold Tree.spliceOne. rewrite firstn_app, skipn_app.
        rewrite firstn_all, Nat.sub_diag. cbn [firstn].
        rewrite skipn_all2 by lia.
        replace (S (List.length _store) - List.length _store) with 1 by lia.
        cbn [skipn app]. rewrite !app_nil_r. reflexivity.
Qed.

(** A store that holds the numbers 1 and 2, under the [===] of the values of
    this development; 2 is pushed and pulled. *)
Lemma pull_after_push_witness :
  let pulled :=
    Tree.pull jsval JUndefined strict_eq (JNumber 2)
      (fst (Tree.push jsval JUndefined strict_eq (JNumber 2)
              [JNumber 1; JNumber 2])) in
  snd pulled = true /\ List.length (fst pulled) = 2.
Proof.
  intros pulled.
  destruct (pull_after_push jsval JUndefined strict_eq (JNumber 2)
              [JNumber 1; JNumber 2] eq_refl)
    as (_ & _ & _ & K).
  destruct (K eq_refl) as (H1 & H2 & _). split; [exact H1|exact H2].
Defined.

(** ** remove and _remove on the store *)





Lemma elements_attach (rightNode t : Tree.tree) :
  elements (attach rightNode t) = elements t ++ elements rightNode.
Proof.
  induction t as [d hs st l r pk IHl IHr] using tree_induction.
  cbn [attach elements]. rewrite <- !app_assoc. f_equal. f_equal.
  destruct r as [y|]; [apply IHr; reflexivity|reflexivity].
Qed.

Lemma attach_repr (rp : nat) (rt : Tree.tree) (rf : list nat) (t : Tree.tree) :
  forall (h : list Store.node) (p : nat) (fp : list nat) (fuel : nat),
    repr h p t fp ->
    repr h rp rt rf ->
    NoDup fp ->
    (forall q, In q fp -> ~ In q rf) ->
    height t <= fuel ->
    exists rm rmn,
      Store.rightMost fuel h p = Some rm
      /\ h !! rm = Some rmn
      /\ In rm fp
      /\ repr (<[rm := Store.withRight (Some rp) rmn]> h) p (attach rt t)
           (fp ++ rf).
Proof.
  induction t as [d hs st l r pk IHl IHr] using tree_induction.
  intros h p fp fuel R Rr N D Hf.
  pose proof R as (n & lf & rf0 & Hn & Hd & Hh & Hs & Hp & -> & Hl & Hr).
  destruct (NoDup_middle_inv lf rf0 p N) as (Nl & Nr & Npl & Npr & Nlr).
  destruct fuel as [|fuel]; [cbn [height] in Hf; lia|]. cbn [height] in Hf.
  cbn [Store.rightMost]. rewrite Hn.
  assert (Lp : p < List.length h) by (eapply lookup_lt_Some; exact Hn).
  destruct r as [rt0|], (Store._right n) as [rp0|] eqn:Er; try contradiction.
  - destruct (IHr rt0 eq_refl h rp0 rf0 fuel Hr Rr Nr) as (rm & rmn & E & Hm & Im & Ra).
    { intros q Hq. apply D. apply in_or_app. right. right. exact Hq. }
    { lia. }
    exists rm, rmn. split; [exact E|]. split; [exact Hm|].
    split; [apply in_or_app; right; right; exact Im|].
    assert (Np : rm <> p) by (intros ->; contradiction).
    cbn [attach repr]. exists n, lf, (rf0 ++ rf).
    split; [rewrite list_lookup_insert_ne by exact Np; exact Hn|].
    repeat (split; [assumption|]).
    split; [rewrite <- app_assoc; reflexivity|]. rewrite Er. split; [|exact Ra].
    destruct l as [lt|], (Store._left n) as [lp|]; try contradiction; [|exact Hl].
    eapply repr_frame; [exact Hl|]. intros q Hq.
    apply list_lookup_insert_ne. intros ->. apply (Nlr q Hq Im).
  - subst rf0. exists p, n. split; [reflexivity|]. split; [exact Hn|].
    split; [apply in_or_app; right; left; reflexivity|].
    cbn [attach repr]. exists (Store.withRight (Some rp) n), lf, rf.
    split; [apply list_lookup_insert_eq; exact Lp|].
    cbn [Store.withRight Store._data Store._hash Store._store
           Store._primaryKey Store._left Store._right].
    repeat (split; [assumption|]).
    split; [rewrite <- app_assoc; reflexivity|]. split.
    + destruct l as [lt|], (Store._left n) as [lp|]; try contradiction; [|exact Hl].
      eapply repr_frame; [exact Hl|]. intros q Hq.
      apply list_lookup_insert_ne. intros ->. contradiction.
    + eapply repr_frame; [exact Rr|]. intros q Hq.
      apply list_lookup_insert_ne. intros ->.
      apply (D q); [apply in_or_app; right; left; reflexivity|exact Hq].
Qed.

Lemma _remove_repr
  (t : Tree.tree) (h : list Store.node) (c : nat) (fp : list nat) (fuel : nat) :
  repr h c t fp ->
  NoDup fp ->
  height t <= fuel ->
  (exists h' fp',
     Store._remove fuel h c = Store.Returns h' true
     /\ repr h' c (spliced t) fp'
     /\ NoDup fp')
  /\ Tree._hash (spliced t) = Tree._hash t
  /\ Tree._primaryKey (spliced t) = Tree._primaryKey t
  /\ elements (spliced t)
     = match Tree._left t, Tree._right t with
       | None, None => []
       | None, Some rightNode => elements rightNode
       | Some leftNode, None => elements leftNode
       | Some leftNode, Some rightNode =>
           match Tree._right leftNode with
           | Some _ => elements leftNode ++ elements rightNode
           | None => elements leftNode
           end
       end.
Proof.
  intros R N Hf. split.
  - destruct t as [d hs st l r pk].
    pose proof R as (n & lf & rf & Hn & Hd & Hh & Hs & Hp & -> & Hl & Hr).
    destruct (NoDup_middle_inv lf rf c N) as (Nl & Nr & Ncl & Ncr & Nlr).
    assert (Lc : c < List.length h) by (eapply lookup_lt_Some; exact Hn).
    cbn [height] in Hf. unfold Store._remove. rewrite Hn.
    destruct l as [lt|], (Store._left n) as [lp|] eqn:El; try contradiction.
    + destruct lt as [dl hl sl ll rl pkl].
      pose proof Hl as (ln & llf & rlf & Hln & Hdl & Hhl & Hsl & Hpl & -> & Hll & Hrl).
      destruct (NoDup_middle_inv llf rlf lp Nl) as (Nll & Nrl & Npll & Nprl & Nllrl).
      rewrite Hln.
      assert (Clp : c <> lp).
      { intros <-. apply Ncl. apply in_or_app. right. left. reflexivity. }
      set (new := Store.mkNode (Store._data ln) (Store._hash n) (Store._store ln)
                    (Store._left ln) (Store._right ln) (Store._primaryKey n)).
      set (h1 := <[c := new]> h).
      assert (F1 : forall q, q <> c -> h1 !! q = h !! q).
      { intros q Hq. apply list_lookup_insert_ne. congruence. }
      assert (H1c : h1 !! c = Some new) by (apply list_lookup_insert_eq; exact Lc).
      assert (Rll : match ll, Store._left ln with
                    | Some lchild, Some q => repr h1 q lchild llf
                    | None, None => llf = []
                    | _, _ => False
                    end).
      { destruct ll as [llt|], (Store._left ln) as [llp|]; try contradiction;
          [|exact Hll].
        eapply repr_frame; [exact Hll|]. intros q Hq. apply F1. intros ->.
        apply Ncl. apply in_or_app. left. exact Hq. }
      destruct r as [rt|], (Store._right n) as [rp|] eqn:Er; try contradiction.
      * assert (Rr1 : repr h1 rp rt rf).
        { eapply repr_frame; [exact Hr|]. intros q Hq. apply F1. intros ->.
          contradiction. }
        destruct fuel as [|fuel]; [lia|]. cbn [Store.rightMost].
        rewrite (F1 lp (not_eq_sym Clp)), Hln.
        destruct rl as [rlt|], (Store._right ln) as [rlp|] eqn:Erl;
          try contradiction.
        -- assert (Rrl1 : repr h1 rlp rlt rlf).
           { eapply repr_frame; [exact Hrl|]. intros q Hq. apply F1. intros ->.
             apply Ncl. apply in_or_app. right. right. exact Hq. }
           destruct (attach_repr rp rt rf rlt h1 rlp rlf fuel Rrl1 Rr1 Nrl)
             as (rm & rmn & E & Hm & Im & Ra).
           { intros q Hq. apply Nlr. apply in_or_app. right. right. exact Hq. }
           { cbn [height] in Hf. lia. }
           rewrite E, Hm. eexists. exists (llf ++ c :: rlf ++ rf).
           split; [reflexivity|].
           assert (Crm : rm <> c).
           { intros ->. apply Ncl. apply in_or_app. right. right. exact Im. }
           split.
           ++ cbn [spliced repr]. exists new, llf, (rlf ++ rf).
              split; [rewrite list_lookup_insert_ne by exact Crm; exact H1c|].
              subst new.
              cbn [Store._data Store._hash Store._store Store._primaryKey
                     Store._left Store._right].
              repeat (split; [assumption|]). split; [reflexivity|].
              try rewrite Erl. split; [|exact Ra].
              destruct ll as [llt|], (Store._left ln) as [llp|];
                try contradiction; [|exact Rll].
              eapply repr_frame; [exact Rll|]. intros q Hq.
              apply list_lookup_insert_ne. intros ->. apply (Nllrl q Hq Im).
           ++ apply NoDup_middle_intro.
              ** exact Nll.
              ** apply NoDup_app. split; [exact Nrl|]. split; [|exact Nr].
                 intros q Hq Hq'. apply list_elem_of_In in Hq, Hq'.
                 apply (Nlr q); [apply in_or_app; right; right; exact Hq|exact Hq'].
              ** intros Hq. apply Ncl. apply in_or_app. left. exact Hq.
              ** intros Hq. apply in_app_or in Hq as [Hq|Hq]; [|contradiction].
                 apply Ncl. apply in_or_app. right. right. exact Hq.
              ** intros q Hq Hq'. apply in_app_or in Hq' as [Hq'|Hq'].
                 --- apply (Nllrl q Hq Hq').
                 --- apply (Nlr q); [apply in_or_app; left; exact Hq|exact Hq'].
        -- subst rlf. rewrite (F1 lp (not_eq_sym Clp)), Hln.
           eexists. exists (llf ++ [c]). split; [reflexivity|]. split.
           ++ cbn [spliced repr]. exists new, llf, [].
              split; [rewrite list_lookup_insert_ne by (apply not_eq_sym; exact Clp); exact H1c|].
              subst new.
              cbn [Store._data Store._hash Store._store Store._primaryKey
                     Store._left Store._right].
              repeat (split; [assumption|]). split; [reflexivity|].
              try rewrite Erl. split; [|reflexivity].
              destruct ll as [llt|], (Store._left ln) as [llp|];
                try contradiction; [|exact Rll].
              eapply repr_frame; [exact Rll|]. intros q Hq.
              apply list_lookup_insert_ne. intros ->. contradiction.
           ++ apply NoDup_middle_intro; auto; try constructor.
              intros Hq. apply Ncl. apply in_or_app. left. exact Hq.
      * subst rf. eexists. exists (llf ++ c :: rlf). split; [reflexivity|]. split.
        -- cbn [spliced repr]. exists new, llf, rlf.
           split; [exact H1c|]. subst new.
           cbn [Store._data Store._hash Store._store Store._primaryKey
                  Store._left Store._right].
           repeat (split; [assumption|]). split; [reflexivity|].
           split; [exact Rll|].
           destruct rl as [rlt|], (Store._right ln) as [rlp|];
             try contradiction; [|exact Hrl].
           eapply repr_frame; [exact Hrl|]. intros q Hq. apply F1. intros ->.
           apply Ncl. apply in_or_app. right. right. exact Hq.
        -- apply NoDup_middle_intro; auto.
           ++ intros Hq. apply Ncl. apply in_or_app. left. exact Hq.
           ++ intros Hq. apply Ncl. apply in_or_app. right. right. exact Hq.
    + subst lf. destruct r as [rt|], (Store._right n) as [rp|] eqn:Er;
        try contradiction.
      * destruct rt as [dr hr sr lr rr pkr].
        pose proof Hr as (rn & lrf & rrf & Hrn & Hdr & Hhr & Hsr & Hpr & -> & Hlr & Hrr).
        destruct (NoDup_middle_inv lrf rrf rp Nr) as (Nlr' & Nrr & Nplr & Nprr & Nlrrr).
        rewrite Hrn.
        set (new := Store.mkNode (Store._data rn) (Store._hash n) (Store._store rn)
                      (Store._left rn) (Store._right rn) (Store._primaryKey n)).
        eexists. exists (lrf ++ c :: rrf). split; [reflexivity|]. split.
        -- cbn [spliced repr]. exists new, lrf, rrf.
           split; [apply list_lookup_insert_eq; exact Lc|]. subst new.
           cbn [Store._data Store._hash Store._store Store._primaryKey
                  Store._left Store._right].
           repeat (split; [assumption|]). split; [reflexivity|]. split.
           ++ destruct lr as [lrt|], (Store._left rn) as [lrp|];
                try contradiction; [|exact Hlr].
              eapply repr_frame; [exact Hlr|]. intros q Hq.
              apply list_lookup_insert_ne. intros ->.
              apply Ncr. apply in_or_app. left. exact Hq.
           ++ destruct rr as [rrt|], (Store._right rn) as [rrp|];
                try contradiction; [|exact Hrr].
              eapply repr_frame; [exact Hrr|]. intros q Hq.
              apply list_lookup_insert_ne. intros ->.
              apply Ncr. apply in_or_app. right. right. exact Hq.
        -- apply NoDup_middle_intro; auto.
           ++ intros Hq. apply Ncr. apply in_or_app. left. exact Hq.
           ++ intros Hq. apply Ncr. apply in_or_app. right. right. exact Hq.
      * subst rf. eexists. exists [c]. split; [reflexivity|]. split.
        -- cbn [spliced repr]. exists (Store.clear n), [], [].
           split; [apply list_lookup_insert_eq; exact Lc|].
           cbn [Store.clear Store._data Store._hash Store._store
                  Store._primaryKey Store._left Store._right].
           repeat split; assumption.
        -- apply NoDup_cons_2; [apply not_elem_of_nil|apply NoDup_nil_2].
  - destruct t as [d hs st l r pk]. cbn [Tree._left Tree._right].
    destruct l as [[dl hl sl ll rl pkl]|].
    + cbn [spliced Tree._hash Tree._primaryKey Tree._right elements].
      split; [reflexivity|]. split; [reflexivity|].
      destruct r as [rt|]; [|reflexivity]. destruct rl as [rlt|].
      * rewrite elements_attach, <- !app_assoc. reflexivity.
      * rewrite !app_nil_r. reflexivity.
    + destruct r as [[dr hr sr lr rr pkr]|]; cbn; repeat split; reflexivity.
Qed.

(** X13: [_remove], called on a node whose subtree is laid out in the store
    without sharing, returns true and leaves at that node the tree [spliced]
    describes.  The documents under the node afterwards are those of its
    only child when it has one child, none when it has no child, and, with
    two children, those of both when the left child has a right subtree; when
    the left child has no right subtree they are the documents of the left
    child alone and the whole right subtree is lost.  The cached hash of the
    node stays the one of the document removed. *)
Theorem _remove_splices
  (t : Tree.tree) (h : list Store.node) (c : nat) (fp : list nat) (fuel : nat) :
  repr h c t fp ->
  NoDup fp ->
  height t <= fuel ->
  (exists h' fp',
     Store._remove fuel h c = Store.Returns h' true
     /\ repr h' c (spliced t) fp'
     /\ NoDup fp')
  /\ Tree._hash (spliced t) = Tree._hash t
  /\ Tree._primaryKey (spliced t) = Tree._primaryKey t
  /\ elements (spliced t)
     = match Tree._left t, Tree._right t with
       | None, None => []
       | None, Some rightNode => elements rightNode
       | Some leftNode, None => elements leftNode
       | Some leftNode, Some rightNode =>
           match Tree._right leftNode with
           | Some _ => elements leftNode ++ elements rightNode
           | None => elements leftNode
           end
       end.
Proof. apply _remove_repr. Qed.

(** The documents 2, 1 and 3 under the index [{k: 1}]: the root has two
    children and its left child no right subtree. *)
Lemma _remove_splices_witness :
  let k0 := ascending "k" in
  let docs := [[("k", JNumber 2)]; [("k", JNumber 1)]; [("k", JNumber 3)]] in
  let h := heapOf (storeBuild k0 [] (Some "k") docs 5) in
  let t := build k0 [] (Some "k") docs in
  (exists h' fp',
     Store._remove 5 h 0 = Store.Returns h' true
     /\ repr h' 0 (spliced t) fp'
     /\ NoDup fp')
  /\ elements (spliced t) = [[("k", JNumber 1)]].
Proof.
  intros k0 docs h t.
  assert (R : repr h 0 t [1; 0; 2]).
  { cbn. eexists _, [1], [2]. split; [reflexivity|]. cbn.
    repeat (split; [reflexivity|]). split.
    - eexists _, [], []. split; [reflexivity|]. cbn. repeat split; reflexivity.
    - eexists _, [], []. split; [reflexivity|]. cbn. repeat split; reflexivity. }
  assert (N : NoDup [1; 0; 2]).
  { repeat (apply NoDup_cons_2; [rewrite !list_elem_of_In; cbn; lia|]).
    apply NoDup_nil_2. }
  destruct (_remove_splices t h 0 [1; 0; 2] 5 R N ltac:(cbn; lia))
    as (H & _ & _ & E).
  split; [exact H|exact E].
Defined.

(** ** _remove and the order of the documents *)

Section RemoveOrder.

Variable keys : list indexData.

Lemma before_through (docs : list doc) (x y z : doc) :
  transitiveOn keys docs ->
  In x docs -> In y docs -> In z docs ->
  (_compareFunc keys (JObject y) (JObject x) = 0%Z
   \/ _compareFunc keys (JObject y) (JObject x) = 1%Z) ->
  before keys y z ->
  before keys x z.
Proof.
  intros T Hx Hy Hz Hyx Hyz. unfold before in *.
  assert (Nxy : notAfter keys x y).
  { unfold notAfter. rewrite (compareFunc_antisym keys (JObject x) (JObject y)).
    destruct Hyx as [E|E]; rewrite E; auto. }
  assert (Nyz : notAfter keys y z) by (left; exact Hyz).
  destruct (T x y z Hx Hy Hz Nxy Nyz) as [E|E]; [exact E|]. exfalso.
  assert (Nzx : notAfter keys z x).
  { unfold notAfter. rewrite (compareFunc_antisym keys (JObject z) (JObject x)), E.
    auto. }
  pose proof (T z x y Hz Hx Hy Nzx Nxy) as Nzy. unfold notAfter in Nzy.
  rewrite (compareFunc_antisym keys (JObject z) (JObject y)), Hyz in Nzy.
  cbn in Nzy. destruct Nzy; discriminate.
Qed.

Lemma attach_searchTree (rightNode : Tree.tree) (t : Tree.tree) :
  searchTree keys t ->
  searchTree keys rightNode ->
  (forall q e, In q (elements t) -> In e (elements rightNode) -> before keys q e) ->
  searchTree keys (attach rightNode t).
Proof.
  induction t as [cur h s l r pk IHl IHr] using tree_induction.
  intros (Hcur & Hl & Hr) Sr B. destruct cur as [q|]; [|congruence].
  cbn [attach searchTree]. split; [exact Hcur|]. split; [exact Hl|].
  destruct r as [y|].
  - destruct Hr as [Sy Fy]. split.
    + apply IHr; [reflexivity|exact Sy|exact Sr|].
      intros q' e Hq' He. apply B; [|exact He]. cbn [elements].
      apply in_or_app. right. apply in_or_app. right. exact Hq'.
    + rewrite elements_attach. apply Forall_app. split; [exact Fy|].
      apply List.Forall_forall. intros e He. apply (B q e); [|exact He].
      cbn [elements]. apply in_or_app. right. left. reflexivity.
  - split; [exact Sr|]. apply List.Forall_forall. intros e He.
    apply (B q e); [|exact He]. cbn [elements].
    apply in_or_app. right. left. reflexivity.
Qed.

Lemma spliced_searchTree (t : Tree.tree) :
  searchTree keys t ->
  transitiveOn keys (elements t) ->
  Tree._left t <> None \/ Tree._right t <> None ->
  searchTree keys (spliced t).
Proof.
  destruct t as [cur h s l r pk]. intros (Hcur & Hl & Hr) T C.
  destruct cur as [d|]; [|congruence]. cbn [Tree._left Tree._right] in C.
  destruct l as [[dl hl sl ll rl pkl]|].
  - destruct Hl as [(Hdl & Hll & Hrl) Fl]. cbn [spliced searchTree].
    split; [exact Hdl|]. split; [exact Hll|].
    destruct r as [rt|]; [|exact Hrl]. destruct rl as [rlt|]; [|exact I].
    destruct Hr as [Sr Fr]. destruct Hrl as [Srl Frl].
    destruct dl as [dl|]; [|congruence].
    assert (B : forall q e,
               In q (dl :: elements rlt) -> In e (elements rt) ->
               before keys q e).
    { intros q e Hq He.
      apply (before_through _ q d e T).
      - cbn [elements]. apply in_or_app. left. apply in_or_app. right.
        destruct Hq as [<-|Hq]; [left; reflexivity|].
        right. apply in_or_app. right. exact Hq.
      - cbn [elements]. apply in_or_app. right. left. reflexivity.
      - cbn [elements]. apply in_or_app. right. right. exact He.
      - apply (proj1 (List.Forall_forall _ _) Fl q). cbn [elements].
        apply in_or_app. right.
        destruct Hq as [<-|Hq]; [left; reflexivity|].
        right. apply in_or_app. right. exact Hq.
      - apply (proj1 (List.Forall_forall _ _) Fr e He). }
    split.
    + apply attach_searchTree; [exact Srl|exact Sr|].
      intros q e Hq He. apply B; [right; exact Hq|exact He].
    + rewrite elements_attach. apply Forall_app. split; [exact Frl|].
      apply List.Forall_forall. intros e He.
      apply (B dl e); [left; reflexivity|exact He].
  - destruct r as [[dr hr sr lr rr pkr]|]; [|destruct C; congruence].
    destruct Hr as [(Hdr & Hlr & Hrr) _]. cbn [spliced searchTree]. tauto.
Qed.

End RemoveOrder.

(** X18: [_remove] keeps the documents that stay in order: called on a node
    with at least one child, in a subtree that satisfies the search-tree
    invariant under a comparator that is transitive on its documents, it
    leaves a subtree that satisfies the invariant again, so [inOrder] on it
    is still sorted. *)
Theorem _remove_keeps_search_tree
  (keys : list indexData)
  (t : Tree.tree) (h : list Store.node) (c : nat) (fp : list nat) (fuel : nat) :
  repr h c t fp ->
  NoDup fp ->
  height t <= fuel ->
  searchTree keys t ->
  transitiveOn keys (elements t) ->
  Tree._left t <> None \/ Tree._right t <> None ->
  exists h' fp',
    Store._remove fuel h c = Store.Returns h' true
    /\ repr h' c (spliced t) fp'
    /\ searchTree keys (spliced t)
    /\ Sorted (notAfter keys) (elements (spliced t))
    /\ Tree.inOrder Tree.data (spliced t) []
       = map (fun x => Tree.EData (Some x)) (elements (spliced t)).
Proof.
  intros R N Hf S T C.
  destruct (_remove_repr t h c fp fuel R N Hf) as ((h' & fp' & E & R' & _) & _).
  pose proof (spliced_searchTree keys t S T C) as S'.
  exists h', fp'. split; [exact E|]. split; [exact R'|]. split; [exact S'|].
  split; [apply searchTree_sorted, S'|].
  apply inOrder_data_elements.
  destruct keys as [|k0 ks].
  - clear - S'. induction (spliced t) as [cur hs st l r pk IHl IHr] using tree_induction.
    destruct S' as (Hc & Hl & Hr). split; [exact Hc|].
    split; [destruct l as [x|]; [apply IHl; tauto|exact I]
           |destruct r as [y|]; [apply IHr; tauto|exact I]].
  - apply (searchTree_populated k0 ks), S'.
Qed.

(** The documents 5, 3, 8 and 4 under the index [{k: 1}]: the root has two
    children and its left child a right subtree. *)
Lemma _remove_keeps_search_tree_witness :
  let k0 := ascending "k" in
  let docs := [[("k", JNumber 5)]; [("k", JNumber 3)]; [("k", JNumber 8)];
               [("k", JNumber 4)]] in
  let h := heapOf (storeBuild k0 [] (Some "k") docs 6) in
  let t := build k0 [] (Some "k") docs in
  exists h' fp',
    Store._remove 6 h 0 = Store.Returns h' true
    /\ repr h' 0 (spliced t) fp'
    /\ searchTree [k0] (spliced t)
    /\ Sorted (notAfter [k0]) (elements (spliced t))
    /\ Tree.inOrder Tree.data (spliced t) []
       = map (fun x => Tree.EData (Some x))
           [[("k", JNumber 3)]; [("k", JNumber 4)]; [("k", JNumber 8)]].
Proof.
  intros k0 docs h t.
  apply (_remove_keeps_search_tree [k0] t h 0 [1; 3; 0; 2] 6).
  - cbn. eexists _, [1; 3], [2]. split; [reflexivity|]. cbn.
    repeat (split; [reflexivity|]). split.
    + eexists _, [], [3]. split; [reflexivity|]. cbn.
      repeat (split; [reflexivity|]).
      eexists _, [], []. split; [reflexivity|]. cbn. repeat split; reflexivity.
    + eexists _, [], []. split; [reflexivity|]. cbn. repeat split; reflexivity.
  - repeat (apply NoDup_cons_2; [rewrite !list_elem_of_In; cbn; lia|]).
    apply NoDup_nil_2.
  - cbn. lia.
  - apply (build_searchTree k0 [] (Some "k")).
  - intros x y z Hx Hy Hz.
    destruct Hx as [<-|[<-|[<-|[<-|[]]]]]; destruct Hy as [<-|[<-|[<-|[<-|[]]]]];
      destruct Hz as [<-|[<-|[<-|[<-|[]]]]]; unfold notAfter; vm_compute;
      intuition discriminate.
  - left. discriminate.
Defined.

(** ** The encode and decode steps on any value *)

Lemma split_raw_absent (s : string) :
  occurs "::fdb::" s = false ->
  split "::fdb::" ("raw::fdb::" ++ s)%string = ["raw"; s].
Proof.
  intros H. unfold split. cbn.
  assert (P : String.prefix "" s = true) by (destruct s; reflexivity).
  rewrite P, (split_from_absent "::fdb::" s [] H). reflexivity.
Qed.

Lemma noColon_occurs (s : string) :
  noColon s = true -> occurs "::fdb::" s = false.
Proof.
  induction s as [|c s IH]; [reflexivity|]. cbn [noColon occurs].
  intros H. apply andb_true_iff in H as [H1 H2]. rewrite (IH H2), orb_false_r.
  cbn [String.prefix]. destruct (ascii_dec ":" c) as [<-|N]; [|reflexivity].
  discriminate H1.
Qed.

Lemma noColon_uint (d : Decimal.uint) :
  noColon (NilEmpty.string_of_uint d) = true.
Proof. induction d; cbn; auto. Qed.

Lemma string_of_int_plain (n : Z) :
  noColon (NilZero.string_of_int (Z.to_int n)) = true
  /\ NilZero.string_of_int (Z.to_int n) <> "".
Proof.
  unfold NilZero.string_of_int, NilZero.string_of_uint.
  destruct (Z.to_int n) as [d|d]; destruct d; cbn;
    rewrite ?noColon_uint; split; solve [reflexivity | discriminate].
Qed.

(** X14: the decode step undoes the encode step up to the type of the value
    when the separator does not occur in what was written: an object comes
    back as itself (if [jParse] undoes [jStringify] on it), any other value
    comes back as the string it was written as, and [foundData] and
    [rowCount] are those of the value that comes back. *)
Theorem decode_encode_round_trip
  (jStringify : jsval -> string) (jParse : option string -> result jsval)
  (val : jsval) (m m' : NodePersist.meta) :
  occurs "::fdb::" (encodedText jStringify val) = false ->
  (forall props,
     val = JObject props -> jParse (Some (jStringify val)) = Ok val) ->
  NodePersist._decode jParse (fst (NodePersist._encode jStringify val m)) m'
  = Ok (decoded val, NodePersist.found (decoded val) m').
Proof.
  intros Ho Hp. unfold NodePersist._encode, NodePersist._decode. cbn [fst].
  destruct val as [|n|s|props]; cbn [encodedText decoded] in *.
  - rewrite (split_raw_absent _ Ho). reflexivity.
  - rewrite (split_raw_absent _ Ho). reflexivity.
  - rewrite (split_raw_absent _ Ho). reflexivity.
  - rewrite (split_json_absent _ Ho). cbn. rewrite (Hp props eq_refl).
    reflexivity.
Qed.

(** The string "abc" and a parser that is never called. *)
Lemma decode_encode_round_trip_witness :
  let m := NodePersist.mkMeta false JUndefined in
  NodePersist._decode JSON.parse
    (fst (NodePersist._encode JSON.stringify (JString "abc") m)) m
  = Ok (JString "abc", NodePersist.mkMeta true (JNumber 3)).
Proof.
  intros m.
  apply (decode_encode_round_trip JSON.stringify JSON.parse (JString "abc") m m).
  - reflexivity.
  - intros props H. discriminate H.
Defined.

(** X15: a safe integer (of absolute value at most 2^53 - 1, which
    JavaScript prints in full decimal) does not survive the two steps as a
    number: it is written in decimal after ['raw::fdb::'] and comes back as
    that string, with [foundData] true and the length of the string as
    [rowCount], although the encode step left [rowCount] as it was and set
    [foundData] only for a number other than 0.  An undefined value comes
    back as the string ["undefined"]. *)
Theorem decode_encode_number
  (jStringify : jsval -> string) (jParse : option string -> result jsval)
  (n : Z) (m m' : NodePersist.meta) :
  (Z.abs n <= 9007199254740991)%Z ->
  let text := NodePersist.toString (JNumber n) in
  NodePersist._encode jStringify (JNumber n) m
  = (("raw::fdb::" ++ text)%string,
     if Z.eqb n 0 then NodePersist.mkMeta false (NodePersist.rowCount m)
     else NodePersist.mkMeta true JUndefined)
  /\ NodePersist._decode jParse
       (fst (NodePersist._encode jStringify (JNumber n) m)) m'
     = Ok (JString text,
           NodePersist.mkMeta true (JNumber (Z.of_nat (String.length text))))
  /\ NodePersist._decode jParse
       (fst (NodePersist._encode jStringify JUndefined m)) m'
     = Ok (JString "undefined", NodePersist.mkMeta true (JNumber 9)).
Proof.
  intros _ text. subst text. cbn [NodePersist.toString].
  destruct (string_of_int_plain n) as [C N].
  split; [|split; [|reflexivity]].
  - unfold NodePersist._encode, NodePersist.found.
    cbn [NodePersist.truthy NodePersist.toString].
    destruct (Z.eqb n 0); reflexivity.
  - unfold NodePersist._encode, NodePersist._decode.
    cbn [fst NodePersist.toString].
    rewrite (split_raw_absent _ (noColon_occurs _ C)).
    cbn [NodePersist.truthy String.append String.eqb negb nth_error bind].
    unfold NodePersist.found. cbn [NodePersist.truthy NodePersist.lengthOf].
    apply String.eqb_neq in N. rewrite N. reflexivity.
Qed.

(** The number -42. *)
Lemma decode_encode_number_witness :
  let m := NodePersist.mkMeta false (JNumber 7) in
  NodePersist._encode JSON.stringify (JNumber (-42)) m
  = ("raw::fdb::-42", NodePersist.mkMeta true JUndefined)
  /\ NodePersist._decode JSON.parse "raw::fdb::-42" m
     = Ok (JString "-42", NodePersist.mkMeta true (JNumber 3)).
Proof.
  intros m.
  destruct (decode_encode_number JSON.stringify JSON.parse (-42) m m
              ltac:(cbn; lia))
    as (E & D & _).
  split; [exact E|exact D].
Defined.

(** ** addStep *)

Lemma combine_app_same {A B : Type} (a a' : list A) (b b' : list B) :
  List.length a = List.length b ->
  combine (a ++ a') (b ++ b') = combine a b ++ combine a' b'.
Proof.
  revert b. induction a as [|x a IH]; intros [|y b] H; try discriminate;
    [reflexivity|].
  cbn. rewrite IH; [reflexivity|]. cbn in H. lia.
Qed.

Lemma combine_skipn_same {A B : Type} (n : nat) (a : list A) (b : list B) :
  skipn n (combine a b) = combine (skipn n a) (skipn n b).
Proof.
  revert a b. induction n as [|n IH]; intros a b; [reflexivity|].
  destruct a as [|x a]; [reflexivity|].
  destruct b as [|y b]; [cbn; destruct (skipn n a); reflexivity|].
  cbn. apply IH.
Qed.

Lemma spliceInsert_inside {A : Type} (start : Z) (item : A) (arr : list A) :
  (0 <= start <= Z.of_nat (List.length arr))%Z ->
  NodePersist.spliceInsert start item arr
  = firstn (Z.to_nat start) arr ++ item :: skipn (Z.to_nat start) arr.
Proof.
  intros H. unfold NodePersist.spliceInsert.
  destruct (Z.ltb_spec start 0) as [L|L]; [lia|].
  rewrite Z.min_l by lia. reflexivity.
Qed.

(** X16: [addStep] keeps every encode step paired with its decode step:
    when the two arrays have the same length and 0 <= index <= length, they
    still have the same length afterwards, the old pairs are unchanged and in
    their order, and the new pair sits at position [index] of the encode
    order; except that the index 0, like no index at all, puts the new pair
    last and not first. *)
Theorem addStep_keeps_pairing
  (E D : Type) (encode : E) (decode : D) (index : Z)
  (_encodeSteps : list E) (_decodeSteps : list D) :
  List.length _encodeSteps = List.length _decodeSteps ->
  (0 <= index <= Z.of_nat (List.length _encodeSteps))%Z ->
  let old := pairing (_encodeSteps, _decodeSteps) in
  let steps := NodePersist.addStep E D encode decode (Some index)
                 _encodeSteps _decodeSteps in
  List.length (fst steps) = List.length (snd steps)
  /\ pairing steps
     = (if Z.eqb index 0 then old ++ [(encode, decode)]
        else firstn (Z.to_nat index) old
               ++ (encode, decode) :: skipn (Z.to_nat index) old)
  /\ NodePersist.addStep E D encode decode None _encodeSteps _decodeSteps
     = NodePersist.addStep E D encode decode (Some 0%Z)
         _encodeSteps _decodeSteps.
Proof.
  intros L B old steps. split; [|split; [|reflexivity]].
  - subst steps. unfold NodePersist.addStep.
    destruct index as [|p|p]; [| |lia].
    + cbn [fst snd]. rewrite length_app. cbn. lia.
    + cbn [fst snd]. rewrite !spliceInsert_inside by lia.
      rewrite !length_app. cbn [List.length].
      rewrite !length_firstn, !length_skipn. lia.
  - subst steps old. unfold NodePersist.addStep, pairing.
    destruct index as [|p|p]; [| |lia].
    + cbn [Z.eqb fst snd rev].
      rewrite combine_app_same by (rewrite length_rev; exact L). reflexivity.
    + cbn [Z.eqb fst snd]. rewrite !spliceInsert_inside by lia.
      set (i := Z.to_nat (Z.pos p)).
      replace (Z.to_nat (Z.of_nat (List.length _decodeSteps) - Z.pos p))
        with (List.length _decodeSteps - i) by lia.
      rewrite rev_app_distr. cbn [rev]. rewrite <- app_assoc. cbn [app].
      rewrite <- List.firstn_rev, <- List.skipn_rev.
      rewrite combine_app_same.
      * cbn [combine]. rewrite combine_firstn, combine_skipn_same. reflexivity.
      * rewrite !length_firstn, length_rev. lia.
Qed.

(** Two steps, a third one added at index 1. *)
Lemma addStep_keeps_pairing_witness :
  pairing (NodePersist.addStep string string "e" "d" (Some 1%Z)
             ["e0"; "e1"] ["d1"; "d0"])
  = [("e0", "d0"); ("e", "d"); ("e1", "d1")].
Proof.
  apply (addStep_keeps_pairing string string "e" "d" 1
           ["e0"; "e1"] ["d1"; "d0"]).
  - reflexivity.
  - cbn. lia.
Defined.

(** X17: an index past the end of the arrays breaks the pairing: with
    length < index < 2 * length the encode step is appended, so it runs
    last, but the decode step is put at position 2 * length - index of the
    decode array and not at its head, so the decode step that runs first is
    still the one of the old last encode step. *)
Theorem addStep_past_the_end
  (E D : Type) (encode : E) (decode : D) (index : Z)
  (_encodeSteps : list E) (_decodeSteps : list D) :
  List.length _encodeSteps = List.length _decodeSteps ->
  (Z.of_nat (List.length _encodeSteps) < index
   < 2 * Z.of_nat (List.length _encodeSteps))%Z ->
  let steps := NodePersist.addStep E D encode decode (Some index)
                 _encodeSteps _decodeSteps in
  let k := Z.to_nat (2 * Z.of_nat (List.length _encodeSteps) - index) in
  fst steps = _encodeSteps ++ [encode]
  /\ snd steps = firstn k _decodeSteps ++ decode :: skipn k _decodeSteps
  /\ 0 < k
  /\ hd_error (snd steps) = hd_error _decodeSteps
  /\ exists first, hd_error _decodeSteps = Some first.
Proof.
  intros L B steps k.
  assert (F : fst steps = _encodeSteps ++ [encode]).
  { subst steps. unfold NodePersist.addStep.
    destruct index as [|p|p]; [lia| |lia]. cbn [fst].
    unfold NodePersist.spliceInsert.
    destruct (Z.ltb_spec (Z.pos p) 0) as [C|C]; [lia|].
    rewrite Z.min_r by lia. rewrite Nat2Z.id, firstn_all, skipn_all.
    reflexivity. }
  assert (S : snd steps = firstn k _decodeSteps ++ decode :: skipn k _decodeSteps).
  { subst steps k. unfold NodePersist.addStep.
    destruct index as [|p|p]; [lia| |lia]. cbn [snd].
    unfold NodePersist.spliceInsert.
    destruct (Z.ltb_spec (Z.of_nat (List.length _decodeSteps) - Z.pos p) 0)
      as [C|C]; [|lia].
    rewrite Z.max_l by lia. rewrite L.
    replace (Z.of_nat (List.length _decodeSteps)
             + (Z.of_nat (List.length _decodeSteps) - Z.pos p))%Z
      with (2 * Z.of_nat (List.length _decodeSteps) - Z.pos p)%Z by lia.
    reflexivity. }
  assert (K : 0 < k) by (subst k; lia).
  split; [exact F|]. split; [exact S|]. split; [exact K|].
  destruct _decodeSteps as [|d0 rest]; [cbn in L; rewrite L in B; cbn in B; lia|].
  split; [|exists d0; reflexivity].
  rewrite S. destruct k as [|k']; [lia|]. reflexivity.
Qed.

(** Three steps, a fourth one added at index 4. *)
Lemma addStep_past_the_end_witness :
  NodePersist.addStep string string "e" "d" (Some 4%Z)
    ["e0"; "e1"; "e2"] ["d2"; "d1"; "d0"]
  = (["e0"; "e1"; "e2"; "e"], ["d2"; "d1"; "d"; "d0"]).
Proof.
  destruct (addStep_past_the_end string string "e" "d" 4
              ["e0"; "e1"; "e2"] ["d2"; "d1"; "d0"] eq_refl ltac:(cbn; lia))
    as (F & S & _).
  apply injective_projections; [exact F|exact S].
Defined.

(** ** remove returns *)

Section RemoveReturns.

Variable k0 : indexData.
Variable ks : list indexData.

Lemma remove_returns (d : doc) (t : Tree.tree) :
  forall (h : list Store.node) (c : nat) (fp : list nat) (fuel : nat),
    repr h c t fp ->
    NoDup fp ->
    populated t ->
    height t < fuel ->
    exists h' b, Store.remove k0 ks fuel h c d = Store.Returns h' b.
Proof.
  induction t as [cur hs st l r pk IHl IHr] using tree_induction.
  intros h c fp fuel R N (Hcur & Pl & Pr) Hf.
  pose proof R as (n & lf & rf & Hn & Hd & Hh & Hs & Hp & -> & Hl & Hr).
  destruct (NoDup_middle_inv lf rf c N) as (Nl & Nr & _).
  destruct fuel as [|fuel]; [lia|]. cbn [height] in Hf.
  cbn [Store.remove]. rewrite Hn, Hd.
  destruct cur as [cur|]; [|congruence].
  destruct (strict_eq _ _).
  - destruct (_remove_returns _ h c _ fuel R N) as [h' E];
      [cbn [height]; lia|].
    exists h', true. exact E.
  - destruct (Z.eqb _ (-1)).
    + destruct r as [rt|], (Store._right n) as [rp|]; try contradiction.
      * apply (IHr rt eq_refl h rp rf fuel Hr Nr Pr). lia.
      * destruct (Z.eqb _ 1).
        -- destruct l as [lt|], (Store._left n) as [lp|]; try contradiction.
           ++ apply (IHl lt eq_refl h lp lf fuel Hl Nl Pl). lia.
           ++ exists h, false. reflexivity.
        -- exists h, false. reflexivity.
    + destruct (Z.eqb _ 1).
      * destruct l as [lt|], (Store._left n) as [lp|]; try contradiction.
        -- apply (IHl lt eq_refl h lp lf fuel Hl Nl Pl). lia.
        -- exists h, false. reflexivity.
      * exists h, false. reflexivity.
Qed.

End RemoveReturns.

(** X19: [remove] of one document always returns, with true or false, on a
    tree whose nodes all hold a document: it does not throw and the descent
    ends, as soon as the fuel exceeds the height of the tree. *)
Theorem remove_returns_on_populated
  (k0 : indexData) (ks : list indexData) (d : doc) (t : Tree.tree)
  (h : list Store.node) (c : nat) (fp : list nat) (fuel : nat) :
  repr h c t fp ->
  NoDup fp ->
  populated t ->
  height t < fuel ->
  exists h' b, Store.remove k0 ks fuel h c d = Store.Returns h' b.
Proof. apply remove_returns. Qed.

(** The documents 2, 1 and 3 under the index [{k: 1}] and the primary key
    [id], which none of them has. *)
Lemma remove_returns_on_populated_witness :
  let k0 := ascending "k" in
  let docs := [[("k", JNumber 2)]; [("k", JNumber 1)]; [("k", JNumber 3)]] in
  let h := heapOf (storeBuild k0 [] (Some "id") docs 5) in
  exists h' b, Store.remove k0 [] 5 h 0 [("k", JNumber 3)] = Store.Returns h' b.
Proof.
  intros k0 docs h.
  apply (remove_returns_on_populated k0 [] [("k", JNumber 3)]
           (build k0 [] (Some "id") docs) h 0 [1; 0; 2] 5).
  - cbn. eexists _, [1], [2]. split; [reflexivity|]. cbn.
    repeat (split; [reflexivity|]). split.
    + eexists _, [], []. split; [reflexivity|]. cbn. repeat split; reflexivity.
    + eexists _, [], []. split; [reflexivity|]. cbn. repeat split; reflexivity.
  - repeat (apply NoDup_cons_2; [rewrite !list_elem_of_In; cbn; lia|]).
    apply NoDup_nil_2.
  - cbn. repeat split; discriminate.
  - cbn. lia.
Defined.

(** ** Text the encode step did not write *)

(** X20: [_decode] does not fail on text it does not recognise: a text
    without the separator that is not ["json"] yields undefined data with
    [foundData] false and [rowCount] untouched, and the empty text is handed
    back with [foundData] false and [rowCount] 0; [jParse] is not called. *)
Theorem decode_foreign_text
  (jParse : option string -> result jsval) (val : string) (m : NodePersist.meta) :
  occurs "::fdb::" val = false ->
  val <> "json" ->
  NodePersist._decode jParse val m
  = if String.eqb val ""
    then Ok (JString "", NodePersist.mkMeta false (JNumber 0))
    else Ok (JUndefined, NodePersist.mkMeta false (NodePersist.rowCount m)).
Proof.
  intros Ho Hj. unfold NodePersist._decode. cbn [NodePersist.truthy].
  destruct (String.eqb val "") eqn:E; cbn [negb].
  - apply String.eqb_eq in E. subst val. reflexivity.
  - unfold split. rewrite (split_from_absent "::fdb::" val [] Ho).
    cbn [rev string_of_list_ascii String.append nth_error].
    destruct (String.eqb val "raw") eqn:Er.
    + apply String.eqb_eq in Er. subst val. reflexivity.
    + assert (K : match val with
                  | "json"%string => jParse None
                  | "raw"%string => Ok JUndefined
                  | _ => Ok JUndefined
                  end = Ok JUndefined).
      { clear - Hj.
        repeat (let c := fresh "c" in
                destruct val as [|c val]; [reflexivity|];
                destruct c as [[] [] [] [] [] [] [] []]; try reflexivity).
        all: try (destruct val; [congruence|reflexivity]).
        all: destruct val; reflexivity. }
      match goal with
      | |- bind ?x _ = _ =>
          replace x with (@Ok jsval JUndefined) by (symmetry; exact K)
      end.
      reflexivity.
Qed.

(** A file that holds the text "hello". *)
Lemma decode_foreign_text_witness :
  NodePersist._decode JSON.parse "hello" (NodePersist.mkMeta true (JNumber 4))
  = Ok (JUndefined, NodePersist.mkMeta false (JNumber 4)).
Proof.
  apply (decode_foreign_text JSON.parse "hello"
           (NodePersist.mkMeta true (JNumber 4))).
  - reflexivity.
  - discriminate.
Defined.
